(** * encryptaws: the EBS encryption workflow of [ec2.py]

    The program is one class, [EncryptEC2], whose methods are thin,
    strictly sequential wrappers over calls to the EC2 control plane.
    The control plane is not part of the program: it is taken as an
    interface ([Client.t]) over an abstract provider state, and the
    workflow is embedded as a state-and-error monad that also records,
    in order, every request sent and every line printed. *)

From Stdlib Require Import String List Bool Arith Lia.
From stdpp Require Import base option list strings pretty gmap.

Local Open Scope string_scope.
Local Open Scope list_scope.

(** ** Data, as the code reads it from the provider's responses *)

(** A tag is the dict [{'Key': ..., 'Value': ...}]. *)
Record Tag := mkTag { Key : string; Value : string }.

(** [volume['Attachments'][i]]: the code reads ['Device'] only. *)
Record Attachment := mkAttachment { Device : string }.

(** One element of [describe_volumes(...)['Volumes']]. *)
Record Volume := mkVolume {
  VolumeId : string;
  VolumeType : string;
  Encrypted : bool;
  Attachments : list Attachment
}.

(** [ebs] in [BlockDeviceMappings]: the code reads [ebs['Ebs']['VolumeId']]. *)
Record BlockDeviceMapping := mkMapping { Ebs_VolumeId : string }.

(** One element of [reservation['Instances']]; [AvailabilityZone] is
    [instance['Placement']['AvailabilityZone']]. *)
Record Instance := mkInstance {
  BlockDeviceMappings : list BlockDeviceMapping;
  InstanceType : string;
  AvailabilityZone : string
}.

(** One element of [describe_instances(...)['Reservations']]. *)
Record Reservation := mkReservation { Instances : list Instance }.

(** [err.response['Error']] of a botocore [ClientError]. *)
Record ErrorInfo := mkError { Code : string; Message : string }.

(** The exceptions that can travel through the workflow. *)
Inductive exn :=
| ClientError (err : ErrorInfo)
| WaiterError (reason : string)
| IndexError
| AttributeError
| TypeError.

Inductive result (A : Type) :=
| OK (a : A)
| Raise (e : exn).
Arguments OK {A} a.
Arguments Raise {A} e.

(** ** The requests the program sends *)

Inductive Call :=
| DescribeInstances (InstanceId : string)
| DescribeVolumes (VolumeId : string)
| VolumeTags (VolumeId : string)        (* ec2_resource.Volume(id).tags *)
| SnapshotTags (SnapshotId : string)    (* ec2_resource.Snapshot(id).tags *)
| StopInstances (InstanceId : string)
| WaitInstanceStopped (InstanceId : string) (Delay MaxAttempts : nat)
| CreateTags (Resource : string) (Tags : list Tag)
| DetachVolume (InstanceId VolumeId : string)
| WaitVolumeAvailable (VolumeId : string) (Delay MaxAttempts : nat)
| CreateSnapshot (VolumeId : string) (Tags : list Tag)
| WaitSnapshotCompleted (SnapshotId : string) (Delay MaxAttempts : nat)
| CreateVolume (AvailabilityZone : string) (Encrypted : bool)
    (KmsKeyId SnapshotId VolumeType : string) (Tags : list Tag)
| AttachVolume (Device InstanceId VolumeId : string)
| StartInstances (InstanceId : string)
| WaitInstanceStatusOk (InstanceId : string) (Delay MaxAttempts : nat)
| DeleteSnapshot (SnapshotId : string).

(** What came back: nothing the trace needs, a fresh resource id, or an
    exception. *)
Inductive Reply :=
| Done
| Created (id : string)
| Failed (e : exn).

(** The lines the program prints, one constructor per [print]. *)
Inductive LogLine :=
| LogPreChecksPassed                       (* "-- Pre checks passed" *)
| LogPerformingPreChecks                   (* "-- Performing pre checks" *)
| LogAllEncrypted                          (* "All volumes are already encrypted" *)
| LogTypeNotSupported (instance_type : string)
| LogInstanceNotFound (instance_id : string)
| LogError (err : ErrorInfo)               (* print(err) *)
| LogStopping (instance_id : string)
| LogStopped (instance_id : string)
| LogDetaching (volume_id device : string)
| LogSnapshotCreated (snapshot_id : string)
| LogVolumesCreated (created_volumes : list string)
| LogAttached (volume_ids : list string)
| LogStarting (instance_id : string)
| LogStatusOk (instance_id : string)
| LogSnapshotDeleted (snapshot_id : string).

Inductive Event :=
| Req (c : Call) (r : Reply)
| Printed (l : LogLine).

(** The requests that change the provider's resources. The describe
    calls, the resource attribute loads and the waiters only read. *)
Definition mutating (c : Call) : bool :=
  match c with
  | StopInstances _ | CreateTags _ _ | DetachVolume _ _
  | CreateSnapshot _ _ | CreateVolume _ _ _ _ _ _ | AttachVolume _ _ _
  | StartInstances _ | DeleteSnapshot _ => true
  | _ => false
  end.

Definition calls (evs : list Event) : list Call :=
  flat_map (fun e => match e with Req c _ => [c] | Printed _ => [] end) evs.

Definition mutating_calls (evs : list Event) : list Call :=
  List.filter mutating (calls evs).

(** ** The control plane, as an interface *)

Module Client.
(** [W] is the provider's state. Reads are functions of the state;
    every other operation returns the next state with its outcome, so
    that a failed request may still have changed something.
    [volume_tags] and [snapshot_tags] are the [tags] attribute of the
    resource objects, which loads the resource's description: the list
    under its ['Tags'] key, or [None] when the description has no such
    key, as for a resource without tags. A client call fails with a
    [ClientError], a waiter with a [WaiterError]. *)
Record t (W : Type) := {
  describe_instances : W -> string -> ErrorInfo + list Reservation;
  describe_volumes : W -> string -> ErrorInfo + list Volume;
  volume_tags : W -> string -> ErrorInfo + option (list Tag);
  snapshot_tags : W -> string -> ErrorInfo + option (list Tag);
  stop_instances : W -> string -> W * (ErrorInfo + unit);
  create_tags : W -> string -> list Tag -> W * (ErrorInfo + unit);
  detach_volume : W -> string -> string -> W * (ErrorInfo + unit);
  create_snapshot : W -> string -> list Tag -> W * (ErrorInfo + string);
  create_volume :
    W -> string -> bool -> string -> string -> string -> list Tag ->
    W * (ErrorInfo + string);
  attach_volume : W -> string -> string -> string -> W * (ErrorInfo + unit);
  start_instances : W -> string -> W * (ErrorInfo + unit);
  delete_snapshot : W -> string -> W * (ErrorInfo + unit);
  (* the four waiters: resource id, Delay, MaxAttempts; the error is
     the reason of the WaiterError *)
  wait_instance_stopped : W -> string -> nat -> nat -> W * (string + unit);
  wait_volume_available : W -> string -> nat -> nat -> W * (string + unit);
  wait_snapshot_completed : W -> string -> nat -> nat -> W * (string + unit);
  wait_instance_status_ok : W -> string -> nat -> nat -> W * (string + unit)
}.
Arguments describe_instances {W}.
Arguments describe_volumes {W}.
Arguments volume_tags {W}.
Arguments snapshot_tags {W}.
Arguments stop_instances {W}.
Arguments create_tags {W}.
Arguments detach_volume {W}.
Arguments create_snapshot {W}.
Arguments create_volume {W}.
Arguments attach_volume {W}.
Arguments start_instances {W}.
Arguments delete_snapshot {W}.
Arguments wait_instance_stopped {W}.
Arguments wait_volume_available {W}.
Arguments wait_snapshot_completed {W}.
Arguments wait_instance_status_ok {W}.
End Client.

(** ** The monad: provider state, event trace, exceptions *)

Record Outcome (W A : Type) := Out {
  world_of : W;
  events_of : list Event;
  result_of : result A
}.
Arguments Out {W A}.
Arguments world_of {W A}.
Arguments events_of {W A}.
Arguments result_of {W A}.

Definition M (W A : Type) : Type := W -> Outcome W A.

Definition ret {W A} (a : A) : M W A := fun w => Out w [] (OK a).

Definition raise {W A} (e : exn) : M W A := fun w => Out w [] (Raise e).

Definition bind {W A B} (m : M W A) (f : A -> M W B) : M W B :=
  fun w =>
    match m w with
    | Out w1 e1 (OK a) =>
        match f a w1 with
        | Out w2 e2 r => Out w2 (e1 ++ e2) r
        end
    | Out w1 e1 (Raise e) => Out w1 e1 (Raise e)
    end.

(** [try: m except: h] *)
Definition try_except {W A} (m : M W A) (h : exn -> M W A) : M W A :=
  fun w =>
    match m w with
    | Out w1 e1 (OK a) => Out w1 e1 (OK a)
    | Out w1 e1 (Raise e) =>
        match h e w1 with
        | Out w2 e2 r => Out w2 (e1 ++ e2) r
        end
    end.

Definition print {W} (l : LogLine) : M W unit := fun w => Out w [Printed l] (OK tt).

Declare Scope workflow_scope.
Delimit Scope workflow_scope with workflow.
Notation "x <- m ;; k" := (bind m (fun x => k))
  (at level 100, m at next level, right associativity) : workflow_scope.
Notation "m ;;; k" := (bind m (fun _ => k))
  (at level 100, right associativity) : workflow_scope.
Local Open Scope workflow_scope.

(** [for x in l: ...], collecting what each round produces. *)
Fixpoint for_each {W A B} (f : A -> M W B) (l : list A) : M W (list B) :=
  match l with
  | [] => ret []
  | x :: xs => y <- f x ;; ys <- for_each f xs ;; ret (y :: ys)
  end.

(** [l[0]] *)
Definition index0 {W A} (l : list A) : M W A :=
  match l with
  | x :: _ => ret x
  | [] => raise IndexError
  end.

(** [for x in o: ...] starts by iterating over [o]: [None] is not
    iterable. *)
Definition iterate {W A} (o : option (list A)) : M W (list A) :=
  match o with
  | Some l => ret l
  | None => raise TypeError
  end.

(** A read: the provider's state stays as it is. *)
Definition read {W A} (c : Call) (r : ErrorInfo + A) : M W A :=
  fun w =>
    match r with
    | inr a => Out w [Req c Done] (OK a)
    | inl err => Out w [Req c (Failed (ClientError err))] (Raise (ClientError err))
    end.

(** A client request that may change the provider's state. *)
Definition request {W A} (c : Call) (op : W -> W * (ErrorInfo + A))
    (reply : A -> Reply) : M W A :=
  fun w =>
    match op w with
    | (w', inr a) => Out w' [Req c (reply a)] (OK a)
    | (w', inl err) =>
        Out w' [Req c (Failed (ClientError err))] (Raise (ClientError err))
    end.

(** [waiter.wait(...)] *)
Definition wait {W} (c : Call) (op : W -> W * (string + unit)) : M W unit :=
  fun w =>
    match op w with
    | (w', inr _) => Out w' [Req c Done] (OK tt)
    | (w', inl reason) =>
        Out w' [Req c (Failed (WaiterError reason))] (Raise (WaiterError reason))
    end.

(** ** The class [EncryptEC2] *)

(** The fields of [self] that the methods read. The session, the client
    handles and the waiters are the [Client.t] the methods run against. *)
Record EncryptEC2 := mkEncryptEC2 {
  instance_id : string;
  key : string;
  _delay : nat;
  _max_attempts : nat;
  _pre_checks_passed : bool;
  _ec2_details : option (list Reservation)   (* None: attribute not set *)
}.

(** Python's truth value of what [pre_checks] returns; [None] is the
    fall-through without a [return]. *)
Definition truthy (r : option bool) : bool :=
  match r with
  | Some b => b
  | None => false
  end.

(** [instance_type.startswith(('c1', 'm1', 'm2', 't1'))] *)
Definition unsupported_type (instance_type : string) : bool :=
  existsb (fun p => String.prefix p instance_type) ["c1"; "m1"; "m2"; "t1"].

(** The inner loop of [get_ebs_list] over one [describe_volumes]
    response: for each unencrypted [volume] it appends
    [resp['Volumes'][0]]. *)
Definition unencrypted (Volumes : list Volume) : list Volume :=
  flat_map
    (fun volume =>
       if Encrypted volume then []
       else match Volumes with
            | first :: _ => [first]
            | [] => []
            end)
    Volumes.

(** The filter of [create_snapshots]: tags whose key starts with "aws"
    are dropped, the others are appended in order. *)
Definition final_tags (tags : list Tag) : list Tag :=
  List.filter (fun tag => negb (String.prefix "aws" (Key tag))) tags.

(** The loops of [create_volume] and [attach_volume] that read one tag:
    the variable starts as [''] and every tag with the key overwrites it. *)
Definition tag_value (k : string) (tags : list Tag) : string :=
  fold_left
    (fun acc tag => if String.eqb (Key tag) k then Value tag else acc)
    tags EmptyString.

Section Workflow.
Context {W : Type} (ec2 : Client.t W).

(** *** The client calls, with the event each leaves in the trace *)

Definition describe_instances (id : string) : M W (list Reservation) :=
  fun w => read (DescribeInstances id) (Client.describe_instances ec2 w id) w.

Definition describe_volumes (volume_id : string) : M W (list Volume) :=
  fun w => read (DescribeVolumes volume_id) (Client.describe_volumes ec2 w volume_id) w.

Definition volume_resource_tags (volume : string) : M W (option (list Tag)) :=
  fun w => read (VolumeTags volume) (Client.volume_tags ec2 w volume) w.

Definition snapshot_resource_tags (snapshot : string) : M W (option (list Tag)) :=
  fun w => read (SnapshotTags snapshot) (Client.snapshot_tags ec2 w snapshot) w.

(** [resp['Reservations'][0]['Instances'][0]] *)
Definition first_instance (Reservations : list Reservation) : M W Instance :=
  r <- index0 Reservations ;; index0 (Instances r).

(** *** The methods *)

Definition get_ebs_list (self : EncryptEC2) : M W (list Volume) :=
  describe_ec2 <- describe_instances (instance_id self) ;;
  inst <- first_instance describe_ec2 ;;
  found <- for_each
             (fun ebs =>
                resp <- describe_volumes (Ebs_VolumeId ebs) ;;
                ret (unencrypted resp))
             (BlockDeviceMappings inst) ;;
  ret (concat found).

Definition pre_checks (self : EncryptEC2) : M W (option bool) :=
  print LogPerformingPreChecks ;;;
  try_except
    (volumes <- get_ebs_list self ;;
     match volumes with
     | [] => print LogAllEncrypted ;;; ret (Some false)
     | _ :: _ =>
         resp <- describe_instances (instance_id self) ;;
         inst <- first_instance resp ;;
         let instance_type := InstanceType inst in
         if unsupported_type instance_type
         then print (LogTypeNotSupported instance_type) ;;; ret (Some false)
         else ret (Some true)
     end)
    (fun e =>
       match e with
       | ClientError err =>
           if String.eqb (Code err) "InvalidInstanceID.Malformed"
           then print (LogInstanceNotFound (instance_id self)) ;;; ret (Some false)
           else print (LogError err) ;;; ret None
       | _ => raise e
       end).

(** The constructor; [region] and [profile] select the session, which is
    the client and provider state the computation runs against. *)
Definition __init__ (instance_id key : string) : M W EncryptEC2 :=
  let self := mkEncryptEC2 instance_id key 5 60 false None in
  checked <- pre_checks self ;;
  if truthy checked
  then
    print LogPreChecksPassed ;;;
    details <- describe_instances instance_id ;;
    ret (mkEncryptEC2 instance_id key 5 60 true (Some details))
  else ret (mkEncryptEC2 instance_id key 5 60 false None).

Definition get_az (self : EncryptEC2) : M W string :=
  match _ec2_details self with
  | Some details => inst <- first_instance details ;; ret (AvailabilityZone inst)
  | None => raise AttributeError
  end.

Definition stop_instance (self : EncryptEC2) : M W unit :=
  print (LogStopping (instance_id self)) ;;;
  request (StopInstances (instance_id self))
    (fun w => Client.stop_instances ec2 w (instance_id self)) (fun _ => Done) ;;;
  wait (WaitInstanceStopped (instance_id self) (_delay self) (_max_attempts self))
    (fun w => Client.wait_instance_stopped ec2 w (instance_id self)
                (_delay self) (_max_attempts self)) ;;;
  print (LogStopped (instance_id self)).

(** One round of the loop of [detach_volume]. *)
Definition detach_one (self : EncryptEC2) (item : Volume) : M W unit :=
  let volume_id := VolumeId item in
  let volume_type := VolumeType item in
  a <- index0 (Attachments item) ;;
  let tags := [mkTag "device-name" (Device a); mkTag "volume-type" volume_type] in
  request (CreateTags volume_id tags)
    (fun w => Client.create_tags ec2 w volume_id tags) (fun _ => Done) ;;;
  print (LogDetaching volume_id (Device a)) ;;;
  request (DetachVolume (instance_id self) volume_id)
    (fun w => Client.detach_volume ec2 w (instance_id self) volume_id)
    (fun _ => Done) ;;;
  wait (WaitVolumeAvailable volume_id (_delay self) (_max_attempts self))
    (fun w => Client.wait_volume_available ec2 w volume_id
                (_delay self) (_max_attempts self)).

Definition detach_volume (self : EncryptEC2) : M W unit :=
  volumes <- get_ebs_list self ;;
  for_each (detach_one self) volumes ;;;
  ret tt.

(** One round of the loop of [create_snapshots]; it yields the id that
    the round appends to [created_snapshots]. *)
Definition snapshot_one (self : EncryptEC2) (volume : string) : M W string :=
  resource_tags <- volume_resource_tags volume ;;
  tags <- iterate resource_tags ;;
  let final_tags := final_tags tags in
  SnapshotId <- request (CreateSnapshot volume final_tags)
                  (fun w => Client.create_snapshot ec2 w volume final_tags)
                  Created ;;
  wait (WaitSnapshotCompleted SnapshotId (_delay self) (_max_attempts self))
    (fun w => Client.wait_snapshot_completed ec2 w SnapshotId
                (_delay self) (_max_attempts self)) ;;;
  print (LogSnapshotCreated SnapshotId) ;;;
  ret SnapshotId.

Definition create_snapshots (self : EncryptEC2) (volume_ids : list string)
  : M W (list string) :=
  for_each (snapshot_one self) volume_ids.

(** One round of the loop of [create_volume]. The resource's [tags]
    are loaded once, iterated over for the type and, being a list then,
    passed on in the request. *)
Definition volume_one (self : EncryptEC2) (availability_zone snapshot : string)
  : M W string :=
  resource_tags <- snapshot_resource_tags snapshot ;;
  tags <- iterate resource_tags ;;
  let volume_type := tag_value "volume-type" tags in
  VolumeId <- request
                (CreateVolume availability_zone true (key self) snapshot
                   volume_type tags)
                (fun w => Client.create_volume ec2 w availability_zone true
                            (key self) snapshot volume_type tags)
                Created ;;
  wait (WaitVolumeAvailable VolumeId (_delay self) (_max_attempts self))
    (fun w => Client.wait_volume_available ec2 w VolumeId
                (_delay self) (_max_attempts self)) ;;;
  ret VolumeId.

Definition create_volume (self : EncryptEC2) (snapshot_ids : list string)
    (availability_zone : string) : M W (list string) :=
  created_volumes <- for_each (volume_one self availability_zone) snapshot_ids ;;
  print (LogVolumesCreated created_volumes) ;;;
  ret created_volumes.

(** One round of the loop of [attach_volume]. *)
Definition attach_one (self : EncryptEC2) (volume : string) : M W unit :=
  resource_tags <- volume_resource_tags volume ;;
  tags <- iterate resource_tags ;;
  let device_name := tag_value "device-name" tags in
  request (AttachVolume device_name (instance_id self) volume)
    (fun w => Client.attach_volume ec2 w device_name (instance_id self) volume)
    (fun _ => Done).

Definition attach_volume (self : EncryptEC2) (volume_ids : list string) : M W bool :=
  for_each (attach_one self) volume_ids ;;;
  print (LogAttached volume_ids) ;;;
  ret true.

Definition start_instance (self : EncryptEC2) : M W unit :=
  request (StartInstances (instance_id self))
    (fun w => Client.start_instances ec2 w (instance_id self)) (fun _ => Done) ;;;
  print (LogStarting (instance_id self)) ;;;
  wait (WaitInstanceStatusOk (instance_id self) (_delay self) (_max_attempts self))
    (fun w => Client.wait_instance_status_ok ec2 w (instance_id self)
                (_delay self) (_max_attempts self)) ;;;
  print (LogStatusOk (instance_id self)).

Definition delete_one (item : string) : M W unit :=
  request (DeleteSnapshot item)
    (fun w => Client.delete_snapshot ec2 w item) (fun _ => Done) ;;;
  print (LogSnapshotDeleted item).

Definition delete_snapshots (snapshot_list : list string) : M W unit :=
  for_each delete_one snapshot_list ;;;
  ret tt.

Definition start_encryption (self : EncryptEC2) : M W unit :=
  if _pre_checks_passed self
  then
    volumes <- get_ebs_list self ;;
    let volume_ids := map VolumeId volumes in
    availability_zone <- get_az self ;;
    stop_instance self ;;;
    detach_volume self ;;;
    snapshots <- create_snapshots self volume_ids ;;
    encrypted_volumes <- create_volume self snapshots availability_zone ;;
    attach_volume self encrypted_volumes ;;;
    start_instance self ;;;
    delete_snapshots snapshots
  else ret tt.

(** The script: [EncryptEC2(instance_id, ...).start_encryption()]. *)
Definition main (instance_id key : string) : M W unit :=
  self <- __init__ instance_id key ;;
  start_encryption self.

End Workflow.

(** ** What a trace says *)

(** The snapshots the provider created: volume, requested tags, new id. *)
Definition created_snapshots (evs : list Event) : list (string * list Tag * string) :=
  flat_map
    (fun e =>
       match e with
       | Req (CreateSnapshot v tags) (Created sid) => [(v, tags, sid)]
       | _ => []
       end)
    evs.

(** One accepted [create_volume] request with the id that came back. *)
Record NewVolume := mkNewVolume {
  nv_zone : string;
  nv_encrypted : bool;
  nv_key : string;
  nv_snapshot : string;
  nv_type : string;
  nv_tags : list Tag;
  nv_id : string
}.

Definition created_volumes (evs : list Event) : list NewVolume :=
  flat_map
    (fun e =>
       match e with
       | Req (CreateVolume az enc k snap ty tags) (Created vid) =>
           [mkNewVolume az enc k snap ty tags vid]
       | _ => []
       end)
    evs.

(** The accepted attach requests: device, instance, volume. *)
Definition attached (evs : list Event) : list (string * string * string) :=
  flat_map
    (fun e =>
       match e with
       | Req (AttachVolume dev inst vol) Done => [(dev, inst, vol)]
       | _ => []
       end)
    evs.

Definition is_create_snapshot (c : Call) : bool :=
  match c with CreateSnapshot _ _ => true | _ => false end.

Definition is_create_volume (c : Call) : bool :=
  match c with CreateVolume _ _ _ _ _ _ => true | _ => false end.

(** A [create_volume] request with [Encrypted=True]. *)
Definition is_create_encrypted_volume (c : Call) : bool :=
  match c with CreateVolume _ true _ _ _ _ => true | _ => false end.

Definition is_attach_volume (c : Call) : bool :=
  match c with AttachVolume _ _ _ => true | _ => false end.

Definition is_detach_volume (c : Call) : bool :=
  match c with DetachVolume _ _ => true | _ => false end.

Definition is_delete_snapshot (c : Call) : bool :=
  match c with DeleteSnapshot _ => true | _ => false end.

Definition is_wait_stopped (c : Call) : bool :=
  match c with WaitInstanceStopped _ _ _ => true | _ => false end.

(** How many requests of one kind were sent, whatever came back. *)
Definition count (kind : Call -> bool) (evs : list Event) : nat :=
  length (List.filter kind (calls evs)).

(** The ids of the delete requests, in order. *)
Definition deleted_snapshots (evs : list Event) : list string :=
  flat_map
    (fun e =>
       match e with
       | Req (DeleteSnapshot sid) _ => [sid]
       | _ => []
       end)
    evs.

(** ** What is assumed of the provider where tags must travel *)

(** [tag] is on the resource, and no other tag there has its key with
    another value. *)
Definition holds (tag : Tag) (tags : list Tag) : Prop :=
  In tag tags /\ forall t, In t tags -> Key t = Key tag -> Value t = Value tag.

Section Laws.
Context {W : Type} (ec2 : Client.t W).

Definition volume_has (w : W) (volume : string) (tag : Tag) : Prop :=
  exists tags, Client.volume_tags ec2 w volume = inr (Some tags) /\ holds tag tags.

Definition snapshot_has (w : W) (snapshot : string) (tag : Tag) : Prop :=
  exists tags,
    Client.snapshot_tags ec2 w snapshot = inr (Some tags) /\ holds tag tags.

Definition keeps_volume_tags (w w' : W) : Prop :=
  forall volume tag, volume_has w volume tag -> volume_has w' volume tag.

Definition keeps_snapshot_tags (w w' : W) : Prop :=
  forall snapshot tag, snapshot_has w snapshot tag -> snapshot_has w' snapshot tag.

Definition keeps_tags (w w' : W) : Prop :=
  keeps_volume_tags w w' /\ keeps_snapshot_tags w w'.

Definition same_listing (w w' : W) : Prop :=
  (forall id, Client.describe_instances ec2 w' id = Client.describe_instances ec2 w id) /\
  (forall v, Client.describe_volumes ec2 w' v = Client.describe_volumes ec2 w v).

(** A provider that stores the tags it is given, keeps one value per
    key on a resource, leaves the tags of a resource alone when asked
    about another one, and does not change which volumes an instance has
    when the instance stops. Nothing is assumed of a request that fails. *)
Record TagFaithful : Prop := {
  stop_same_listing :
    forall w id w' r, Client.stop_instances ec2 w id = (w', inr r) -> same_listing w w';
  wait_stopped_same_listing :
    forall w id d n w' r,
      Client.wait_instance_stopped ec2 w id d n = (w', inr r) -> same_listing w w';
  create_tags_stores :
    forall w v new w' r,
      Client.create_tags ec2 w v new = (w', inr r) ->
      (forall tag, holds tag new -> volume_has w' v tag) /\
      (forall v' tag, v' <> v -> volume_has w v' tag -> volume_has w' v' tag);
  detach_keeps :
    forall w i v w' r,
      Client.detach_volume ec2 w i v = (w', inr r) -> keeps_tags w w';
  wait_available_keeps :
    forall w v d n w' r,
      Client.wait_volume_available ec2 w v d n = (w', inr r) -> keeps_tags w w';
  create_snapshot_stores :
    forall w v req w' sid,
      Client.create_snapshot ec2 w v req = (w', inr sid) ->
      (forall tag, holds tag req -> snapshot_has w' sid tag) /\ keeps_tags w w';
  wait_snapshot_keeps :
    forall w s d n w' r,
      Client.wait_snapshot_completed ec2 w s d n = (w', inr r) -> keeps_tags w w';
  create_volume_stores :
    forall w az enc k snap ty req w' vid,
      Client.create_volume ec2 w az enc k snap ty req = (w', inr vid) ->
      (forall tag, holds tag req -> volume_has w' vid tag) /\ keeps_tags w w';
  attach_keeps :
    forall w dev i v w' r,
      Client.attach_volume ec2 w dev i v = (w', inr r) -> keeps_tags w w';
  start_keeps :
    forall w id w' r,
      Client.start_instances ec2 w id = (w', inr r) -> keeps_volume_tags w w';
  wait_status_ok_keeps :
    forall w id d n w' r,
      Client.wait_instance_status_ok ec2 w id d n = (w', inr r) ->
      keeps_volume_tags w w';
  delete_snapshot_keeps :
    forall w s w' r,
      Client.delete_snapshot ec2 w s = (w', inr r) -> keeps_volume_tags w w'
}.

End Laws.

(** One original volume and what the run made of it. *)
Record Replacement := mkReplacement {
  original : Volume;
  device : string;              (* where the original was attached *)
  snapshot : string;
  snapshot_request_tags : list Tag;
  replacement : string;
  replacement_request_tags : list Tag
}.

(** The two tags that [detach_volume] records are on a resource. *)
Definition recorded (has : Tag -> Prop) (device_name volume_type : string) : Prop :=
  has (mkTag "device-name" device_name) /\ has (mkTag "volume-type" volume_type).

(** What a run with trace [evs] and final state [w'] made of [volumes]:
    position by position one snapshot, one encrypted volume of the
    original's type created from it, and one accepted attach request for
    that volume at the original's device, and nothing else of the three;
    the two recorded tags are in both requests and on the replacement at
    the end. *)
Definition replaced_one_for_one {W : Type} (ec2 : Client.t W) (self : EncryptEC2)
    (w' : W) (evs : list Event) (volumes : list Volume) : Prop :=
  exists (rs : list Replacement) (availability_zone : string),
    map original rs = volumes /\
    created_snapshots evs =
      map (fun r => (VolumeId (original r), snapshot_request_tags r, snapshot r)) rs /\
    created_volumes evs =
      map (fun r => mkNewVolume availability_zone true (key self) (snapshot r)
                      (VolumeType (original r)) (replacement_request_tags r)
                      (replacement r)) rs /\
    attached evs = map (fun r => (device r, instance_id self, replacement r)) rs /\
    Forall (fun r =>
              (exists rest,
                  Attachments (original r) = mkAttachment (device r) :: rest) /\
              recorded (fun tag => holds tag (snapshot_request_tags r))
                (device r) (VolumeType (original r)) /\
              recorded (fun tag => holds tag (replacement_request_tags r))
                (device r) (VolumeType (original r)) /\
              recorded (volume_has ec2 w' (replacement r))
                (device r) (VolumeType (original r))) rs.

(** ** A small provider to run the workflow against

    Instances, volumes and snapshots in finite maps. It is used to run
    the workflow on concrete inventories; the theorems are stated for
    any [Client.t]. *)

Module Mock.

Record volume_rec := mkVol {
  v_type : string;
  v_encrypted : bool;
  v_attached : list (string * string);     (* instance id, device *)
  v_tags : list Tag
}.

Record instance_rec := mkInst {
  i_type : string;
  i_zone : string;
  i_devices : list (string * string);      (* device, volume id *)
  i_stop_polls : nat                       (* polls before it reports stopped *)
}.

Record world := mkWorld {
  instances : gmap string instance_rec;
  volumes : gmap string volume_rec;
  snapshots : gmap string (list Tag);
  next_id : nat
}.

Definition error (code : string) : ErrorInfo := mkError code EmptyString.

Definition describe_instances (w : world) (id : string)
  : ErrorInfo + list Reservation :=
  if String.prefix "i-" id then
    match instances w !! id with
    | Some i =>
        inr [mkReservation
               [mkInstance (map (fun dv => mkMapping (snd dv)) (i_devices i))
                  (i_type i) (i_zone i)]]
    | None => inl (error "InvalidInstanceID.NotFound")
    end
  else inl (error "InvalidInstanceID.Malformed").

Definition describe_volumes (w : world) (v : string) : ErrorInfo + list Volume :=
  match volumes w !! v with
  | Some r =>
      inr [mkVolume v (v_type r) (v_encrypted r)
             (map (fun a => mkAttachment (snd a)) (v_attached r))]
  | None => inl (error "InvalidVolume.NotFound")
  end.

(** The [tags] attribute of a resource that has [tags]: [None] when it
    has none. *)
Definition attribute (tags : list Tag) : option (list Tag) :=
  match tags with
  | [] => None
  | _ :: _ => Some tags
  end.

Definition volume_tags (w : world) (v : string) : ErrorInfo + option (list Tag) :=
  match volumes w !! v with
  | Some r => inr (attribute (v_tags r))
  | None => inl (error "InvalidVolume.NotFound")
  end.

Definition snapshot_tags (w : world) (s : string)
  : ErrorInfo + option (list Tag) :=
  match snapshots w !! s with
  | Some tags => inr (attribute tags)
  | None => inl (error "InvalidSnapshot.NotFound")
  end.

Definition stop_instances (w : world) (id : string) : world * (ErrorInfo + unit) :=
  match instances w !! id with
  | Some _ => (w, inr tt)
  | None => (w, inl (error "InvalidInstanceID.NotFound"))
  end.

Definition wait_instance_stopped (w : world) (id : string) (delay max_attempts : nat)
  : world * (string + unit) :=
  match instances w !! id with
  | Some i =>
      if Nat.ltb (i_stop_polls i) max_attempts then (w, inr tt)
      else (w, inl "Max attempts exceeded")
  | None => (w, inl "InvalidInstanceID.NotFound")
  end.

Definition has_key (tags : list Tag) (k : string) : bool :=
  existsb (fun t => String.eqb (Key t) k) tags.

(** New tags replace the old ones with the same key. *)
Definition upsert (new old : list Tag) : list Tag :=
  List.filter (fun t => negb (has_key new (Key t))) old ++ new.

Definition create_tags (w : world) (v : string) (new : list Tag)
  : world * (ErrorInfo + unit) :=
  match volumes w !! v with
  | Some r =>
      (mkWorld (instances w)
         (<[v := mkVol (v_type r) (v_encrypted r) (v_attached r)
                   (upsert new (v_tags r))]> (volumes w))
         (snapshots w) (next_id w),
       inr tt)
  | None => (w, inl (error "InvalidVolume.NotFound"))
  end.

Definition detach_volume (w : world) (i v : string) : world * (ErrorInfo + unit) :=
  match instances w !! i, volumes w !! v with
  | Some ir, Some vr =>
      if existsb (fun a => String.eqb (fst a) i) (v_attached vr) then
        (mkWorld
           (<[i := mkInst (i_type ir) (i_zone ir)
                     (List.filter (fun dv => negb (String.eqb (snd dv) v)) (i_devices ir))
                     (i_stop_polls ir)]> (instances w))
           (<[v := mkVol (v_type vr) (v_encrypted vr)
                     (List.filter (fun a => negb (String.eqb (fst a) i)) (v_attached vr))
                     (v_tags vr)]> (volumes w))
           (snapshots w) (next_id w),
         inr tt)
      else (w, inl (error "IncorrectState"))
  | _, _ => (w, inl (error "InvalidVolume.NotFound"))
  end.

Definition wait_volume_available (w : world) (v : string) (delay max_attempts : nat)
  : world * (string + unit) :=
  match volumes w !! v with
  | Some r =>
      match v_attached r, max_attempts with
      | [], S _ => (w, inr tt)
      | _, _ => (w, inl "Max attempts exceeded")
      end
  | None => (w, inl "InvalidVolume.NotFound")
  end.

Definition create_snapshot (w : world) (v : string) (tags : list Tag)
  : world * (ErrorInfo + string) :=
  let sid := String.append "snap-" (pretty (next_id w)) in
  match volumes w !! v, snapshots w !! sid with
  | Some _, None =>
      (mkWorld (instances w) (volumes w) (<[sid := tags]> (snapshots w))
         (S (next_id w)),
       inr sid)
  | Some _, Some _ => (w, inl (error "InternalError"))
  | None, _ => (w, inl (error "InvalidVolume.NotFound"))
  end.

Definition wait_snapshot_completed (w : world) (s : string) (delay max_attempts : nat)
  : world * (string + unit) :=
  match snapshots w !! s, max_attempts with
  | Some _, S _ => (w, inr tt)
  | Some _, O => (w, inl "Max attempts exceeded")
  | None, _ => (w, inl "InvalidSnapshot.NotFound")
  end.

Definition create_volume (w : world) (az : string) (enc : bool)
    (kms snap ty : string) (tags : list Tag) : world * (ErrorInfo + string) :=
  let vid := String.append "vol-" (pretty (next_id w)) in
  match snapshots w !! snap, volumes w !! vid with
  | Some _, None =>
      if String.eqb ty EmptyString then (w, inl (error "InvalidParameterValue"))
      else
        (mkWorld (instances w) (<[vid := mkVol ty enc [] tags]> (volumes w))
           (snapshots w) (S (next_id w)),
         inr vid)
  | Some _, Some _ => (w, inl (error "InternalError"))
  | None, _ => (w, inl (error "InvalidSnapshot.NotFound"))
  end.

Definition attach_volume (w : world) (dev i v : string) : world * (ErrorInfo + unit) :=
  match instances w !! i, volumes w !! v with
  | Some ir, Some vr =>
      if String.eqb dev EmptyString then (w, inl (error "InvalidParameterValue"))
      else if existsb (fun dv => String.eqb (fst dv) dev) (i_devices ir)
      then (w, inl (error "InvalidParameterValue"))
      else
        match v_attached vr with
        | [] =>
            (mkWorld
               (<[i := mkInst (i_type ir) (i_zone ir) (i_devices ir ++ [(dev, v)])
                         (i_stop_polls ir)]> (instances w))
               (<[v := mkVol (v_type vr) (v_encrypted vr) [(i, dev)] (v_tags vr)]>
                  (volumes w))
               (snapshots w) (next_id w),
             inr tt)
        | _ :: _ => (w, inl (error "VolumeInUse"))
        end
  | _, _ => (w, inl (error "InvalidVolume.NotFound"))
  end.

Definition start_instances (w : world) (id : string) : world * (ErrorInfo + unit) :=
  match instances w !! id with
  | Some _ => (w, inr tt)
  | None => (w, inl (error "InvalidInstanceID.NotFound"))
  end.

Definition wait_instance_status_ok (w : world) (id : string) (delay max_attempts : nat)
  : world * (string + unit) :=
  match instances w !! id, max_attempts with
  | Some _, S _ => (w, inr tt)
  | Some _, O => (w, inl "Max attempts exceeded")
  | None, _ => (w, inl "InvalidInstanceID.NotFound")
  end.

Definition delete_snapshot (w : world) (s : string) : world * (ErrorInfo + unit) :=
  match snapshots w !! s with
  | Some _ =>
      (mkWorld (instances w) (volumes w) (delete s (snapshots w)) (next_id w), inr tt)
  | None => (w, inl (error "InvalidSnapshot.NotFound"))
  end.

Definition ec2 : Client.t world := {|
  Client.describe_instances := describe_instances;
  Client.describe_volumes := describe_volumes;
  Client.volume_tags := volume_tags;
  Client.snapshot_tags := snapshot_tags;
  Client.stop_instances := stop_instances;
  Client.create_tags := create_tags;
  Client.detach_volume := detach_volume;
  Client.create_snapshot := create_snapshot;
  Client.create_volume := create_volume;
  Client.attach_volume := attach_volume;
  Client.start_instances := start_instances;
  Client.delete_snapshot := delete_snapshot;
  Client.wait_instance_stopped := wait_instance_stopped;
  Client.wait_volume_available := wait_volume_available;
  Client.wait_snapshot_completed := wait_snapshot_completed;
  Client.wait_instance_status_ok := wait_instance_status_ok
|}.

(** The inventory of the end-to-end scenario: instance [i-1] with
    [vol-a] (unencrypted, at [/dev/sda1]) and [vol-b] (encrypted). *)
Definition inventory (instance_type : string) (stop_polls : nat) : world :=
  mkWorld
    {[ "i-1" := mkInst instance_type "us-east-1a"
                  [("/dev/sda1", "vol-a"); ("/dev/sdf", "vol-b")] stop_polls ]}
    (<["vol-a" := mkVol "gp2" false [("i-1", "/dev/sda1")]
                    [mkTag "Name" "root"; mkTag "aws:backup" "daily"]]>
       {[ "vol-b" := mkVol "gp3" true [("i-1", "/dev/sdf")] [] ]})
    ∅ 0.

Definition scenario : world := inventory "t3.micro" 3.

(** [self] as [__init__] leaves it for the scenario. *)
Definition self : EncryptEC2 :=
  mkEncryptEC2 "i-1" "alias/aws/ebs" 5 60 true
    (Some [mkReservation
             [mkInstance [mkMapping "vol-a"; mkMapping "vol-b"]
                "t3.micro" "us-east-1a"]]).

(** The listing of the scenario: [vol-a] only. *)
Definition vol_a : Volume :=
  mkVolume "vol-a" "gp2" false [mkAttachment "/dev/sda1"].

(** The same instance with every volume encrypted. *)
Definition all_encrypted : world :=
  mkWorld
    {[ "i-1" := mkInst "t3.micro" "us-east-1a" [("/dev/sdf", "vol-b")] 3 ]}
    {[ "vol-b" := mkVol "gp3" true [("i-1", "/dev/sdf")] [] ]}
    ∅ 0.

(** A snapshot and a volume that lack the two tags. *)
Definition untagged : world :=
  mkWorld
    {[ "i-1" := mkInst "t3.micro" "us-east-1a" [] 3 ]}
    {[ "vol-x" := mkVol "gp3" true [] [mkTag "Name" "data"] ]}
    {[ "snap-x" := [mkTag "Name" "data"] ]} 0.

End Mock.

(** ** Predicates on computations *)

(** Every request in the trace is of a kind [K] accepts. *)
Definition allowed (K : Call -> bool) (e : Event) : Prop :=
  match e with
  | Req c _ => K c = true
  | Printed _ => True
  end.

Definition only {W A} (K : Call -> bool) (m : M W A) : Prop :=
  forall w, Forall (allowed K) (events_of (m w)).

(** The computation leaves the provider's state as it found it. *)
Definition preserves_world {W A} (m : M W A) : Prop :=
  forall w, world_of (m w) = w.

(** A failed request in the trace is the exception the computation ends with. *)
Definition fails_through {W A} (m : M W A) : Prop :=
  forall w c e, In (Req c (Failed e)) (events_of (m w)) -> result_of (m w) = Raise e.

(** The computation can only end with a [ClientError]. *)
Definition raises_client_errors {W A} (m : M W A) : Prop :=
  forall w e, result_of (m w) = Raise e -> exists err, e = ClientError err.

Definition is_describe (c : Call) : bool :=
  match c with
  | DescribeInstances _ | DescribeVolumes _ => true
  | _ => false
  end.

Definition not_wait_stopped (c : Call) : bool := negb (is_wait_stopped c).

(** The kinds of request each method sends. *)
Definition stop_kinds (c : Call) : bool :=
  match c with
  | StopInstances _ | WaitInstanceStopped _ _ _ => true
  | _ => false
  end.

Definition detach_kinds (c : Call) : bool :=
  match c with
  | DescribeInstances _ | DescribeVolumes _ | CreateTags _ _ | DetachVolume _ _
  | WaitVolumeAvailable _ _ _ => true
  | _ => false
  end.

Definition snapshot_kinds (c : Call) : bool :=
  match c with
  | VolumeTags _ | CreateSnapshot _ _ | WaitSnapshotCompleted _ _ _ => true
  | _ => false
  end.

Definition volume_kinds (c : Call) : bool :=
  match c with
  | SnapshotTags _ | CreateVolume _ _ _ _ _ _ | WaitVolumeAvailable _ _ _ => true
  | _ => false
  end.

Definition attach_kinds (c : Call) : bool :=
  match c with
  | VolumeTags _ | AttachVolume _ _ _ => true
  | _ => false
  end.

Definition start_kinds (c : Call) : bool :=
  match c with
  | StartInstances _ | WaitInstanceStatusOk _ _ _ => true
  | _ => false
  end.

(** What follows the stop in [start_encryption]. *)
Definition after_stop {W : Type} (ec2 : Client.t W) (self : EncryptEC2)
    (volume_ids : list string) (availability_zone : string) : M W unit :=
  bind (detach_volume ec2 self)
    (fun _ =>
       bind (create_snapshots ec2 self volume_ids)
         (fun snapshots =>
            bind (create_volume ec2 self snapshots availability_zone)
              (fun encrypted_volumes =>
                 bind (attach_volume ec2 self encrypted_volumes)
                   (fun _ =>
                      bind (start_instance ec2 self)
                        (fun _ => delete_snapshots ec2 snapshots))))).


(** The stages of a run of [start_encryption] that ended without an
    exception, with the state each stage left and the trace it added. *)
Inductive stages {W : Type} (ec2 : Client.t W) (self : EncryptEC2)
    (w w' : W) (evs : list Event) : Prop :=
| Stages (volumes : list Volume) (availability_zone : string)
    (snapshots encrypted_volumes : list string)
    (w_stop w_detach w_snap w_vol w_att w_start : W)
    (e_list e_stop e_detach e_snap e_vol e_att e_start e_del : list Event) :
    get_ebs_list ec2 self w = Out w e_list (OK volumes) ->
    get_az self w = Out w [] (OK availability_zone) ->
    stop_instance ec2 self w = Out w_stop e_stop (OK tt) ->
    detach_volume ec2 self w_stop = Out w_detach e_detach (OK tt) ->
    create_snapshots ec2 self (map VolumeId volumes) w_detach =
      Out w_snap e_snap (OK snapshots) ->
    create_volume ec2 self snapshots availability_zone w_snap =
      Out w_vol e_vol (OK encrypted_volumes) ->
    attach_volume ec2 self encrypted_volumes w_vol = Out w_att e_att (OK true) ->
    start_instance ec2 self w_att = Out w_start e_start (OK tt) ->
    delete_snapshots ec2 snapshots w_start = Out w' e_del (OK tt) ->
    evs = e_list ++ e_stop ++ e_detach ++ e_snap ++ e_vol ++ e_att ++
          e_start ++ e_del ->
    stages ec2 self w w' evs.



(** ** More vocabulary for traces *)

(** [item['Attachments'][0]['Device']] when there is one. *)
Definition first_device (item : Volume) : string :=
  match Attachments item with
  | a :: _ => Device a
  | [] => EmptyString
  end.

Definition is_create_tags (c : Call) : bool :=
  match c with CreateTags _ _ => true | _ => false end.

(** A wait is for [instance_id] where it names an instance, and has the
    given [Delay] and [MaxAttempts]. *)
Definition configured_wait (instance_id : string) (delay max_attempts : nat)
    (c : Call) : bool :=
  match c with
  | WaitInstanceStopped i d n | WaitInstanceStatusOk i d n =>
      String.eqb i instance_id && Nat.eqb d delay && Nat.eqb n max_attempts
  | WaitVolumeAvailable _ d n | WaitSnapshotCompleted _ d n =>
      Nat.eqb d delay && Nat.eqb n max_attempts
  | _ => true
  end.

(** Every detach request in the trace names [instance_id] and comes
    right after the accepted request that tags the same volume and the
    line printed for it. *)
Definition tagged_before_detach (instance_id : string) (evs : list Event) : Prop :=
  forall pre post i v r,
    evs = pre ++ Req (DetachVolume i v) r :: post ->
    i = instance_id /\
    exists before device_name volume_type,
      pre = before ++
            [Req (CreateTags v [mkTag "device-name" device_name;
                                mkTag "volume-type" volume_type]) Done;
             Printed (LogDetaching v device_name)].

(** A provider that knows no instance and no tag: it answers every
    describe call with an empty list, and the [tags] attribute of every
    resource is [None]. *)
Module Vacant.

Definition ec2 : Client.t unit := {|
  Client.describe_instances := fun _ _ => inr [];
  Client.describe_volumes := fun _ _ => inr [];
  Client.volume_tags := fun _ _ => inr None;
  Client.snapshot_tags := fun _ _ => inr None;
  Client.stop_instances := fun w _ => (w, inr tt);
  Client.create_tags := fun w _ _ => (w, inr tt);
  Client.detach_volume := fun w _ _ => (w, inr tt);
  Client.create_snapshot := fun w _ _ => (w, inr "snap-0");
  Client.create_volume := fun w _ _ _ _ _ _ => (w, inr "vol-0");
  Client.attach_volume := fun w _ _ _ => (w, inr tt);
  Client.start_instances := fun w _ => (w, inr tt);
  Client.delete_snapshot := fun w _ => (w, inr tt);
  Client.wait_instance_stopped := fun w _ _ _ => (w, inr tt);
  Client.wait_volume_available := fun w _ _ _ => (w, inr tt);
  Client.wait_snapshot_completed := fun w _ _ _ => (w, inr tt);
  Client.wait_instance_status_ok := fun w _ _ _ => (w, inr tt)
|}.

End Vacant.

(** Further inventories for the small provider of [Mock]. *)
Module Cases.

(** An object for an instance id the provider rejects as malformed. *)
Definition malformed : EncryptEC2 :=
  mkEncryptEC2 "1-i" "alias/aws/ebs" 5 60 false None.

(** Instance [i-1] lists [vol-d], which reports no attachment. *)
Definition loose : Mock.world :=
  Mock.mkWorld
    {[ "i-1" := Mock.mkInst "t3.micro" "us-east-1a" [("/dev/sdg", "vol-d")] 3 ]}
    {[ "vol-d" := Mock.mkVol "gp3" false [] [] ]}
    ∅ 0.

Definition vol_d : Volume := mkVolume "vol-d" "gp3" false [].

(** Instance [i-1] with two unencrypted volumes, [vol-a] (tagged) and
    [vol-c] (without tags), and the encrypted [vol-b] between them. *)
Definition pair : Mock.world :=
  Mock.mkWorld
    {[ "i-1" := Mock.mkInst "t3.micro" "us-east-1a"
                  [("/dev/sda1", "vol-a"); ("/dev/sdf", "vol-b");
                   ("/dev/sdg", "vol-c")] 3 ]}
    (<["vol-a" := Mock.mkVol "gp2" false [("i-1", "/dev/sda1")]
                    [mkTag "Name" "root"; mkTag "aws:backup" "daily"]]>
       (<["vol-c" := Mock.mkVol "io1" false [("i-1", "/dev/sdg")] []]>
          {[ "vol-b" := Mock.mkVol "gp3" true [("i-1", "/dev/sdf")] [] ]}))
    ∅ 0.

(** [self] as [__init__] leaves it for [pair]. *)
Definition pair_self : EncryptEC2 :=
  mkEncryptEC2 "i-1" "alias/aws/ebs" 5 60 true
    (Some [mkReservation
             [mkInstance [mkMapping "vol-a"; mkMapping "vol-b"; mkMapping "vol-c"]
                "t3.micro" "us-east-1a"]]).

Definition vol_c : Volume :=
  mkVolume "vol-c" "io1" false [mkAttachment "/dev/sdg"].

(** A snapshot and a volume without any tag, [snap-n] and [vol-n],
    beside a snapshot and a volume that carry the tag read from them. *)
Definition bare : Mock.world :=
  Mock.mkWorld
    {[ "i-1" := Mock.mkInst "t3.micro" "us-east-1a" [] 3 ]}
    (<["vol-t" := Mock.mkVol "gp3" true [] [mkTag "device-name" "/dev/sdh"]]>
       {[ "vol-n" := Mock.mkVol "gp3" true [] [] ]})
    (<["snap-t" := [mkTag "volume-type" "gp3"]]> {[ "snap-n" := [] ]}) 0.

Definition vol_b : Volume :=
  mkVolume "vol-b" "gp3" true [mkAttachment "/dev/sdf"].

Definition reservation : Reservation :=
  mkReservation
    [mkInstance [mkMapping "vol-a"; mkMapping "vol-b"] "t3.micro" "us-east-1a"].

End Cases.

(** * Properties *)

(** ** The monad *)

Section MonadFacts.
Context {W : Type}.

Lemma bind_OK {A B} (m : M W A) (f : A -> M W B) w w1 e1 a :
  m w = Out w1 e1 (OK a) ->
  bind m f w =
    Out (world_of (f a w1)) (e1 ++ events_of (f a w1)) (result_of (f a w1)).
Proof. intros E. unfold bind. rewrite E. now destruct (f a w1). Qed.

Lemma bind_Raise {A B} (m : M W A) (f : A -> M W B) w w1 e1 e :
  m w = Out w1 e1 (Raise e) -> bind m f w = Out w1 e1 (Raise e).
Proof. intros E. unfold bind. now rewrite E. Qed.

Lemma bind_OK_inv {A B} (m : M W A) (f : A -> M W B) w w' evs b :
  bind m f w = Out w' evs (OK b) ->
  exists w1 e1 a e2,
    m w = Out w1 e1 (OK a) /\ f a w1 = Out w' e2 (OK b) /\ evs = e1 ++ e2.
Proof.
  unfold bind. destruct (m w) as [w1 e1 [a|e]]; [|discriminate].
  destruct (f a w1) as [w2 e2 r] eqn:E. intros [= -> <- ->].
  now exists w1, e1, a, e2.
Qed.

Lemma for_each_cons_inv {A B} (f : A -> M W B) x xs w w' evs ys :
  for_each f (x :: xs) w = Out w' evs (OK ys) ->
  exists w1 e1 y e2 ys',
    f x w = Out w1 e1 (OK y) /\ for_each f xs w1 = Out w' e2 (OK ys') /\
    evs = e1 ++ e2 /\ ys = y :: ys'.
Proof.
  simpl. intros H.
  apply bind_OK_inv in H as (w1 & e1 & y & e2 & Hf & H & ->).
  apply bind_OK_inv in H as (w2 & e3 & ys' & e4 & Hr & H & ->).
  unfold ret in H. injection H as <- <- <-.
  exists w1, e1, y, e3, ys'. now rewrite app_nil_r.
Qed.

Lemma for_each_nil_inv {A B} (f : A -> M W B) w w' evs ys :
  for_each f [] w = Out w' evs (OK ys) -> w' = w /\ evs = [] /\ ys = [].
Proof. simpl. unfold ret. now intros [= -> <- <-]. Qed.

Lemma for_each_length {A B} (f : A -> M W B) xs :
  forall w w' evs ys,
    for_each f xs w = Out w' evs (OK ys) -> length ys = length xs.
Proof.
  induction xs as [|x xs IH]; intros w w' evs ys H.
  - now apply for_each_nil_inv in H as (_ & _ & ->).
  - apply for_each_cons_inv in H as (w1 & e1 & y & e2 & ys' & _ & H & _ & ->).
    simpl. f_equal. eauto.
Qed.

(** *** [only] *)

Lemma only_ret {A} K (a : A) : only K (@ret W A a).
Proof. intros w. constructor. Qed.

Lemma only_raise {A} K e : only K (@raise W A e).
Proof. intros w. constructor. Qed.

Lemma only_print K l : only K (@print W l).
Proof. intros w. repeat constructor. Qed.

Lemma only_index0 {A} K (l : list A) : only K (@index0 W A l).
Proof. destruct l; [apply only_raise | apply only_ret]. Qed.

Lemma only_iterate {A} K (o : option (list A)) : only K (@iterate W A o).
Proof. destruct o; [apply only_ret | apply only_raise]. Qed.

Lemma only_bind {A B} K (m : M W A) (f : A -> M W B) :
  only K m -> (forall a, only K (f a)) -> only K (bind m f).
Proof.
  intros Hm Hf w. unfold bind. specialize (Hm w).
  destruct (m w) as [w1 e1 [a|e]]; simpl in *; [|assumption].
  specialize (Hf a w1). destruct (f a w1) as [w2 e2 r]. simpl in *.
  apply Forall_app; auto.
Qed.

Lemma only_try_except {A} K (m : M W A) h :
  only K m -> (forall e, only K (h e)) -> only K (try_except m h).
Proof.
  intros Hm Hh w. unfold try_except. specialize (Hm w).
  destruct (m w) as [w1 e1 [a|e]]; simpl in *; [assumption|].
  specialize (Hh e w1). destruct (h e w1) as [w2 e2 r]. simpl in *.
  apply Forall_app; auto.
Qed.

Lemma only_for_each {A B} K (f : A -> M W B) l :
  (forall x, only K (f x)) -> only K (for_each f l).
Proof.
  intros Hf. induction l as [|x xs IH]; simpl.
  - apply only_ret.
  - apply only_bind; [apply Hf|]. intros y.
    apply only_bind; [apply IH|]. intros ys. apply only_ret.
Qed.

Lemma only_read {A} K c (r : W -> ErrorInfo + A) :
  K c = true -> only K (fun w => read c (r w) w).
Proof. intros HK w. unfold read. destruct (r w); repeat constructor; exact HK. Qed.

Lemma only_request {A} K c (op : W -> W * (ErrorInfo + A)) reply :
  K c = true -> only K (request c op reply).
Proof.
  intros HK w. unfold request. destruct (op w) as [w' [err|a]];
    repeat constructor; exact HK.
Qed.

Lemma only_wait K c (op : W -> W * (string + unit)) :
  K c = true -> only K (wait c op).
Proof.
  intros HK w. unfold wait. destruct (op w) as [w' [reason|u]];
    repeat constructor; exact HK.
Qed.

Lemma only_if {A} K (b : bool) (m1 m2 : M W A) :
  only K m1 -> only K m2 -> only K (if b then m1 else m2).
Proof. now destruct b. Qed.

Lemma only_weaken {A} (K K' : Call -> bool) (m : M W A) :
  (forall c, K c = true -> K' c = true) -> only K m -> only K' m.
Proof.
  intros HK Hm w. eapply List.Forall_impl; [|apply Hm].
  intros [c r|l]; simpl; auto.
Qed.

End MonadFacts.

Create HintDb trace.
#[export] Hint Resolve only_ret only_raise only_print only_index0 only_bind
  only_try_except only_for_each only_request only_wait only_if : trace.

Section MonadReads.
Context {W : Type}.

(** *** [preserves_world] *)

Lemma preserves_ret {A} (a : A) : preserves_world (@ret W A a).
Proof. now intros w. Qed.

Lemma preserves_raise {A} e : preserves_world (@raise W A e).
Proof. now intros w. Qed.

Lemma preserves_print l : preserves_world (@print W l).
Proof. now intros w. Qed.

Lemma preserves_index0 {A} (l : list A) : preserves_world (@index0 W A l).
Proof. now destruct l. Qed.

Lemma preserves_read {A} c (r : W -> ErrorInfo + A) :
  preserves_world (fun w => read c (r w) w).
Proof. intros w. unfold read. now destruct (r w). Qed.

Lemma preserves_bind {A B} (m : M W A) (f : A -> M W B) :
  preserves_world m -> (forall a, preserves_world (f a)) ->
  preserves_world (bind m f).
Proof.
  intros Hm Hf w. unfold bind. specialize (Hm w).
  destruct (m w) as [w1 e1 [a|e]]; simpl in *; [|assumption].
  specialize (Hf a w1). destruct (f a w1) as [w2 e2 r]. simpl in *. congruence.
Qed.

Lemma preserves_try_except {A} (m : M W A) h :
  preserves_world m -> (forall e, preserves_world (h e)) ->
  preserves_world (try_except m h).
Proof.
  intros Hm Hh w. unfold try_except. specialize (Hm w).
  destruct (m w) as [w1 e1 [a|e]]; simpl in *; [assumption|].
  specialize (Hh e w1). destruct (h e w1) as [w2 e2 r]. simpl in *. congruence.
Qed.

Lemma preserves_for_each {A B} (f : A -> M W B) l :
  (forall x, preserves_world (f x)) -> preserves_world (for_each f l).
Proof.
  intros Hf. induction l as [|x xs IH]; simpl.
  - apply preserves_ret.
  - apply preserves_bind; [apply Hf|]. intros y.
    apply preserves_bind; [apply IH|]. intros ys. apply preserves_ret.
Qed.

Lemma preserves_if {A} (b : bool) (m1 m2 : M W A) :
  preserves_world m1 -> preserves_world m2 ->
  preserves_world (if b then m1 else m2).
Proof. now destruct b. Qed.

(** *** [fails_through] *)

Lemma fails_through_ret {A} (a : A) : fails_through (@ret W A a).
Proof. intros w c e []. Qed.

Lemma fails_through_raise {A} e : fails_through (@raise W A e).
Proof. intros w c e' []. Qed.

Lemma fails_through_print l : fails_through (@print W l).
Proof. intros w c e [H|[]]. discriminate. Qed.

Lemma fails_through_index0 {A} (l : list A) : fails_through (@index0 W A l).
Proof. destruct l; [apply fails_through_raise | apply fails_through_ret]. Qed.

Lemma fails_through_read {A} c (r : W -> ErrorInfo + A) :
  fails_through (fun w => read c (r w) w).
Proof.
  intros w c' e. unfold read. destruct (r w); simpl; intros [H|[]]; congruence.
Qed.

Lemma fails_through_bind {A B} (m : M W A) (f : A -> M W B) :
  fails_through m -> (forall a, fails_through (f a)) -> fails_through (bind m f).
Proof.
  intros Hm Hf w c e. unfold bind. specialize (Hm w c e).
  destruct (m w) as [w1 e1 [a|e0]]; simpl in *.
  - specialize (Hf a w1 c e). destruct (f a w1) as [w2 e2 r]. simpl in *.
    intros [H|H]%in_app_or; [|auto]. now apply Hm in H.
  - intros H. apply Hm in H. now injection H as ->.
Qed.

Lemma fails_through_for_each {A B} (f : A -> M W B) l :
  (forall x, fails_through (f x)) -> fails_through (for_each f l).
Proof.
  intros Hf. induction l as [|x xs IH]; simpl.
  - apply fails_through_ret.
  - apply fails_through_bind; [apply Hf|]. intros y.
    apply fails_through_bind; [apply IH|]. intros ys. apply fails_through_ret.
Qed.

Lemma fails_through_if {A} (b : bool) (m1 m2 : M W A) :
  fails_through m1 -> fails_through m2 -> fails_through (if b then m1 else m2).
Proof. now destruct b. Qed.

(** *** [raises_client_errors] *)

Lemma client_errors_ret {A} (a : A) : raises_client_errors (@ret W A a).
Proof. intros w e. discriminate. Qed.

Lemma client_errors_read {A} c (r : W -> ErrorInfo + A) :
  raises_client_errors (fun w => read c (r w) w).
Proof.
  intros w e. unfold read. destruct (r w) as [err|a]; simpl; [|discriminate].
  intros [= <-]. now exists err.
Qed.

Lemma client_errors_bind {A B} (m : M W A) (f : A -> M W B) :
  raises_client_errors m -> (forall a, raises_client_errors (f a)) ->
  raises_client_errors (bind m f).
Proof.
  intros Hm Hf w e. unfold bind. specialize (Hm w e).
  destruct (m w) as [w1 e1 [a|e0]]; simpl in *.
  - specialize (Hf a w1 e). now destruct (f a w1) as [w2 e2 r].
  - intros [= <-]. now apply Hm.
Qed.

Lemma client_errors_for_each {A B} (f : A -> M W B) l :
  (forall x, raises_client_errors (f x)) -> raises_client_errors (for_each f l).
Proof.
  intros Hf. induction l as [|x xs IH]; simpl.
  - apply client_errors_ret.
  - apply client_errors_bind; [apply Hf|]. intros y.
    apply client_errors_bind; [apply IH|]. intros ys. apply client_errors_ret.
Qed.

End MonadReads.

#[export] Hint Resolve preserves_ret preserves_raise preserves_print
  preserves_index0 preserves_bind preserves_try_except preserves_for_each
  preserves_if : trace.
#[export] Hint Resolve fails_through_ret fails_through_raise fails_through_print
  fails_through_index0 fails_through_bind fails_through_for_each
  fails_through_if : trace.
#[export] Hint Resolve client_errors_ret client_errors_bind
  client_errors_for_each : trace.

(** ** Traces *)

Lemma calls_app (e1 e2 : list Event) : calls (e1 ++ e2) = calls e1 ++ calls e2.
Proof. unfold calls. apply flat_map_app. Qed.

Lemma count_app K (e1 e2 : list Event) : count K (e1 ++ e2) = count K e1 + count K e2.
Proof. unfold count. now rewrite calls_app, List.filter_app, length_app. Qed.

Lemma created_snapshots_app (e1 e2 : list Event) :
  created_snapshots (e1 ++ e2) = created_snapshots e1 ++ created_snapshots e2.
Proof. unfold created_snapshots. apply flat_map_app. Qed.

Lemma created_volumes_app (e1 e2 : list Event) :
  created_volumes (e1 ++ e2) = created_volumes e1 ++ created_volumes e2.
Proof. unfold created_volumes. apply flat_map_app. Qed.

Lemma attached_app (e1 e2 : list Event) :
  attached (e1 ++ e2) = attached e1 ++ attached e2.
Proof. unfold attached. apply flat_map_app. Qed.

Lemma deleted_snapshots_app (e1 e2 : list Event) :
  deleted_snapshots (e1 ++ e2) = deleted_snapshots e1 ++ deleted_snapshots e2.
Proof. unfold deleted_snapshots. apply flat_map_app. Qed.

Lemma mutating_calls_app (e1 e2 : list Event) :
  mutating_calls (e1 ++ e2) = mutating_calls e1 ++ mutating_calls e2.
Proof. unfold mutating_calls. now rewrite calls_app, List.filter_app. Qed.

(** A trace of requests outside [K] has no request of kind [K]. *)
Lemma allowed_count_0 (K K' : Call -> bool) (evs : list Event) :
  (forall c, K' c = true -> K c = false) ->
  Forall (allowed K') evs -> count K evs = 0.
Proof.
  intros Hd. induction 1 as [|e evs He _ IH]; [reflexivity|].
  change (e :: evs) with ([e] ++ evs). rewrite count_app, IH.
  destruct e as [c r|l]; [|reflexivity].
  unfold count. simpl. now rewrite (Hd c He).
Qed.

Lemma allowed_no_mutation (K : Call -> bool) (evs : list Event) :
  (forall c, K c = true -> mutating c = false) ->
  Forall (allowed K) evs -> mutating_calls evs = [].
Proof.
  intros Hd. induction 1 as [|e evs He _ IH]; [reflexivity|].
  change (e :: evs) with ([e] ++ evs). rewrite mutating_calls_app, IH.
  destruct e as [c r|l]; [|reflexivity].
  unfold mutating_calls. simpl. now rewrite (Hd c He).
Qed.

Lemma is_describe_not_mutating c : is_describe c = true -> mutating c = false.
Proof. now destruct c. Qed.

(** ** The methods that only read *)

Section ReadingMethods.
Context {W : Type} (ec2 : Client.t W).

Lemma describe_instances_only K id :
  K (DescribeInstances id) = true -> only K (describe_instances ec2 id).
Proof. apply only_read. Qed.

Lemma describe_volumes_only K v :
  K (DescribeVolumes v) = true -> only K (describe_volumes ec2 v).
Proof. apply only_read. Qed.

Lemma volume_resource_tags_only K v :
  K (VolumeTags v) = true -> only K (volume_resource_tags ec2 v).
Proof. apply only_read. Qed.

Lemma snapshot_resource_tags_only K s :
  K (SnapshotTags s) = true -> only K (snapshot_resource_tags ec2 s).
Proof. apply only_read. Qed.

Lemma first_instance_only K l : only K (@first_instance W l).
Proof. unfold first_instance. auto with trace. Qed.

Lemma get_ebs_list_only K self :
  (forall c, is_describe c = true -> K c = true) -> only K (get_ebs_list ec2 self).
Proof.
  intros HK. unfold get_ebs_list.
  apply only_bind; [apply describe_instances_only; now apply HK|]. intros resp.
  apply only_bind; [apply first_instance_only|]. intros inst.
  apply only_bind; [|auto with trace].
  apply only_for_each. intros ebs.
  apply only_bind; [apply describe_volumes_only; now apply HK|]. auto with trace.
Qed.

Lemma pre_checks_only K self :
  (forall c, is_describe c = true -> K c = true) -> only K (pre_checks ec2 self).
Proof.
  intros HK. unfold pre_checks.
  apply only_bind; [apply only_print|]. intros _.
  apply only_try_except.
  - apply only_bind; [now apply get_ebs_list_only|]. intros [|v vs].
    + auto with trace.
    + apply only_bind; [apply describe_instances_only; now apply HK|]. intros resp.
      apply only_bind; [apply first_instance_only|]. intros inst.
      auto with trace.
  - intros [err| | | |]; auto with trace.
Qed.

Lemma init_only K iid k :
  (forall c, is_describe c = true -> K c = true) -> only K (__init__ ec2 iid k).
Proof.
  intros HK. unfold __init__.
  apply only_bind; [now apply pre_checks_only|]. intros checked.
  apply only_if; [|apply only_ret].
  apply only_bind; [apply only_print|]. intros _.
  apply only_bind; [apply describe_instances_only; now apply HK|].
  auto with trace.
Qed.

Lemma first_instance_preserves l : preserves_world (@first_instance W l).
Proof. unfold first_instance. auto with trace. Qed.

Lemma get_ebs_list_preserves self : preserves_world (get_ebs_list ec2 self).
Proof.
  unfold get_ebs_list.
  apply preserves_bind; [apply preserves_read|]. intros resp.
  apply preserves_bind; [apply first_instance_preserves|]. intros inst.
  apply preserves_bind; [|auto with trace].
  apply preserves_for_each. intros ebs.
  apply preserves_bind; [apply preserves_read|]. auto with trace.
Qed.

Lemma pre_checks_preserves self : preserves_world (pre_checks ec2 self).
Proof.
  unfold pre_checks.
  apply preserves_bind; [apply preserves_print|]. intros _.
  apply preserves_try_except.
  - apply preserves_bind; [apply get_ebs_list_preserves|]. intros [|v vs].
    + auto with trace.
    + apply preserves_bind; [apply preserves_read|]. intros resp.
      apply preserves_bind; [apply first_instance_preserves|]. intros inst.
      auto with trace.
  - intros [err| | | |]; auto with trace.
Qed.

Lemma init_preserves iid k : preserves_world (__init__ ec2 iid k).
Proof.
  unfold __init__.
  apply preserves_bind; [apply pre_checks_preserves|]. intros checked.
  apply preserves_if; [|apply preserves_ret].
  apply preserves_bind; [apply preserves_print|]. intros _.
  apply preserves_bind; [apply preserves_read|]. auto with trace.
Qed.

Lemma first_instance_fails_through l : fails_through (@first_instance W l).
Proof. unfold first_instance. auto with trace. Qed.

Lemma get_ebs_list_fails_through self : fails_through (get_ebs_list ec2 self).
Proof.
  unfold get_ebs_list.
  apply fails_through_bind; [apply fails_through_read|]. intros resp.
  apply fails_through_bind; [apply first_instance_fails_through|]. intros inst.
  apply fails_through_bind; [|auto with trace].
  apply fails_through_for_each. intros ebs.
  apply fails_through_bind; [apply fails_through_read|]. auto with trace.
Qed.

(** [get_ebs_list] and [pre_checks] read [self.instance_id] only. *)
Lemma get_ebs_list_ext self self' :
  instance_id self = instance_id self' ->
  get_ebs_list ec2 self = get_ebs_list ec2 self'.
Proof. unfold get_ebs_list. now intros ->. Qed.

Lemma pre_checks_ext self self' :
  instance_id self = instance_id self' ->
  pre_checks ec2 self = pre_checks ec2 self'.
Proof.
  intros H. unfold pre_checks. rewrite (get_ebs_list_ext _ _ H). now rewrite H.
Qed.

(** When the pre-checks do not pass, the script sends what the
    pre-checks sent and stops. *)
Lemma main_skips self w iid k checked :
  instance_id self = iid ->
  result_of (pre_checks ec2 self w) = OK checked ->
  truthy checked = false ->
  result_of (main ec2 iid k w) = OK tt /\
  events_of (main ec2 iid k w) = events_of (pre_checks ec2 self w) /\
  world_of (main ec2 iid k w) = w.
Proof.
  intros Hid Hr Ht.
  pose proof (pre_checks_preserves self w) as Hw.
  rewrite (pre_checks_ext self (mkEncryptEC2 iid k 5 60 false None)) in * by exact Hid.
  unfold main, __init__, bind.
  destruct (pre_checks _ _ w) as [w1 e1 [c|e]]; simpl in *; [|discriminate].
  injection Hr as ->. rewrite Ht. simpl. now rewrite !app_nil_r.
Qed.

End ReadingMethods.

(** ** The pre-checks *)

Section PreChecks.
Context {W : Type} (ec2 : Client.t W).

(** The body of the [try] in [pre_checks]. *)
Lemma pre_checks_unfold self w :
  pre_checks ec2 self w =
    bind (print LogPerformingPreChecks)
      (fun _ =>
         try_except
           (bind (get_ebs_list ec2 self)
              (fun volumes =>
                 match volumes with
                 | [] => bind (print LogAllEncrypted) (fun _ => ret (Some false))
                 | _ :: _ =>
                     bind (describe_instances ec2 (instance_id self))
                       (fun resp =>
                          bind (first_instance resp)
                            (fun inst =>
                               if unsupported_type (InstanceType inst)
                               then bind (print (LogTypeNotSupported (InstanceType inst)))
                                      (fun _ => ret (Some false))
                               else ret (Some true)))
                 end))
           (fun e =>
              match e with
              | ClientError err =>
                  if String.eqb (Code err) "InvalidInstanceID.Malformed"
                  then bind (print (LogInstanceNotFound (instance_id self)))
                         (fun _ => ret (Some false))
                  else bind (print (LogError err)) (fun _ => ret None)
              | _ => raise e
              end)) w.
Proof. reflexivity. Qed.

Lemma pre_checks_no_mutation self w :
  mutating_calls (events_of (pre_checks ec2 self w)) = [].
Proof.
  apply (allowed_no_mutation is_describe); [apply is_describe_not_mutating|].
  now apply pre_checks_only.
Qed.

(** C4. When the listing of unencrypted volumes is empty, [pre_checks]
    returns [False], and the script ends without having sent a stop,
    create-tags, detach, create-snapshot, create-volume, attach, start
    or delete request; the provider's state is as it was. *)
Theorem all_encrypted_skips (self : EncryptEC2) (w : W) (k : string) :
  result_of (get_ebs_list ec2 self w) = OK [] ->
  result_of (pre_checks ec2 self w) = OK (Some false) /\
  result_of (main ec2 (instance_id self) k w) = OK tt /\
  mutating_calls (events_of (main ec2 (instance_id self) k w)) = [] /\
  world_of (main ec2 (instance_id self) k w) = w.
Proof.
  intros Hlist.
  assert (Hpre : result_of (pre_checks ec2 self w) = OK (Some false)).
  { rewrite pre_checks_unfold. unfold bind at 1, print at 1, try_except, bind at 1.
    destruct (get_ebs_list ec2 self w) as [w1 e1 [vols|e]]; simpl in Hlist;
      [|discriminate].
    injection Hlist as ->. reflexivity. }
  destruct (main_skips ec2 self w (instance_id self) k (Some false))
    as (Hr & He & Hw); auto.
  repeat split; auto.
  rewrite He. apply pre_checks_no_mutation.
Qed.

(** C5. When the instance type starts with [c1], [m1], [m2] or [t1],
    [pre_checks] returns a false value whatever the volumes are (also
    when describing one of them fails), and the script sends no
    mutating request. *)
Theorem legacy_type_skips (self : EncryptEC2) (w : W) (k : string)
    (r : Reservation) (rs : list Reservation) (inst : Instance)
    (insts : list Instance) :
  Client.describe_instances ec2 w (instance_id self) = inr (r :: rs) ->
  Instances r = inst :: insts ->
  unsupported_type (InstanceType inst) = true ->
  (exists checked,
      result_of (pre_checks ec2 self w) = OK checked /\ truthy checked = false) /\
  result_of (main ec2 (instance_id self) k w) = OK tt /\
  mutating_calls (events_of (main ec2 (instance_id self) k w)) = [].
Proof.
  intros Hdesc Hinst Hty.
  assert (Hpre : exists checked,
             result_of (pre_checks ec2 self w) = OK checked /\ truthy checked = false).
  { rewrite pre_checks_unfold.
    unfold bind at 1, print at 1, try_except, bind at 1.
    unfold get_ebs_list, bind at 1, describe_instances at 1, read at 1.
    rewrite Hdesc. unfold bind at 1, first_instance at 1, bind at 1. simpl index0 at 1.
    unfold ret at 1. rewrite Hinst. simpl index0 at 1. unfold ret at 1.
    unfold bind at 1.
    set (scan := for_each _ (BlockDeviceMappings inst)).
    assert (Hscan_w : world_of (scan w) = w).
    { apply preserves_for_each. intros ebs.
      apply preserves_bind; [apply preserves_read|]. auto with trace. }
    assert (Hscan_e : forall e, result_of (scan w) = Raise e ->
                                exists err, e = ClientError err).
    { apply client_errors_for_each. intros ebs.
      apply client_errors_bind; [apply client_errors_read|]. auto with trace. }
    destruct (scan w) as [w1 e1 [found|e]]; simpl in Hscan_w; subst w1.
    - unfold ret at 1. destruct (concat found) as [|v vs].
      + now exists (Some false).
      + unfold bind at 1, describe_instances, read. rewrite Hdesc.
        unfold bind at 1, first_instance, bind at 1. simpl index0 at 1.
        unfold ret at 1. rewrite Hinst. simpl index0. unfold ret at 1.
        rewrite Hty. now exists (Some false).
    - destruct (Hscan_e e eq_refl) as [err ->].
      destruct (String.eqb (Code err) "InvalidInstanceID.Malformed").
      + now exists (Some false).
      + now exists None. }
  split; [exact Hpre|].
  destruct Hpre as (checked & Hr & Ht).
  destruct (main_skips ec2 self w (instance_id self) k checked)
    as (Hr' & He & Hw); auto.
  split; [exact Hr'|]. rewrite He. apply pre_checks_no_mutation.
Qed.

Lemma pre_checks_body_fails_through self :
  fails_through
    (bind (get_ebs_list ec2 self)
       (fun volumes =>
          match volumes with
          | [] => bind (print LogAllEncrypted) (fun _ => ret (Some false))
          | _ :: _ =>
              bind (describe_instances ec2 (instance_id self))
                (fun resp =>
                   bind (first_instance resp)
                     (fun inst =>
                        if unsupported_type (InstanceType inst)
                        then bind (print (LogTypeNotSupported (InstanceType inst)))
                               (fun _ => ret (Some false))
                        else ret (Some true)))
          end)).
Proof.
  apply fails_through_bind; [apply get_ebs_list_fails_through|]. intros [|v vs].
  - auto with trace.
  - apply fails_through_bind; [apply fails_through_read|]. intros resp.
    apply fails_through_bind; [apply first_instance_fails_through|]. intros inst.
    auto with trace.
Qed.

(** C7. A [ClientError] raised inside the [try] of [pre_checks] whose
    code is not [InvalidInstanceID.Malformed] is printed; [pre_checks]
    then ends without a [return], that is with [None]; the constructor
    takes the else branch and sets [_pre_checks_passed] to [False]; the
    exception does not leave [pre_checks] and the script sends no
    mutating request. *)
Theorem unexpected_client_error_is_swallowed (self : EncryptEC2) (w : W)
    (k : string) (c : Call) (err : ErrorInfo) :
  In (Req c (Failed (ClientError err))) (events_of (pre_checks ec2 self w)) ->
  Code err <> "InvalidInstanceID.Malformed" ->
  result_of (pre_checks ec2 self w) = OK None /\
  In (Printed (LogError err)) (events_of (pre_checks ec2 self w)) /\
  (exists self',
      result_of (__init__ ec2 (instance_id self) k w) = OK self' /\
      _pre_checks_passed self' = false) /\
  result_of (main ec2 (instance_id self) k w) = OK tt /\
  mutating_calls (events_of (main ec2 (instance_id self) k w)) = [].
Proof.
  intros Hin Hcode.
  assert (Hpre : result_of (pre_checks ec2 self w) = OK None /\
                 In (Printed (LogError err)) (events_of (pre_checks ec2 self w))).
  { revert Hin. remember (pre_checks ec2 self w) as o eqn:Ho.
    rewrite pre_checks_unfold in Ho.
    unfold bind at 1, print at 1, try_except in Ho.
    pose proof (pre_checks_body_fails_through self w) as Hbody.
    match type of Hbody with
    | context [events_of (?b w)] => destruct (b w) as [w1 e1 [checked|e]]
    end; simpl in Hbody.
    - subst o. simpl. intros [H|H]; [discriminate|]. now apply Hbody in H.
    - assert (Hraised : In (Req c (Failed (ClientError err))) e1 ->
                        e = ClientError err).
      { intros H. apply Hbody in H. now injection H. }
      destruct e as [err'| | | |];
        try (subst o; simpl; intros [H|H]; [discriminate|];
             rewrite app_nil_r in H; now apply Hraised in H).
      destruct (String.eqb (Code err') "InvalidInstanceID.Malformed") eqn:E;
        subst o; simpl.
      + intros [H|H]; [discriminate|].
        apply in_app_or in H as [H|[H|[]]]; [|discriminate].
        apply Hraised in H. injection H as ->.
        apply String.eqb_eq in E. contradiction.
      + intros [H|H]; [discriminate|].
        apply in_app_or in H as [H|[H|[]]]; [|discriminate].
        apply Hraised in H. injection H as ->.
        split; [reflexivity|]. right. apply in_or_app. right. now left. }
  destruct Hpre as (Hr & Hlog).
  destruct (main_skips ec2 self w (instance_id self) k None)
    as (Hr' & He & Hw); auto.
  repeat split; auto.
  - rewrite (pre_checks_ext ec2 self
               (mkEncryptEC2 (instance_id self) k 5 60 false None)) in Hr
      by reflexivity.
    unfold __init__, bind.
    destruct (pre_checks _ _ w) as [w1 e1 [checked|e]]; simpl in Hr; [|discriminate].
    injection Hr as ->. simpl. eexists. split; reflexivity.
  - rewrite He. apply pre_checks_no_mutation.
Qed.

(** C8. [get_ebs_list] leaves the provider's state as it found it, so a
    second call right after the first is the same computation on the
    same state: same trace, same result (the same list of volumes, or
    the same exception). The calls it sends are describe calls. *)
Theorem get_ebs_list_twice (self : EncryptEC2) (w : W) :
  world_of (get_ebs_list ec2 self w) = w /\
  get_ebs_list ec2 self (world_of (get_ebs_list ec2 self w)) =
    get_ebs_list ec2 self w /\
  result_of
    (bind (get_ebs_list ec2 self)
       (fun first =>
          bind (get_ebs_list ec2 self) (fun second => ret (first, second))) w) =
    match result_of (get_ebs_list ec2 self w) with
    | OK volumes => OK (volumes, volumes)
    | Raise e => Raise e
    end /\
  mutating_calls (events_of (get_ebs_list ec2 self w)) = [].
Proof.
  pose proof (get_ebs_list_preserves ec2 self w) as Hw.
  split; [exact Hw|]. split; [now rewrite Hw|]. split.
  - unfold bind.
    destruct (get_ebs_list ec2 self w) as [w1 e1 [vols|e]] eqn:E; simpl in *;
      [|reflexivity].
    subst w1. now rewrite E.
  - apply (allowed_no_mutation is_describe); [apply is_describe_not_mutating|].
    now apply get_ebs_list_only.
Qed.

End PreChecks.

(** ** The methods that change things *)

Ltac only_step :=
  first
    [ apply only_ret | apply only_raise | apply only_print | apply only_index0
    | apply only_iterate
    | apply only_request; reflexivity | apply only_wait; reflexivity
    | apply only_read; reflexivity
    | apply only_for_each; intros ?
    | apply only_bind; [|intros ?] ].

Section Inversion.
Context {W : Type}.

Lemma request_OK_inv {A} c (op : W -> W * (ErrorInfo + A)) reply w w' evs a :
  request c op reply w = Out w' evs (OK a) ->
  op w = (w', inr a) /\ evs = [Req c (reply a)].
Proof.
  unfold request. destruct (op w) as [w1 [err|a1]]; [discriminate|].
  now intros [= -> <- ->].
Qed.

Lemma wait_OK_inv c (op : W -> W * (string + unit)) w w' evs u :
  wait c op w = Out w' evs (OK u) -> op w = (w', inr tt) /\ evs = [Req c Done].
Proof.
  unfold wait. destruct (op w) as [w1 [reason|[]]]; [discriminate|].
  now intros [= -> <-].
Qed.

Lemma read_OK_inv {A} c (r : ErrorInfo + A) (w w' : W) evs a :
  read c r w = Out w' evs (OK a) -> r = inr a /\ w' = w /\ evs = [Req c Done].
Proof. unfold read. destruct r; [discriminate|]. now intros [= -> <- ->]. Qed.

Lemma print_inv l (w w' : W) evs u :
  print l w = Out w' evs (OK u) -> w' = w /\ evs = [Printed l].
Proof. unfold print. now intros [= -> <-]. Qed.

Lemma ret_inv {A} (a b : A) (w w' : W) evs :
  ret a w = Out w' evs (OK b) -> w' = w /\ evs = [] /\ b = a.
Proof. unfold ret. now intros [= -> <- ->]. Qed.

Lemma index0_OK_inv {A} (l : list A) (w w' : W) evs a :
  index0 l w = Out w' evs (OK a) ->
  (exists rest, l = a :: rest) /\ w' = w /\ evs = [].
Proof.
  destruct l as [|x rest]; [discriminate|]. simpl. unfold ret.
  intros [= -> <- ->]. eauto.
Qed.

Lemma iterate_OK_inv {A} (o : option (list A)) (w w' : W) evs l :
  iterate o w = Out w' evs (OK l) -> o = Some l /\ w' = w /\ evs = [].
Proof.
  destruct o as [l'|]; [|discriminate]. simpl. unfold ret.
  now intros [= -> <- ->].
Qed.

End Inversion.

Ltac inv_prim H :=
  first
    [ apply request_OK_inv in H as [H ?]
    | apply wait_OK_inv in H as [H ?]
    | apply read_OK_inv in H as (H & ? & ?)
    | apply print_inv in H as [? ?]
    | apply ret_inv in H as (? & ? & ?)
    | apply index0_OK_inv in H as ([? H] & ? & ?)
    | apply iterate_OK_inv in H as (H & ? & ?)
    | idtac ].

(** Take a run that went through apart, one [bind] at a time. *)
Ltac inv_run H :=
  match type of H with
  | bind _ _ _ = Out _ _ (OK _) =>
      let Hm := fresh "Hm" in
      apply bind_OK_inv in H as (? & ? & ? & ? & Hm & H & ?);
      cbv beta in Hm; inv_run Hm; inv_run H
  | _ => inv_prim H; subst
  end.

Section Methods.
Context {W : Type} (ec2 : Client.t W).

Lemma stop_instance_only self : only stop_kinds (stop_instance ec2 self).
Proof. unfold stop_instance. repeat only_step. Qed.

Lemma detach_one_only self item : only detach_kinds (detach_one ec2 self item).
Proof. unfold detach_one. repeat only_step. Qed.

Lemma detach_volume_only self : only detach_kinds (detach_volume ec2 self).
Proof.
  unfold detach_volume. apply only_bind.
  - apply get_ebs_list_only. now intros [].
  - intros volumes. apply only_bind; [|intros; apply only_ret].
    apply only_for_each. intros item. apply detach_one_only.
Qed.

Lemma snapshot_one_only self v : only snapshot_kinds (snapshot_one ec2 self v).
Proof.
  unfold snapshot_one, volume_resource_tags.
  apply only_bind; [now apply only_read|]. intros tags. repeat only_step.
Qed.

Lemma create_snapshots_only self vs : only snapshot_kinds (create_snapshots ec2 self vs).
Proof. apply only_for_each. intros v. apply snapshot_one_only. Qed.

Lemma volume_one_only self az s : only volume_kinds (volume_one ec2 self az s).
Proof.
  unfold volume_one, snapshot_resource_tags.
  apply only_bind; [now apply only_read|]. intros tags. repeat only_step.
Qed.

Lemma create_volume_only self ss az : only volume_kinds (create_volume ec2 self ss az).
Proof.
  unfold create_volume. apply only_bind; [|intros; repeat only_step].
  apply only_for_each. intros s. apply volume_one_only.
Qed.

Lemma attach_one_only self v : only attach_kinds (attach_one ec2 self v).
Proof.
  unfold attach_one, volume_resource_tags.
  apply only_bind; [now apply only_read|]. intros tags. repeat only_step.
Qed.

Lemma attach_volume_only self vs : only attach_kinds (attach_volume ec2 self vs).
Proof.
  unfold attach_volume. apply only_bind; [|intros; repeat only_step].
  apply only_for_each. intros v. apply attach_one_only.
Qed.

Lemma start_instance_only self : only start_kinds (start_instance ec2 self).
Proof. unfold start_instance. repeat only_step. Qed.

Lemma delete_snapshots_only l : only is_delete_snapshot (delete_snapshots ec2 l).
Proof. unfold delete_snapshots, delete_one. repeat only_step. Qed.

Lemma get_az_only K self : only K (@get_az W self).
Proof.
  unfold get_az. destruct (_ec2_details self); [|apply only_raise].
  apply only_bind; [apply first_instance_only|]. intros; apply only_ret.
Qed.

(** *** What a round that went through did *)

Lemma stop_instance_OK self w w' evs u :
  stop_instance ec2 self w = Out w' evs (OK u) ->
  exists w1,
    Client.stop_instances ec2 w (instance_id self) = (w1, inr tt) /\
    Client.wait_instance_stopped ec2 w1 (instance_id self)
      (_delay self) (_max_attempts self) = (w', inr tt) /\
    evs = [Printed (LogStopping (instance_id self));
           Req (StopInstances (instance_id self)) Done;
           Req (WaitInstanceStopped (instance_id self)
                  (_delay self) (_max_attempts self)) Done;
           Printed (LogStopped (instance_id self))].
Proof.
  unfold stop_instance. intros H. inv_run H.
  repeat match goal with x : unit |- _ => destruct x end; simpl. eauto.
Qed.

Lemma detach_one_OK self item w w' evs u :
  detach_one ec2 self item w = Out w' evs (OK u) ->
  exists a rest w1 w2,
    Attachments item = a :: rest /\
    Client.create_tags ec2 w (VolumeId item)
      [mkTag "device-name" (Device a); mkTag "volume-type" (VolumeType item)] =
      (w1, inr tt) /\
    Client.detach_volume ec2 w1 (instance_id self) (VolumeId item) = (w2, inr tt) /\
    Client.wait_volume_available ec2 w2 (VolumeId item)
      (_delay self) (_max_attempts self) = (w', inr tt) /\
    evs = [Req (CreateTags (VolumeId item)
                  [mkTag "device-name" (Device a);
                   mkTag "volume-type" (VolumeType item)]) Done;
           Printed (LogDetaching (VolumeId item) (Device a));
           Req (DetachVolume (instance_id self) (VolumeId item)) Done;
           Req (WaitVolumeAvailable (VolumeId item)
                  (_delay self) (_max_attempts self)) Done].
Proof.
  unfold detach_one. intros H. inv_run H.
  repeat match goal with x : unit |- _ => destruct x end; simpl.
  do 4 eexists. eauto 10.
Qed.

Lemma snapshot_one_OK self v w w' evs sid :
  snapshot_one ec2 self v w = Out w' evs (OK sid) ->
  exists tags w1,
    Client.volume_tags ec2 w v = inr (Some tags) /\
    Client.create_snapshot ec2 w v (final_tags tags) = (w1, inr sid) /\
    Client.wait_snapshot_completed ec2 w1 sid
      (_delay self) (_max_attempts self) = (w', inr tt) /\
    evs = [Req (VolumeTags v) Done;
           Req (CreateSnapshot v (final_tags tags)) (Created sid);
           Req (WaitSnapshotCompleted sid (_delay self) (_max_attempts self)) Done;
           Printed (LogSnapshotCreated sid)].
Proof.
  unfold snapshot_one, volume_resource_tags. intros H. inv_run H.
  repeat match goal with x : unit |- _ => destruct x end; simpl. eauto 10.
Qed.

Lemma volume_one_OK self az s w w' evs vid :
  volume_one ec2 self az s w = Out w' evs (OK vid) ->
  exists tags w1,
    Client.snapshot_tags ec2 w s = inr (Some tags) /\
    Client.create_volume ec2 w az true (key self) s
      (tag_value "volume-type" tags) tags = (w1, inr vid) /\
    Client.wait_volume_available ec2 w1 vid
      (_delay self) (_max_attempts self) = (w', inr tt) /\
    evs = [Req (SnapshotTags s) Done;
           Req (CreateVolume az true (key self) s
                  (tag_value "volume-type" tags) tags) (Created vid);
           Req (WaitVolumeAvailable vid (_delay self) (_max_attempts self)) Done].
Proof.
  unfold volume_one, snapshot_resource_tags. intros H. inv_run H.
  repeat match goal with x : unit |- _ => destruct x end; simpl. eauto 10.
Qed.

Lemma attach_one_OK self v w w' evs u :
  attach_one ec2 self v w = Out w' evs (OK u) ->
  exists tags,
    Client.volume_tags ec2 w v = inr (Some tags) /\
    Client.attach_volume ec2 w (tag_value "device-name" tags)
      (instance_id self) v = (w', inr tt) /\
    evs = [Req (VolumeTags v) Done;
           Req (AttachVolume (tag_value "device-name" tags) (instance_id self) v)
             Done].
Proof.
  unfold attach_one, volume_resource_tags. intros H. inv_run H.
  repeat match goal with x : unit |- _ => destruct x end; simpl. eauto 10.
Qed.

Lemma start_instance_OK self w w' evs u :
  start_instance ec2 self w = Out w' evs (OK u) ->
  exists w1,
    Client.start_instances ec2 w (instance_id self) = (w1, inr tt) /\
    Client.wait_instance_status_ok ec2 w1 (instance_id self)
      (_delay self) (_max_attempts self) = (w', inr tt) /\
    evs = [Req (StartInstances (instance_id self)) Done;
           Printed (LogStarting (instance_id self));
           Req (WaitInstanceStatusOk (instance_id self)
                  (_delay self) (_max_attempts self)) Done;
           Printed (LogStatusOk (instance_id self))].
Proof.
  unfold start_instance. intros H. inv_run H.
  repeat match goal with x : unit |- _ => destruct x end; simpl. eauto.
Qed.

Lemma delete_one_OK item w w' evs u :
  delete_one ec2 item w = Out w' evs (OK u) ->
  Client.delete_snapshot ec2 w item = (w', inr tt) /\
  evs = [Req (DeleteSnapshot item) Done; Printed (LogSnapshotDeleted item)].
Proof.
  unfold delete_one. intros H. inv_run H.
  repeat match goal with x : unit |- _ => destruct x end; simpl. eauto.
Qed.

End Methods.

(** ** Whatever the outcome *)

Section AnyOutcome.
Context {W : Type}.

Lemma events_bind {A B} (m : M W A) (f : A -> M W B) w :
  events_of (bind m f w) =
    events_of (m w) ++
    match result_of (m w) with
    | OK a => events_of (f a (world_of (m w)))
    | Raise _ => []
    end.
Proof.
  unfold bind. destruct (m w) as [w1 e1 [a|e]]; simpl.
  - now destruct (f a w1).
  - now rewrite app_nil_r.
Qed.

Lemma result_bind {A B} (m : M W A) (f : A -> M W B) w :
  result_of (bind m f w) =
    match result_of (m w) with
    | OK a => result_of (f a (world_of (m w)))
    | Raise e => Raise e
    end.
Proof.
  unfold bind. destruct (m w) as [w1 e1 [a|e]]; simpl; [|reflexivity].
  now destruct (f a w1).
Qed.

Lemma world_bind {A B} (m : M W A) (f : A -> M W B) w :
  world_of (bind m f w) =
    match result_of (m w) with
    | OK a => world_of (f a (world_of (m w)))
    | Raise e => world_of (m w)
    end.
Proof.
  unfold bind. destruct (m w) as [w1 e1 [a|e]]; simpl; [|reflexivity].
  now destruct (f a w1).
Qed.

(** An event of a loop is an event of one of its rounds. *)
Lemma for_each_event {A B} (f : A -> M W B) (ev : Event) xs :
  forall w,
    In ev (events_of (for_each f xs w)) ->
    exists x w1, In x xs /\ In ev (events_of (f x w1)).
Proof.
  induction xs as [|x xs IH]; intros w; simpl.
  - intros [].
  - rewrite events_bind. intros [H|H]%in_app_or.
    + exists x, w. auto.
    + destruct (result_of (f x w)) as [y|e]; [|destruct H].
      rewrite events_bind in H. apply in_app_or in H as [H|H].
      * apply IH in H as (x' & w1 & Hx & H). exists x', w1. auto.
      * destruct (result_of (for_each f xs _)); destruct H.
Qed.

(** When the rounds before [x] went through, the trace of the loop
    continues with the trace of the round for [x]. *)
Lemma for_each_reaches {A B} (f : A -> M W B) (x : A) (after : list A) before :
  forall w w1 e1 ys,
    for_each f before w = Out w1 e1 (OK ys) ->
    exists rest,
      events_of (for_each f (before ++ x :: after) w) =
        e1 ++ events_of (f x w1) ++ rest.
Proof.
  induction before as [|b before IH]; intros w w1 e1 ys H.
  - apply for_each_nil_inv in H as (-> & -> & _). simpl.
    rewrite events_bind. eexists. reflexivity.
  - apply for_each_cons_inv in H as (w2 & e2 & y & e3 & ys' & Hb & H & -> & _).
    destruct (IH _ _ _ _ H) as [rest Hrest].
    simpl. rewrite events_bind, Hb. simpl. rewrite events_bind, Hrest.
    eexists. rewrite <- !app_assoc. reflexivity.
Qed.

End AnyOutcome.

(** Split on the provider's answers, innermost first. *)
Ltac case_answer :=
  match goal with
  | |- context [match ?x with _ => _ end] =>
      lazymatch x with
      | context [match _ with _ => _ end] => fail
      | _ => destruct x eqn:?
      end
  end.

Lemma final_tags_spec (tags : list Tag) (tag : Tag) :
  In tag (final_tags tags) <->
  In tag tags /\ String.prefix "aws" (Key tag) = false.
Proof.
  unfold final_tags. rewrite List.filter_In.
  now rewrite negb_true_iff.
Qed.

Lemma tag_value_absent (k : string) (tags : list Tag) :
  (forall tag, In tag tags -> Key tag <> k) -> tag_value k tags = EmptyString.
Proof.
  unfold tag_value. generalize EmptyString. induction tags as [|t tags IH]; intros acc H.
  - reflexivity.
  - simpl. destruct (String.eqb_spec (Key t) k) as [E|_].
    + exfalso. apply (H t); [now left | exact E].
    + apply IH. intros tag Hin. apply H. now right.
Qed.

Section Requests.
Context {W : Type} (ec2 : Client.t W).

Lemma snapshot_one_request self v w v' req reply :
  In (Req (CreateSnapshot v' req) reply) (events_of (snapshot_one ec2 self v w)) ->
  v' = v /\ exists tags, Client.volume_tags ec2 w v = inr (Some tags) /\ req = final_tags tags.
Proof.
  unfold snapshot_one, volume_resource_tags, iterate, bind, read, request, wait,
    print, ret, raise.
  repeat case_answer; subst; simpl;
    intros H; repeat (destruct H as [H|H]; try discriminate H);
    try contradiction; injection H as <- <- _; eauto.
Qed.

(** C3. Every snapshot request that [create_snapshots] sends for a
    volume carries the tags read from that volume with those whose key
    starts with [aws] left out: such a tag is not in the request, every
    other tag is, with its key and value, and nothing else is. *)
Theorem snapshot_tags_exclude_reserved (self : EncryptEC2) (volume_ids : list string)
    (w : W) (v : string) (req : list Tag) (reply : Reply) :
  In (Req (CreateSnapshot v req) reply)
     (events_of (create_snapshots ec2 self volume_ids w)) ->
  exists w1 tags,
    Client.volume_tags ec2 w1 v = inr (Some tags) /\
    req = final_tags tags /\
    (forall tag, In tag tags -> String.prefix "aws" (Key tag) = true -> ~ In tag req) /\
    (forall tag, In tag tags -> String.prefix "aws" (Key tag) = false -> In tag req) /\
    (forall tag, In tag req -> In tag tags).
Proof.
  intros H. unfold create_snapshots in H.
  apply for_each_event in H as (x & w1 & _ & H).
  apply snapshot_one_request in H as (-> & tags & Htags & ->).
  exists w1, tags. repeat split; auto.
  - intros tag _ Hp [_ Hn]%final_tags_spec. congruence.
  - intros tag Hin Hp. now apply final_tags_spec.
  - now intros tag [Hin _]%final_tags_spec.
Qed.

Lemma volume_one_untyped self az s w stags :
  Client.snapshot_tags ec2 w s = inr (Some stags) ->
  (forall tag, In tag stags -> Key tag <> "volume-type") ->
  (exists reply rest,
      events_of (volume_one ec2 self az s w) =
        Req (SnapshotTags s) Done ::
        Req (CreateVolume az true (key self) s EmptyString stags) reply :: rest) /\
  result_of (volume_one ec2 self az s w) =
    match Client.create_volume ec2 w az true (key self) s EmptyString stags with
    | (w1, inr vid) =>
        match Client.wait_volume_available ec2 w1 vid
                (_delay self) (_max_attempts self) with
        | (_, inr _) => OK vid
        | (_, inl reason) => Raise (WaiterError reason)
        end
    | (_, inl err) => Raise (ClientError err)
    end.
Proof.
  intros Hs Hns. apply tag_value_absent in Hns.
  unfold volume_one, snapshot_resource_tags, iterate, bind, read, request, wait, ret.
  rewrite Hs. simpl. rewrite Hns.
  split; repeat case_answer; simpl; eauto.
Qed.

Lemma attach_one_unnamed self v w vtags :
  Client.volume_tags ec2 w v = inr (Some vtags) ->
  (forall tag, In tag vtags -> Key tag <> "device-name") ->
  (exists reply,
      events_of (attach_one ec2 self v w) =
        [Req (VolumeTags v) Done;
         Req (AttachVolume EmptyString (instance_id self) v) reply]) /\
  result_of (attach_one ec2 self v w) =
    match Client.attach_volume ec2 w EmptyString (instance_id self) v with
    | (_, inr _) => OK tt
    | (_, inl err) => Raise (ClientError err)
    end.
Proof.
  intros Hv Hnv. apply tag_value_absent in Hnv.
  unfold attach_one, volume_resource_tags, iterate, bind, read, request, ret.
  rewrite Hv. simpl. rewrite Hnv.
  split; repeat case_answer; simpl; eauto.
  now destruct u.
Qed.

(** X21. When the loop of [create_volume] gets to a snapshot whose
    [tags] are a list with no [volume-type] key in it, it sends the
    [create_volume] request for it with [VolumeType=''], and the round
    raises only what the provider or the waiter raises. When the loop of
    [attach_volume] gets to a volume whose [tags] are a list with no
    [device-name] key in it, it sends the attach request for it with
    [Device=''], and the round raises only what the provider raises. *)
Theorem missing_tag_sends_empty_string (self : EncryptEC2)
    (availability_zone : string)
    (before after : list string) (snapshot : string) (w w1 : W)
    (e1 : list Event) (created : list string) (stags : list Tag)
    (vbefore vafter : list string) (volume : string) (wv wv1 : W)
    (ev1 : list Event) (us : list unit) (vtags : list Tag) :
  for_each (volume_one ec2 self availability_zone) before w = Out w1 e1 (OK created) ->
  Client.snapshot_tags ec2 w1 snapshot = inr (Some stags) ->
  (forall tag, In tag stags -> Key tag <> "volume-type") ->
  for_each (attach_one ec2 self) vbefore wv = Out wv1 ev1 (OK us) ->
  Client.volume_tags ec2 wv1 volume = inr (Some vtags) ->
  (forall tag, In tag vtags -> Key tag <> "device-name") ->
  (exists reply rest,
      events_of (create_volume ec2 self (before ++ snapshot :: after)
                   availability_zone w) =
        e1 ++
        Req (SnapshotTags snapshot) Done ::
        Req (CreateVolume availability_zone true (key self) snapshot
               EmptyString stags) reply :: rest) /\
  result_of (volume_one ec2 self availability_zone snapshot w1) =
    match Client.create_volume ec2 w1 availability_zone true (key self) snapshot
            EmptyString stags with
    | (w2, inr vid) =>
        match Client.wait_volume_available ec2 w2 vid
                (_delay self) (_max_attempts self) with
        | (_, inr _) => OK vid
        | (_, inl reason) => Raise (WaiterError reason)
        end
    | (_, inl err) => Raise (ClientError err)
    end /\
  (exists reply rest,
      events_of (attach_volume ec2 self (vbefore ++ volume :: vafter) wv) =
        ev1 ++
        Req (VolumeTags volume) Done ::
        Req (AttachVolume EmptyString (instance_id self) volume) reply :: rest) /\
  result_of (attach_one ec2 self volume wv1) =
    match Client.attach_volume ec2 wv1 EmptyString (instance_id self) volume with
    | (_, inr _) => OK tt
    | (_, inl err) => Raise (ClientError err)
    end.
Proof.
  intros Hb Hs Hns Hvb Hv Hnv.
  destruct (volume_one_untyped self availability_zone snapshot w1 stags Hs Hns)
    as [(reply & rest & Hev) Hres].
  destruct (attach_one_unnamed self volume wv1 vtags Hv Hnv) as [[vreply Hvev] Hvres].
  destruct (for_each_reaches _ snapshot after before _ _ _ _ Hb) as [rest1 Hr1].
  destruct (for_each_reaches _ volume vafter vbefore _ _ _ _ Hvb) as [rest2 Hr2].
  repeat split; auto.
  - unfold create_volume. rewrite events_bind, Hr1, Hev.
    rewrite <- !app_assoc. simpl. eauto.
  - unfold attach_volume. rewrite events_bind, Hr2, Hvev.
    rewrite <- !app_assoc. simpl. eauto.
Qed.

End Requests.

(** ** The stop that never completes *)

Section StopTimeout.
Context {W : Type} (ec2 : Client.t W).

Lemma allowed_not_in K (evs : list Event) c r :
  Forall (allowed K) evs -> K c = false -> ~ In (Req c r) evs.
Proof.
  intros Hall HK Hin. rewrite List.Forall_forall in Hall.
  apply Hall in Hin. simpl in Hin. congruence.
Qed.

Lemma after_stop_only self volume_ids az :
  only not_wait_stopped (after_stop ec2 self volume_ids az).
Proof.
  unfold after_stop.
  apply only_bind; [|intros _; apply only_bind; [|intros snapshots;
    apply only_bind; [|intros vols; apply only_bind; [|intros _;
    apply only_bind; [|intros _]]]]].
  - eapply only_weaken; [|apply detach_volume_only]. now intros [].
  - eapply only_weaken; [|apply create_snapshots_only]. now intros [].
  - eapply only_weaken; [|apply create_volume_only]. now intros [].
  - eapply only_weaken; [|apply attach_volume_only]. now intros [].
  - eapply only_weaken; [|apply start_instance_only]. now intros [].
  - eapply only_weaken; [|apply delete_snapshots_only]. now intros [].
Qed.

Lemma start_encryption_stop_timeout self w c e :
  is_wait_stopped c = true ->
  In (Req c (Failed e)) (events_of (start_encryption ec2 self w)) ->
  result_of (start_encryption ec2 self w) = Raise e /\
  (exists reason, e = WaiterError reason) /\
  c = WaitInstanceStopped (instance_id self) (_delay self) (_max_attempts self) /\
  mutating_calls (events_of (start_encryption ec2 self w)) =
    [StopInstances (instance_id self)].
Proof.
  intros Hc. unfold start_encryption.
  destruct (_pre_checks_passed self); [|intros []].
  rewrite !events_bind, !result_bind, !mutating_calls_app.
  pose proof (get_ebs_list_only ec2 is_describe self (fun c H => H) w) as Hlist.
  rewrite (allowed_no_mutation _ _ is_describe_not_mutating Hlist).
  assert (Hc' : is_describe c = false) by now destruct c.
  destruct (get_ebs_list ec2 self w) as [w1 e1 [vols|e0]]; simpl in *.
  2:{ intros H. rewrite app_nil_r in H.
      exfalso; exact (allowed_not_in _ _ _ _ Hlist Hc' H). }
  pose proof (get_az_only (W:=W) (fun _ => false) self w1) as Haz.
  rewrite events_bind, result_bind, mutating_calls_app.
  destruct (get_az self w1) as [w2 e2 [az|e0]]; simpl in *.
  2:{ intros [H|H]%in_app_or;
        [exfalso; exact (allowed_not_in _ _ _ _ Hlist Hc' H)|].
      rewrite app_nil_r in H.
      exfalso; exact (allowed_not_in _ _ _ _ Haz eq_refl H). }
  rewrite (allowed_no_mutation (fun _ => false) e2) by (auto; discriminate).
  fold (after_stop ec2 self (map VolumeId vols) az).
  pose proof (after_stop_only self (map VolumeId vols) az) as Hrest.
  assert (Hstop :
    forall H : In (Req c (Failed e))
                 (events_of (bind (stop_instance ec2 self)
                    (fun _ => after_stop ec2 self (map VolumeId vols) az) w2)),
      result_of (bind (stop_instance ec2 self)
                   (fun _ => after_stop ec2 self (map VolumeId vols) az) w2) = Raise e /\
      (exists reason, e = WaiterError reason) /\
      c = WaitInstanceStopped (instance_id self) (_delay self) (_max_attempts self) /\
      mutating_calls (events_of (bind (stop_instance ec2 self)
                   (fun _ => after_stop ec2 self (map VolumeId vols) az) w2)) =
        [StopInstances (instance_id self)]).
  { remember (bind (stop_instance ec2 self)
                 (fun _ => after_stop ec2 self (map VolumeId vols) az) w2) as o eqn:Ho.
    unfold stop_instance, bind, print, request, wait in Ho.
    destruct (Client.stop_instances ec2 w2 (instance_id self)) as [w3 [err|u]];
      simpl in Ho.
    - subst o. simpl.
      intros [H|[H|[]]]; [discriminate|]. injection H as <- _. discriminate.
    - destruct (Client.wait_instance_stopped ec2 w3 (instance_id self)
                  (_delay self) (_max_attempts self)) as [w4 [reason|u']];
        simpl in Ho.
      + subst o. simpl. intros [H|[H|[H|[]]]]; try discriminate.
        injection H as <- <-. eauto.
      + specialize (Hrest w4). destruct (after_stop _ _ _ _ w4) as [w5 e5 r5].
        subst o. simpl in *.
        intros [H|[H|[H|[H|H]]]]; try discriminate.
        exfalso. apply (allowed_not_in _ _ _ _ Hrest) in H; [exact H|].
        unfold not_wait_stopped. now rewrite Hc. }
  intros [H|[H|H]%in_app_or]%in_app_or;
    [exfalso; exact (allowed_not_in _ _ _ _ Hlist Hc' H)
    |exfalso; exact (allowed_not_in _ _ _ _ Haz eq_refl H)|].
  simpl. apply Hstop. exact H.
Qed.

Lemma main_unfold iid k w :
  main ec2 iid k w = bind (__init__ ec2 iid k) (start_encryption ec2) w.
Proof. reflexivity. Qed.

Lemma init_fields iid k w self :
  result_of (__init__ ec2 iid k w) = OK self ->
  instance_id self = iid /\ key self = k /\ _delay self = 5 /\ _max_attempts self = 60.
Proof.
  unfold __init__. rewrite result_bind.
  destruct (result_of (pre_checks ec2 _ w)) as [checked|e]; [|discriminate].
  destruct (truthy checked).
  - rewrite !result_bind. simpl.
    destruct (result_of (describe_instances ec2 iid _)); [|discriminate].
    simpl. now intros [= <-].
  - simpl. now intros [= <-].
Qed.

(** C6. When the wait for the stopped state fails (it runs out of its
    [MaxAttempts]), the script ends with that [WaiterError]; the wait
    was the one configured with [Delay=5] and [MaxAttempts=60]; the stop
    request is the only mutating request of the whole run, so no detach
    request was sent. *)
Theorem stop_timeout_aborts (iid k : string) (w : W) (c : Call) (e : exn) :
  is_wait_stopped c = true ->
  In (Req c (Failed e)) (events_of (main ec2 iid k w)) ->
  result_of (main ec2 iid k w) = Raise e /\
  (exists reason, e = WaiterError reason) /\
  c = WaitInstanceStopped iid 5 60 /\
  mutating_calls (events_of (main ec2 iid k w)) = [StopInstances iid] /\
  count is_detach_volume (events_of (main ec2 iid k w)) = 0.
Proof.
  intros Hc. rewrite main_unfold, events_bind, result_bind.
  pose proof (init_only ec2 is_describe iid k (fun c H => H) w) as Hinit.
  pose proof (init_fields iid k w) as Hf.
  assert (Hc' : is_describe c = false) by now destruct c.
  rewrite count_app, mutating_calls_app.
  rewrite (allowed_no_mutation _ _ is_describe_not_mutating Hinit).
  rewrite (allowed_count_0 is_detach_volume is_describe) by (auto; now intros []).
  destruct (__init__ ec2 iid k w) as [w1 e1 [self|e0]]; simpl in *.
  2:{ intros H. rewrite app_nil_r in H.
      exfalso; exact (allowed_not_in _ _ _ _ Hinit Hc' H). }
  destruct (Hf self eq_refl) as (Hi & _ & Hd & Hn).
  intros [H|H]%in_app_or; [exfalso; exact (allowed_not_in _ _ _ _ Hinit Hc' H)|].
  destruct (start_encryption_stop_timeout self w1 c e Hc H)
    as (Hr & Hreason & Hcall & Hmut).
  rewrite Hi, Hd, Hn in *. repeat split; auto.
  unfold count. unfold mutating_calls in Hmut.
  set (cs := calls (events_of (start_encryption ec2 self w1))) in *.
  assert (Hsub : List.filter is_detach_volume cs =
                 List.filter is_detach_volume (List.filter mutating cs)).
  { clear. induction cs as [|x l IH]; [reflexivity|]. simpl.
    destruct x; simpl; now rewrite ?IH. }
  rewrite Hsub, Hmut. reflexivity.
Qed.

End StopTimeout.

(** ** A run that goes through *)

Section Run.
Context {W : Type} (ec2 : Client.t W).

Lemma only_outcome {A} K (m : M W A) w w' evs r :
  only K m -> m w = Out w' evs r -> Forall (allowed K) evs.
Proof. intros Hm E. specialize (Hm w). now rewrite E in Hm. Qed.

Lemma preserves_outcome {A} (m : M W A) w w' evs r :
  preserves_world m -> m w = Out w' evs r -> w' = w.
Proof. intros Hm E. specialize (Hm w). now rewrite E in Hm. Qed.

Lemma get_az_outcome self (w w' : W) evs az :
  get_az self w = Out w' evs (OK az) -> w' = w /\ evs = [].
Proof.
  unfold get_az. destruct (_ec2_details self) as [details|]; [|discriminate].
  unfold first_instance. intros H. inv_run H. auto.
Qed.

Lemma start_encryption_stages self w w' evs u :
  _pre_checks_passed self = true ->
  start_encryption ec2 self w = Out w' evs (OK u) ->
  stages ec2 self w w' evs.
Proof.
  intros Hp. unfold start_encryption. rewrite Hp. intros H.
  apply bind_OK_inv in H as (w1 & e1 & vols & e1' & Hlist & H & ->).
  apply bind_OK_inv in H as (w2 & e2 & az & e2' & Haz & H & ->).
  apply bind_OK_inv in H as (w3 & e3 & [] & e3' & Hstop & H & ->).
  apply bind_OK_inv in H as (w4 & e4 & [] & e4' & Hdet & H & ->).
  apply bind_OK_inv in H as (w5 & e5 & snaps & e5' & Hsnap & H & ->).
  apply bind_OK_inv in H as (w6 & e6 & nvols & e6' & Hvol & H & ->).
  apply bind_OK_inv in H as (w7 & e7 & b & e7' & Hatt & H & ->).
  apply bind_OK_inv in H as (w8 & e8 & [] & e8' & Hstart & H & ->).
  destruct u.
  assert (w1 = w) as ->
    by exact (preserves_outcome _ _ _ _ _ (get_ebs_list_preserves ec2 self) Hlist).
  destruct (get_az_outcome _ _ _ _ _ Haz) as [-> ->].
  assert (b = true) as ->.
  { unfold attach_volume in Hatt. inv_run Hatt. reflexivity. }
  econstructor; eauto.
Qed.

Lemma for_each_count {A B} K n (f : A -> M W B) xs :
  (forall x w w' evs y, f x w = Out w' evs (OK y) -> count K evs = n) ->
  forall w w' evs ys,
    for_each f xs w = Out w' evs (OK ys) -> count K evs = length xs * n.
Proof.
  intros Hf. induction xs as [|x xs IH]; intros w w' evs ys H.
  - now apply for_each_nil_inv in H as (_ & -> & _).
  - apply for_each_cons_inv in H as (w1 & e1 & y & e2 & ys' & Hx & H & -> & _).
    rewrite count_app, (Hf _ _ _ _ _ Hx), (IH _ _ _ _ H). simpl. lia.
Qed.

Lemma create_snapshots_count self vs w w' evs snaps :
  create_snapshots ec2 self vs w = Out w' evs (OK snaps) ->
  count is_create_snapshot evs = length vs /\
  count is_create_volume evs = 0 /\ count is_attach_volume evs = 0.
Proof.
  intros H. split.
  - assert (Hstep : forall x w0 w1 e y,
               snapshot_one ec2 self x w0 = Out w1 e (OK y) ->
               count is_create_snapshot e = 1).
    { intros x w0 w1 e y Hx.
      now apply snapshot_one_OK in Hx as (tags & w2 & _ & _ & _ & ->). }
    rewrite (for_each_count _ _ _ _ Hstep _ _ _ _ H). lia.
  - pose proof (only_outcome _ _ _ _ _ _ (create_snapshots_only ec2 self vs) H).
    split; eapply allowed_count_0; eauto; now intros [].
Qed.

Lemma create_volume_count self ss az w w' evs vols :
  create_volume ec2 self ss az w = Out w' evs (OK vols) ->
  count is_create_volume evs = length ss /\
  count is_create_snapshot evs = 0 /\ count is_attach_volume evs = 0.
Proof.
  intros H. split.
  - assert (Hstep : forall x w0 w1 e y,
               volume_one ec2 self az x w0 = Out w1 e (OK y) ->
               count is_create_volume e = 1).
    { intros x w0 w1 e y Hx.
      now apply volume_one_OK in Hx as (tags & w2 & _ & _ & _ & ->). }
    unfold create_volume in H. inv_run H. rewrite !count_app.
    rewrite (for_each_count _ _ _ _ Hstep _ _ _ _ Hm). unfold count. simpl. lia.
  - pose proof (only_outcome _ _ _ _ _ _ (create_volume_only ec2 self ss az) H).
    split; eapply allowed_count_0; eauto; now intros [].
Qed.

Lemma create_volume_encrypted_count self ss az w w' evs vols :
  create_volume ec2 self ss az w = Out w' evs (OK vols) ->
  count is_create_encrypted_volume evs = length ss.
Proof.
  intros H.
  assert (Hstep : forall x w0 w1 e y,
             volume_one ec2 self az x w0 = Out w1 e (OK y) ->
             count is_create_encrypted_volume e = 1).
  { intros x w0 w1 e y Hx.
    now apply volume_one_OK in Hx as (tags & w2 & _ & _ & _ & ->). }
  unfold create_volume in H. inv_run H. rewrite !count_app.
  rewrite (for_each_count _ _ _ _ Hstep _ _ _ _ Hm). unfold count. simpl. lia.
Qed.

(** A kind that is part of another is counted at most as often. *)
Lemma count_le (K K' : Call -> bool) (evs : list Event) :
  (forall c, K c = true -> K' c = true) -> count K evs <= count K' evs.
Proof.
  intros HK. unfold count. induction (calls evs) as [|c cs IH]; [reflexivity|].
  simpl. destruct (K c) eqn:E.
  - rewrite (HK c E). simpl. lia.
  - destruct (K' c); simpl; lia.
Qed.

Lemma attach_volume_count self vs w w' evs b :
  attach_volume ec2 self vs w = Out w' evs (OK b) ->
  count is_attach_volume evs = length vs /\
  count is_create_snapshot evs = 0 /\ count is_create_volume evs = 0.
Proof.
  intros H. split.
  - assert (Hstep : forall x w0 w1 e y,
               attach_one ec2 self x w0 = Out w1 e (OK y) ->
               count is_attach_volume e = 1).
    { intros x w0 w1 e y Hx.
      now apply attach_one_OK in Hx as (tags & _ & _ & ->). }
    unfold attach_volume in H. inv_run H. rewrite !count_app.
    rewrite (for_each_count _ _ _ _ Hstep _ _ _ _ Hm). unfold count. simpl. lia.
  - pose proof (only_outcome _ _ _ _ _ _ (attach_volume_only ec2 self vs) H).
    split; eapply allowed_count_0; eauto; now intros [].
Qed.

(** The snapshot ids come back in the order of the volume ids. *)
Lemma create_snapshots_order self vs :
  forall w w' evs snaps,
    create_snapshots ec2 self vs w = Out w' evs (OK snaps) ->
    map (fun x => (fst (fst x), snd x)) (created_snapshots evs) = combine vs snaps /\
    map snd (created_snapshots evs) = snaps.
Proof.
  unfold create_snapshots.
  induction vs as [|v vs IH]; intros w w' evs snaps H.
  - now apply for_each_nil_inv in H as (_ & -> & ->).
  - apply for_each_cons_inv in H as (w1 & e1 & y & e2 & ys' & Hx & H & -> & ->).
    apply snapshot_one_OK in Hx as (tags & w2 & _ & _ & _ & ->).
    destruct (IH _ _ _ _ H) as [IH1 IH2].
    rewrite created_snapshots_app, !map_app, IH1, IH2. split; reflexivity.
Qed.

Lemma flat_map_allowed_nil {X} (g : Event -> list X) (K K' : Call -> bool) evs :
  (forall c r, K c = false -> g (Req c r) = []) ->
  (forall l, g (Printed l) = []) ->
  (forall c, K' c = true -> K c = false) ->
  Forall (allowed K') evs -> flat_map g evs = [].
Proof.
  intros Hg Hp Hd. induction 1 as [|ev evs He _ IH]; [reflexivity|].
  simpl. rewrite IH, app_nil_r. destruct ev as [c r|l]; [|apply Hp].
  apply Hg, Hd, He.
Qed.

Lemma no_snapshot_created K evs :
  (forall c, K c = true -> is_create_snapshot c = false) ->
  Forall (allowed K) evs -> created_snapshots evs = [].
Proof.
  intros Hd. apply (flat_map_allowed_nil _ is_create_snapshot); auto.
  now intros [] r.
Qed.

Lemma no_snapshot_deleted K evs :
  (forall c, K c = true -> is_delete_snapshot c = false) ->
  Forall (allowed K) evs -> deleted_snapshots evs = [].
Proof.
  intros Hd. apply (flat_map_allowed_nil _ is_delete_snapshot); auto.
  now intros [] r.
Qed.

Lemma delete_rounds l :
  forall w w' evs ys,
    for_each (delete_one ec2) l w = Out w' evs (OK ys) ->
    deleted_snapshots evs = l /\
    forall sid, In sid l -> In (Req (DeleteSnapshot sid) Done) evs.
Proof.
  induction l as [|s l IH]; intros w w' evs ys H.
  - apply for_each_nil_inv in H as (_ & -> & _). split; [reflexivity|intros _ []].
  - apply for_each_cons_inv in H as (w1 & e1 & y & e2 & ys' & Hx & H & -> & _).
    apply delete_one_OK in Hx as (_ & ->).
    destruct (IH _ _ _ _ H) as [IH1 IH2].
    rewrite deleted_snapshots_app, IH1. split; [reflexivity|].
    intros sid [<-|Hin]; [now left|]. right. right. now apply IH2.
Qed.

Lemma delete_snapshots_deleted l w w' evs u :
  delete_snapshots ec2 l w = Out w' evs (OK u) ->
  deleted_snapshots evs = l /\
  forall sid, In sid l -> In (Req (DeleteSnapshot sid) Done) evs.
Proof.
  unfold delete_snapshots. intros H. inv_run H.
  rewrite app_nil_r. eapply delete_rounds; eauto.
Qed.

End Run.

Section RunCounts.
Context {W : Type} (ec2 : Client.t W).

Lemma create_volume_length self ss az w w' evs vols :
  create_volume ec2 self ss az w = Out w' evs (OK vols) -> length vols = length ss.
Proof.
  unfold create_volume. intros H. inv_run H. eapply for_each_length; eauto.
Qed.

(** The traces of the stages that send none of the three requests. *)
Lemma quiet_stages self w w_stop w_detach w_att w_start w' l
    volumes e_list e_stop e_detach e_start e_del K :
  (forall c, K c = true ->
             is_describe c = false /\ stop_kinds c = false /\
             detach_kinds c = false /\ start_kinds c = false /\
             is_delete_snapshot c = false) ->
  get_ebs_list ec2 self w = Out w e_list (OK volumes) ->
  stop_instance ec2 self w = Out w_stop e_stop (OK tt) ->
  detach_volume ec2 self w_stop = Out w_detach e_detach (OK tt) ->
  start_instance ec2 self w_att = Out w_start e_start (OK tt) ->
  delete_snapshots ec2 l w_start = Out w' e_del (OK tt) ->
  count K e_list = 0 /\ count K e_stop = 0 /\ count K e_detach = 0 /\
  count K e_start = 0 /\ count K e_del = 0.
Proof.
  intros HK Hl Hs Hd Hst Hdel.
  assert (Hz : forall K' evs,
             (forall c, K c = true -> K' c = false) ->
             Forall (allowed K') evs -> count K evs = 0).
  { intros K' evs Hd' Hall. apply (allowed_count_0 K K'); [|exact Hall].
    intros c Hc. destruct (K c) eqn:E; [|reflexivity].
    rewrite (Hd' c E) in Hc. discriminate. }
  repeat split.
  - apply (Hz is_describe); [intros c Hc; now apply HK|].
    exact (only_outcome _ _ _ _ _ _
             (get_ebs_list_only ec2 is_describe self (fun c H => H)) Hl).
  - apply (Hz stop_kinds); [intros c Hc; now apply HK|].
    exact (only_outcome _ _ _ _ _ _ (stop_instance_only ec2 self) Hs).
  - apply (Hz detach_kinds); [intros c Hc; now apply HK|].
    exact (only_outcome _ _ _ _ _ _ (detach_volume_only ec2 self) Hd).
  - apply (Hz start_kinds); [intros c Hc; now apply HK|].
    exact (only_outcome _ _ _ _ _ _ (start_instance_only ec2 self) Hst).
  - apply (Hz is_delete_snapshot); [intros c Hc; now apply HK|].
    exact (only_outcome _ _ _ _ _ _ (delete_snapshots_only ec2 l) Hdel).
Qed.

(** C1. In a run of [start_encryption] that goes through, with [N]
    unencrypted volumes listed at its start, exactly [N] create-snapshot,
    [N] create-volume and [N] attach requests are sent, and each of the
    [N] create-volume requests has [Encrypted=True]; [create_snapshots]
    is called with the ids of those volumes and returns [N] snapshot ids,
    the i-th being the provider's answer to the request for the i-th
    volume id. *)
Theorem one_request_per_volume (self : EncryptEC2) (w w' : W)
    (evs : list Event) (volumes : list Volume) :
  _pre_checks_passed self = true ->
  start_encryption ec2 self w = Out w' evs (OK tt) ->
  result_of (get_ebs_list ec2 self w) = OK volumes ->
  count is_create_snapshot evs = length volumes /\
  count is_create_volume evs = length volumes /\
  count is_create_encrypted_volume evs = length volumes /\
  count is_attach_volume evs = length volumes /\
  exists w1 w2 e snapshots,
    create_snapshots ec2 self (map VolumeId volumes) w1 = Out w2 e (OK snapshots) /\
    length snapshots = length volumes /\
    map (fun x => (fst (fst x), snd x)) (created_snapshots e) =
      combine (map VolumeId volumes) snapshots /\
    created_snapshots evs = created_snapshots e.
Proof.
  intros Hp Hrun Hvols.
  destruct (start_encryption_stages ec2 self w w' evs tt Hp Hrun)
    as [vols az snaps nvols w_stop w_det w_snap w_vol w_att w_start
          e_list e_stop e_det e_snap e_vol e_att e_start e_del
          Hl Haz Hs Hd Hsn Hv Ha Hst Hdel ->].
  rewrite Hl in Hvols. injection Hvols as ->.
  pose proof (for_each_length _ _ _ _ _ _ Hsn) as Hlen_s.
  rewrite length_map in Hlen_s.
  pose proof (create_volume_length _ _ _ _ _ _ _ Hv) as Hlen_v.
  destruct (create_snapshots_count _ _ _ _ _ _ _ Hsn) as (Hs1 & Hs2 & Hs3).
  destruct (create_volume_count _ _ _ _ _ _ _ _ Hv) as (Hv1 & Hv2 & Hv3).
  destruct (attach_volume_count _ _ _ _ _ _ _ Ha) as (Ha1 & Ha2 & Ha3).
  rewrite length_map in Hs1.
  destruct (quiet_stages _ _ _ _ _ _ _ _ _ _ _ _ _ _ is_create_snapshot
              ltac:(now intros []) Hl Hs Hd Hst Hdel) as (A1 & A2 & A3 & A4 & A5).
  destruct (quiet_stages _ _ _ _ _ _ _ _ _ _ _ _ _ _ is_create_volume
              ltac:(now intros []) Hl Hs Hd Hst Hdel) as (B1 & B2 & B3 & B4 & B5).
  destruct (quiet_stages _ _ _ _ _ _ _ _ _ _ _ _ _ _ is_attach_volume
              ltac:(now intros []) Hl Hs Hd Hst Hdel) as (C1 & C2 & C3 & C4 & C5).
  pose proof (create_volume_encrypted_count _ _ _ _ _ _ _ _ Hv) as Hv4.
  assert (Hle : forall e, count is_create_encrypted_volume e <= count is_create_volume e).
  { intros e. apply count_le. intros [] Hc; try discriminate Hc. reflexivity. }
  pose proof (Hle e_list). pose proof (Hle e_stop). pose proof (Hle e_det).
  pose proof (Hle e_snap). pose proof (Hle e_att). pose proof (Hle e_start).
  pose proof (Hle e_del).
  rewrite !count_app.
  repeat split; try lia.
  exists w_det, w_snap, e_snap, snaps. repeat split; auto.
  - now apply create_snapshots_order in Hsn as [Ho _].
  - rewrite !created_snapshots_app.
    rewrite (no_snapshot_created is_describe e_list) by
      (try (now intros []);
       exact (only_outcome _ _ _ _ _ _
                (get_ebs_list_only ec2 is_describe self (fun c H => H)) Hl)).
    rewrite (no_snapshot_created stop_kinds e_stop) by
      (try (now intros []);
       exact (only_outcome _ _ _ _ _ _ (stop_instance_only ec2 self) Hs)).
    rewrite (no_snapshot_created detach_kinds e_det) by
      (try (now intros []);
       exact (only_outcome _ _ _ _ _ _ (detach_volume_only ec2 self) Hd)).
    rewrite (no_snapshot_created volume_kinds e_vol) by
      (try (now intros []);
       exact (only_outcome _ _ _ _ _ _ (create_volume_only ec2 self _ _) Hv)).
    rewrite (no_snapshot_created attach_kinds e_att) by
      (try (now intros []);
       exact (only_outcome _ _ _ _ _ _ (attach_volume_only ec2 self _) Ha)).
    rewrite (no_snapshot_created start_kinds e_start) by
      (try (now intros []);
       exact (only_outcome _ _ _ _ _ _ (start_instance_only ec2 self) Hst)).
    rewrite (no_snapshot_created is_delete_snapshot e_del) by
      (try (now intros []);
       exact (only_outcome _ _ _ _ _ _ (delete_snapshots_only ec2 _) Hdel)).
    simpl. now rewrite app_nil_r.
Qed.

End RunCounts.

Section RunTraces.
Context {W : Type} (ec2 : Client.t W).

Lemma no_volume_created K evs :
  (forall c, K c = true -> is_create_volume c = false) ->
  Forall (allowed K) evs -> created_volumes evs = [].
Proof.
  intros Hd. apply (flat_map_allowed_nil _ is_create_volume); auto.
  now intros [] r.
Qed.

Lemma no_volume_attached K evs :
  (forall c, K c = true -> is_attach_volume c = false) ->
  Forall (allowed K) evs -> attached evs = [].
Proof.
  intros Hd. apply (flat_map_allowed_nil _ is_attach_volume); auto.
  now intros [] r.
Qed.

(** Which stage of a run each kind of record in its trace comes from. *)
Lemma stage_traces self w w_stop w_detach w_snap w_vol w_att w_start w'
    volumes volume_ids az snapshots encrypted_volumes
    e_list e_stop e_detach e_snap e_vol e_att e_start e_del :
  get_ebs_list ec2 self w = Out w e_list (OK volumes) ->
  stop_instance ec2 self w = Out w_stop e_stop (OK tt) ->
  detach_volume ec2 self w_stop = Out w_detach e_detach (OK tt) ->
  create_snapshots ec2 self volume_ids w_detach = Out w_snap e_snap (OK snapshots) ->
  create_volume ec2 self snapshots az w_snap = Out w_vol e_vol (OK encrypted_volumes) ->
  attach_volume ec2 self encrypted_volumes w_vol = Out w_att e_att (OK true) ->
  start_instance ec2 self w_att = Out w_start e_start (OK tt) ->
  delete_snapshots ec2 snapshots w_start = Out w' e_del (OK tt) ->
  let evs := e_list ++ e_stop ++ e_detach ++ e_snap ++ e_vol ++ e_att ++
             e_start ++ e_del in
  created_snapshots evs = created_snapshots e_snap /\
  created_volumes evs = created_volumes e_vol /\
  attached evs = attached e_att /\
  deleted_snapshots evs = deleted_snapshots e_del.
Proof.
  intros Hl Hs Hd Hsn Hv Ha Hst Hdel evs. subst evs.
  pose proof (only_outcome _ _ _ _ _ _
                (get_ebs_list_only ec2 is_describe self (fun c H => H)) Hl) as A1.
  pose proof (only_outcome _ _ _ _ _ _ (stop_instance_only ec2 self) Hs) as A2.
  pose proof (only_outcome _ _ _ _ _ _ (detach_volume_only ec2 self) Hd) as A3.
  pose proof (only_outcome _ _ _ _ _ _ (create_snapshots_only ec2 self _) Hsn) as A4.
  pose proof (only_outcome _ _ _ _ _ _ (create_volume_only ec2 self _ _) Hv) as A5.
  pose proof (only_outcome _ _ _ _ _ _ (attach_volume_only ec2 self _) Ha) as A6.
  pose proof (only_outcome _ _ _ _ _ _ (start_instance_only ec2 self) Hst) as A7.
  pose proof (only_outcome _ _ _ _ _ _ (delete_snapshots_only ec2 _) Hdel) as A8.
  repeat split.
  - rewrite !created_snapshots_app.
    rewrite (no_snapshot_created is_describe _ ltac:(now intros []) A1),
      (no_snapshot_created stop_kinds _ ltac:(now intros []) A2),
      (no_snapshot_created detach_kinds _ ltac:(now intros []) A3),
      (no_snapshot_created volume_kinds _ ltac:(now intros []) A5),
      (no_snapshot_created attach_kinds _ ltac:(now intros []) A6),
      (no_snapshot_created start_kinds _ ltac:(now intros []) A7),
      (no_snapshot_created is_delete_snapshot _ ltac:(now intros []) A8).
    simpl. now rewrite app_nil_r.
  - rewrite !created_volumes_app.
    rewrite (no_volume_created is_describe _ ltac:(now intros []) A1),
      (no_volume_created stop_kinds _ ltac:(now intros []) A2),
      (no_volume_created detach_kinds _ ltac:(now intros []) A3),
      (no_volume_created snapshot_kinds _ ltac:(now intros []) A4),
      (no_volume_created attach_kinds _ ltac:(now intros []) A6),
      (no_volume_created start_kinds _ ltac:(now intros []) A7),
      (no_volume_created is_delete_snapshot _ ltac:(now intros []) A8).
    simpl. now rewrite app_nil_r.
  - rewrite !attached_app.
    rewrite (no_volume_attached is_describe _ ltac:(now intros []) A1),
      (no_volume_attached stop_kinds _ ltac:(now intros []) A2),
      (no_volume_attached detach_kinds _ ltac:(now intros []) A3),
      (no_volume_attached snapshot_kinds _ ltac:(now intros []) A4),
      (no_volume_attached volume_kinds _ ltac:(now intros []) A5),
      (no_volume_attached start_kinds _ ltac:(now intros []) A7),
      (no_volume_attached is_delete_snapshot _ ltac:(now intros []) A8).
    simpl. now rewrite app_nil_r.
  - rewrite !deleted_snapshots_app.
    rewrite (no_snapshot_deleted is_describe _ ltac:(now intros []) A1),
      (no_snapshot_deleted stop_kinds _ ltac:(now intros []) A2),
      (no_snapshot_deleted detach_kinds _ ltac:(now intros []) A3),
      (no_snapshot_deleted snapshot_kinds _ ltac:(now intros []) A4),
      (no_snapshot_deleted volume_kinds _ ltac:(now intros []) A5),
      (no_snapshot_deleted attach_kinds _ ltac:(now intros []) A6),
      (no_snapshot_deleted start_kinds _ ltac:(now intros []) A7).
    reflexivity.
Qed.

(** C9. When [start_encryption] ends without an exception, the delete
    requests it sent are for exactly the snapshots it created, in the
    order of their creation, and each one was accepted. *)
Theorem created_snapshots_are_deleted (self : EncryptEC2) (w w' : W)
    (evs : list Event) :
  start_encryption ec2 self w = Out w' evs (OK tt) ->
  deleted_snapshots evs = map snd (created_snapshots evs) /\
  forall v tags sid,
    In (v, tags, sid) (created_snapshots evs) ->
    In (Req (DeleteSnapshot sid) Done) evs.
Proof.
  intros Hrun. destruct (_pre_checks_passed self) eqn:Hp.
  2:{ unfold start_encryption in Hrun. rewrite Hp in Hrun.
      apply ret_inv in Hrun as (_ & -> & _). split; [reflexivity|intros ? ? ? []]. }
  destruct (start_encryption_stages ec2 self w w' evs tt Hp Hrun)
    as [vols az snaps nvols w_stop w_det w_snap w_vol w_att w_start
          e_list e_stop e_det e_snap e_vol e_att e_start e_del
          Hl Haz Hs Hd Hsn Hv Ha Hst Hdel ->].
  destruct (stage_traces _ _ _ _ _ _ _ _ _ _ _ _ _ _ _ _ _ _ _ _ _ _
              Hl Hs Hd Hsn Hv Ha Hst Hdel) as (T1 & _ & _ & T4).
  cbv zeta in T1, T4. rewrite T1, T4.
  apply create_snapshots_order in Hsn as [_ Hids].
  apply delete_snapshots_deleted in Hdel as [Hdel Hacc].
  rewrite Hids, Hdel. split; [reflexivity|].
  intros v tags sid Hin.
  assert (Hs' : In sid snaps).
  { rewrite <- Hids. now apply (in_map snd) in Hin. }
  apply Hacc in Hs'. rewrite !app_assoc. apply in_or_app. now right.
Qed.

End RunTraces.

(** ** Tags from the original volume to its replacement *)

Lemma holds_final_tags (tag : Tag) (tags : list Tag) :
  holds tag tags -> String.prefix "aws" (Key tag) = false ->
  holds tag (final_tags tags).
Proof.
  intros [Hin Huniq] Hp. split.
  - now apply final_tags_spec.
  - intros t [Ht _]%final_tags_spec. now apply Huniq.
Qed.

Lemma tag_value_fold (k v : string) (tags : list Tag) :
  (forall t, In t tags -> Key t = k -> Value t = v) ->
  forall acc,
    acc = v \/ (exists t, In t tags /\ Key t = k) ->
    fold_left (fun acc tag => if String.eqb (Key tag) k then Value tag else acc)
      tags acc = v.
Proof.
  induction tags as [|t tags IH]; intros Hv acc Hacc; simpl.
  - destruct Hacc as [->|(t & [] & _)]. reflexivity.
  - apply IH; [intros t' Ht'; apply Hv; now right|].
    destruct (String.eqb_spec (Key t) k) as [E|E].
    + left. apply Hv; [now left|exact E].
    + destruct Hacc as [->|(t' & [<-|Ht'] & Hk)]; [now left|contradiction|].
      right. now exists t'.
Qed.

Lemma holds_tag_value (tag : Tag) (tags : list Tag) :
  holds tag tags -> tag_value (Key tag) tags = Value tag.
Proof.
  intros [Hin Huniq]. unfold tag_value. apply tag_value_fold; [exact Huniq|].
  right. now exists tag.
Qed.

Lemma recorded_new_tags (d t : string) :
  recorded (fun tag => holds tag [mkTag "device-name" d; mkTag "volume-type" t]) d t.
Proof.
  split; (split; [simpl; auto|]);
    intros x [<-|[<-|[]]]; simpl; intros E; try reflexivity; discriminate.
Qed.

Lemma recorded_final_tags (tags : list Tag) (d t : string) :
  recorded (fun tag => holds tag tags) d t ->
  recorded (fun tag => holds tag (final_tags tags)) d t.
Proof. intros [Hd Ht]. split; now apply holds_final_tags. Qed.

Lemma recorded_impl (has has' : Tag -> Prop) (d t : string) :
  (forall tag, has tag -> has' tag) -> recorded has d t -> recorded has' d t.
Proof. intros H [Hd Ht]. split; now apply H. Qed.

Section Keeps.
Context {W : Type} (ec2 : Client.t W).

Lemma keeps_tags_refl w : keeps_tags ec2 w w.
Proof. split; intros x tag H; exact H. Qed.

Lemma keeps_tags_trans w1 w2 w3 :
  keeps_tags ec2 w1 w2 -> keeps_tags ec2 w2 w3 -> keeps_tags ec2 w1 w3.
Proof.
  intros [Hv1 Hs1] [Hv2 Hs2]. split; intros x tag H.
  - now apply Hv2, Hv1.
  - now apply Hs2, Hs1.
Qed.

Lemma keeps_volume_tags_trans w1 w2 w3 :
  keeps_volume_tags ec2 w1 w2 -> keeps_volume_tags ec2 w2 w3 ->
  keeps_volume_tags ec2 w1 w3.
Proof. intros H1 H2 x tag H. now apply H2, H1. Qed.

Lemma same_listing_trans w1 w2 w3 :
  same_listing ec2 w1 w2 -> same_listing ec2 w2 w3 -> same_listing ec2 w1 w3.
Proof.
  intros [Hi1 Hv1] [Hi2 Hv2]. split; intros x.
  - now rewrite Hi2, Hi1.
  - now rewrite Hv2, Hv1.
Qed.

(** Reading the tags of a resource that has a tag. *)
Lemma volume_has_read w v tag tags :
  volume_has ec2 w v tag -> Client.volume_tags ec2 w v = inr (Some tags) -> holds tag tags.
Proof. intros (tags' & E & H) E'. rewrite E in E'. now injection E' as <-. Qed.

Lemma snapshot_has_read w s tag tags :
  snapshot_has ec2 w s tag -> Client.snapshot_tags ec2 w s = inr (Some tags) ->
  holds tag tags.
Proof. intros (tags' & E & H) E'. rewrite E in E'. now injection E' as <-. Qed.

(** The listing depends on the provider's state through the two
    describe calls only. *)
Lemma get_ebs_list_same_listing self w w' :
  same_listing ec2 w w' ->
  result_of (get_ebs_list ec2 self w') = result_of (get_ebs_list ec2 self w).
Proof.
  intros [Hi Hv]. unfold get_ebs_list.
  rewrite !result_bind. unfold describe_instances at 1 2 3 4.
  rewrite Hi. unfold read at 1 2 3 4.
  destruct (Client.describe_instances ec2 w (instance_id self)) as [err|resp];
    [reflexivity|]. simpl.
  rewrite !result_bind.
  assert (Hf : forall (w0 : W), result_of (first_instance resp w0) =
                                result_of (first_instance resp w) /\
                                world_of (first_instance resp w0) = w0).
  { intros w0. unfold first_instance, bind, index0, ret, raise.
    destruct resp as [|r rs]; [now split|]. now destruct (Instances r). }
  destruct (Hf w') as [-> ->]. destruct (Hf w) as [_ ->].
  destruct (result_of (first_instance resp w)) as [inst|e]; [|reflexivity].
  rewrite !result_bind.
  set (round := fun ebs => bind (describe_volumes ec2 (Ebs_VolumeId ebs))
                             (fun resp0 => ret (unencrypted resp0))).
  assert (Hscan : forall l, result_of (for_each round l w') =
                            result_of (for_each round l w)).
  { induction l as [|ebs l IH]; [reflexivity|]. simpl.
    rewrite !result_bind.
    assert (Hr : forall w0, world_of (round ebs w0) = w0).
    { intros w0. apply preserves_bind; [apply preserves_read|auto with trace]. }
    rewrite !Hr.
    assert (Hround : result_of (round ebs w') = result_of (round ebs w)).
    { unfold round. rewrite !result_bind. unfold describe_volumes, read.
      rewrite Hv. now destruct (Client.describe_volumes ec2 w (Ebs_VolumeId ebs)). }
    rewrite Hround. destruct (result_of (round ebs w)); [|reflexivity].
    rewrite !result_bind, IH. reflexivity. }
  rewrite Hscan. destruct (result_of (for_each round _ w)); reflexivity.
Qed.

End Keeps.

Section TagTravel.
Context {W : Type} (ec2 : Client.t W) (laws : TagFaithful ec2).

(** Detaching: each volume gets its device path and its type as tags,
    and keeps them while the other volumes are dealt with. *)
Lemma detach_rounds self items :
  List.NoDup (map VolumeId items) ->
  forall w w' evs us,
    for_each (detach_one ec2 self) items w = Out w' evs (OK us) ->
    (exists outs : list (Volume * string),
        map fst outs = items /\
        Forall (fun o =>
                  (exists rest, Attachments (fst o) = mkAttachment (snd o) :: rest) /\
                  recorded (volume_has ec2 w' (VolumeId (fst o)))
                    (snd o) (VolumeType (fst o))) outs) /\
    (forall v tag, ~ In v (map VolumeId items) ->
                   volume_has ec2 w v tag -> volume_has ec2 w' v tag).
Proof.
  induction items as [|item items IH]; intros Hnd w w' evs us H.
  - apply for_each_nil_inv in H as (-> & _ & _).
    split; [exists []; split; [reflexivity|constructor]|auto].
  - apply for_each_cons_inv in H as (w1 & e1 & [] & e2 & us' & Hx & H & _ & _).
    apply detach_one_OK in Hx as (a & rest & wa & wb & Hatt & Htags & Hdet & Hwait & _).
    simpl in Hnd. apply List.NoDup_cons_iff in Hnd as [Hnotin Hnd].
    destruct (create_tags_stores _ laws _ _ _ _ _ Htags) as [Hnew Hothers].
    destruct (detach_keeps _ laws _ _ _ _ _ Hdet) as [Hk1 _].
    destruct (wait_available_keeps _ laws _ _ _ _ _ _ Hwait) as [Hk2 _].
    destruct (IH Hnd _ _ _ _ H) as [(outs & Hmap & Hall) Hframe].
    split.
    + exists ((item, Device a) :: outs). split; [simpl; now rewrite Hmap|].
      constructor; [|exact Hall]. simpl. split.
      * exists rest. rewrite Hatt. now destruct a.
      * eapply recorded_impl; [|apply recorded_new_tags].
        intros tag Htag. apply Hframe; [exact Hnotin|]. apply Hk2, Hk1, Hnew, Htag.
    + intros v tag Hv Hhas. apply Hframe; [intros Hin; apply Hv; now right|].
      apply Hk2, Hk1, Hothers; [|exact Hhas]. intros ->. apply Hv. now left.
Qed.

(** Snapshots: the request for a volume that has the two tags carries
    them, and the snapshot keeps them. *)
Lemma snapshot_rounds {X} (vid dv ty : X -> string) self (ins : list X) :
  forall w w' evs snaps,
    for_each (snapshot_one ec2 self) (map vid ins) w = Out w' evs (OK snaps) ->
    Forall (fun x => recorded (volume_has ec2 w (vid x)) (dv x) (ty x)) ins ->
    keeps_tags ec2 w w' /\
    exists outs : list (X * (list Tag * string)),
      map fst outs = ins /\
      created_snapshots evs =
        map (fun o => (vid (fst o), fst (snd o), snd (snd o))) outs /\
      snaps = map (fun o => snd (snd o)) outs /\
      Forall (fun o =>
                recorded (fun tag => holds tag (fst (snd o)))
                  (dv (fst o)) (ty (fst o)) /\
                recorded (snapshot_has ec2 w' (snd (snd o)))
                  (dv (fst o)) (ty (fst o))) outs.
Proof.
  induction ins as [|x ins IH]; intros w w' evs snaps H Hpre.
  - apply for_each_nil_inv in H as (-> & -> & ->).
    split; [apply keeps_tags_refl|]. exists []. repeat split; constructor.
  - simpl in H.
    apply for_each_cons_inv in H as (w1 & e1 & sid & e2 & snaps' & Hx & H & -> & ->).
    apply snapshot_one_OK in Hx as (tags & wa & Hread & Hcreate & Hwait & ->).
    apply Forall_cons in Hpre as [Hx Hpre].
    destruct (create_snapshot_stores _ laws _ _ _ _ _ Hcreate) as [Hnew Hk1].
    pose proof (wait_snapshot_keeps _ laws _ _ _ _ _ _ Hwait) as Hk2.
    pose proof (keeps_tags_trans _ _ _ _ Hk1 Hk2) as Hk.
    assert (Hpre' : Forall (fun x => recorded (volume_has ec2 w1 (vid x))
                                    (dv x) (ty x)) ins).
    { eapply List.Forall_impl; [|exact Hpre]. intros y.
      apply recorded_impl. intros tag. apply Hk. }
    destruct (IH _ _ _ _ H Hpre') as (Hk' & outs & Hmap & Hev & Hsn & Hall).
    assert (Hreq : recorded (fun tag => holds tag (final_tags tags)) (dv x) (ty x)).
    { apply recorded_final_tags. eapply recorded_impl; [|exact Hx].
      intros tag Htag. eapply volume_has_read; eauto. }
    split; [eapply keeps_tags_trans; eauto|].
    exists ((x, (final_tags tags, sid)) :: outs).
    rewrite created_snapshots_app, Hev, Hsn. simpl. rewrite Hmap.
    repeat split; auto.
    constructor; [|exact Hall]. simpl. split; [exact Hreq|].
    eapply recorded_impl; [|exact Hreq]. intros tag Htag.
    apply Hk', Hk2, Hnew, Htag.
Qed.

(** New volumes: the type asked for is the recorded one, the request
    carries the snapshot's tags, and the new volume keeps them. *)
Lemma volume_rounds {X} (sid dv ty : X -> string) self az (ins : list X) :
  forall w w' evs vids,
    for_each (volume_one ec2 self az) (map sid ins) w = Out w' evs (OK vids) ->
    Forall (fun x => recorded (snapshot_has ec2 w (sid x)) (dv x) (ty x)) ins ->
    keeps_tags ec2 w w' /\
    exists outs : list (X * (list Tag * string)),
      map fst outs = ins /\
      created_volumes evs =
        map (fun o => mkNewVolume az true (key self) (sid (fst o)) (ty (fst o))
                        (fst (snd o)) (snd (snd o))) outs /\
      vids = map (fun o => snd (snd o)) outs /\
      Forall (fun o =>
                recorded (fun tag => holds tag (fst (snd o)))
                  (dv (fst o)) (ty (fst o)) /\
                recorded (volume_has ec2 w' (snd (snd o)))
                  (dv (fst o)) (ty (fst o))) outs.
Proof.
  induction ins as [|x ins IH]; intros w w' evs vids H Hpre.
  - apply for_each_nil_inv in H as (-> & -> & ->).
    split; [apply keeps_tags_refl|]. exists []. repeat split; constructor.
  - simpl in H.
    apply for_each_cons_inv in H as (w1 & e1 & vid & e2 & vids' & Hx & H & -> & ->).
    apply volume_one_OK in Hx as (tags & wa & Hread & Hcreate & Hwait & ->).
    apply Forall_cons in Hpre as [Hx Hpre].
    destruct (create_volume_stores _ laws _ _ _ _ _ _ _ _ _ Hcreate) as [Hnew Hk1].
    pose proof (wait_available_keeps _ laws _ _ _ _ _ _ Hwait) as Hk2.
    pose proof (keeps_tags_trans _ _ _ _ Hk1 Hk2) as Hk.
    assert (Hpre' : Forall (fun x => recorded (snapshot_has ec2 w1 (sid x))
                                    (dv x) (ty x)) ins).
    { eapply List.Forall_impl; [|exact Hpre]. intros y.
      apply recorded_impl. intros tag. apply Hk. }
    destruct (IH _ _ _ _ H Hpre') as (Hk' & outs & Hmap & Hev & Hsn & Hall).
    assert (Hreq : recorded (fun tag => holds tag tags) (dv x) (ty x)).
    { eapply recorded_impl; [|exact Hx].
      intros tag Htag. eapply snapshot_has_read; eauto. }
    assert (Hty : tag_value "volume-type" tags = ty x).
    { destruct Hreq as [_ Ht]. now apply holds_tag_value in Ht. }
    split; [eapply keeps_tags_trans; eauto|].
    exists ((x, (tags, vid)) :: outs).
    rewrite created_volumes_app, Hev, Hsn, Hty. simpl. rewrite Hmap.
    repeat split; auto.
    constructor; [|exact Hall]. simpl. split; [exact Hreq|].
    eapply recorded_impl; [|exact Hreq]. intros tag Htag.
    apply Hk', Hk2, Hnew, Htag.
Qed.

(** Attaching: the device asked for is the recorded one. *)
Lemma attach_rounds {X} (vid dv ty : X -> string) self (ins : list X) :
  forall w w' evs us,
    for_each (attach_one ec2 self) (map vid ins) w = Out w' evs (OK us) ->
    Forall (fun x => recorded (volume_has ec2 w (vid x)) (dv x) (ty x)) ins ->
    keeps_tags ec2 w w' /\
    attached evs = map (fun x => (dv x, instance_id self, vid x)) ins.
Proof.
  induction ins as [|x ins IH]; intros w w' evs us H Hpre.
  - apply for_each_nil_inv in H as (-> & -> & ->).
    split; [apply keeps_tags_refl|reflexivity].
  - simpl in H.
    apply for_each_cons_inv in H as (w1 & e1 & [] & e2 & us' & Hx & H & -> & ->).
    apply attach_one_OK in Hx as (tags & Hread & Hattach & ->).
    apply Forall_cons in Hpre as [[Hd _] Hpre].
    pose proof (attach_keeps _ laws _ _ _ _ _ _ Hattach) as Hk.
    assert (Hpre' : Forall (fun x => recorded (volume_has ec2 w1 (vid x))
                                    (dv x) (ty x)) ins).
    { eapply List.Forall_impl; [|exact Hpre]. intros y.
      apply recorded_impl. intros tag. apply Hk. }
    destruct (IH _ _ _ _ H Hpre') as (Hk' & Hev).
    assert (Hdev : tag_value "device-name" tags = dv x).
    { eapply volume_has_read in Hd; [|exact Hread].
      now apply holds_tag_value in Hd. }
    split; [eapply keeps_tags_trans; eauto|].
    rewrite attached_app, Hev, Hdev. reflexivity.
Qed.

Lemma delete_rounds_keep l :
  forall w w' evs us,
    for_each (delete_one ec2) l w = Out w' evs (OK us) ->
    keeps_volume_tags ec2 w w'.
Proof.
  induction l as [|s l IH]; intros w w' evs us H.
  - apply for_each_nil_inv in H as (-> & _ & _). now intros v tag.
  - apply for_each_cons_inv in H as (w1 & e1 & [] & e2 & us' & Hx & H & _ & _).
    apply delete_one_OK in Hx as (Hdel & _).
    eapply keeps_volume_tags_trans; [|eapply IH; eauto].
    eapply delete_snapshot_keeps; eauto.
Qed.

Lemma stop_instance_same_listing self w w' evs u :
  stop_instance ec2 self w = Out w' evs (OK u) -> same_listing ec2 w w'.
Proof.
  intros H. apply stop_instance_OK in H as (w1 & Hstop & Hwait & _).
  eapply same_listing_trans.
  - eapply stop_same_listing; eauto.
  - eapply wait_stopped_same_listing; eauto.
Qed.

Lemma start_instance_keeps self w w' evs u :
  start_instance ec2 self w = Out w' evs (OK u) -> keeps_volume_tags ec2 w w'.
Proof.
  intros H. apply start_instance_OK in H as (w1 & Hstart & Hwait & _).
  eapply keeps_volume_tags_trans.
  - eapply start_keeps; eauto.
  - eapply wait_status_ok_keeps; eauto.
Qed.

(** C2. Against a provider that keeps tags as [TagFaithful] says, a
    run of [start_encryption] that goes through turns the list of
    unencrypted volumes found at its start, position by position, into
    one snapshot, one volume created from that snapshot with
    [Encrypted=True] and the original's type, and one accepted attach
    request for that volume at the device the original was attached at;
    no other snapshot, volume or attachment is made. The [device-name]
    and [volume-type] tags recorded before detaching are in the snapshot
    request, in the volume request, and on the replacement volume when
    the run ends. *)
Theorem every_volume_is_replaced (self : EncryptEC2) (w w' : W)
    (evs : list Event) (volumes : list Volume) :
  _pre_checks_passed self = true ->
  start_encryption ec2 self w = Out w' evs (OK tt) ->
  result_of (get_ebs_list ec2 self w) = OK volumes ->
  List.NoDup (map VolumeId volumes) ->
  replaced_one_for_one ec2 self w' evs volumes.
Proof.
  intros Hp Hrun Hvols Hnd. unfold replaced_one_for_one.
  destruct (start_encryption_stages ec2 self w w' evs tt Hp Hrun)
    as [vols az snaps nvols w_stop w_det w_snap w_vol w_att w_start
          e_list e_stop e_det e_snap e_vol e_att e_start e_del
          Hl Haz Hs Hd Hsn Hv Ha Hst Hdel ->].
  rewrite Hl in Hvols. injection Hvols as ->.
  destruct (stage_traces ec2 _ _ _ _ _ _ _ _ _ _ _ _ _ _ _ _ _ _ _ _ _ _
              Hl Hs Hd Hsn Hv Ha Hst Hdel) as (T1 & T2 & T3 & _).
  cbv zeta in T1, T2, T3. rewrite T1, T2, T3. clear T1 T2 T3.
  (* the instance has the same volumes once stopped *)
  pose proof (stop_instance_same_listing _ _ _ _ _ Hs) as Hsame.
  unfold detach_volume in Hd.
  apply bind_OK_inv in Hd as (wl & el & vols' & ed & Hl' & Hd & _).
  assert (wl = w_stop) as ->
    by exact (preserves_outcome _ _ _ _ _ (get_ebs_list_preserves ec2 self) Hl').
  assert (vols' = volumes) as ->.
  { pose proof (get_ebs_list_same_listing ec2 self _ _ Hsame) as E.
    rewrite Hl, Hl' in E. simpl in E. now injection E. }
  apply bind_OK_inv in Hd as (wd & ed1 & us & ed2 & Hd & Hret & _).
  apply ret_inv in Hret as (-> & _ & _).
  (* detach, snapshot, create, attach *)
  destruct (detach_rounds self volumes Hnd _ _ _ _ Hd) as [(outs0 & M0 & F0) _].
  subst volumes. rewrite map_map in Hsn.
  assert (F0' : Forall (fun o : Volume * string =>
                          recorded (volume_has ec2 wd (VolumeId (fst o)))
                            (snd o) (VolumeType (fst o))) outs0).
  { eapply List.Forall_impl; [|exact F0]. now intros o [_ H]. }
  destruct (snapshot_rounds (fun o => VolumeId (fst o)) snd
              (fun o => VolumeType (fst o)) self outs0 _ _ _ _ Hsn F0')
    as (K1 & outs1 & M1 & E1 & -> & F1).
  unfold create_volume in Hv.
  apply bind_OK_inv in Hv as (wv & ev1 & vids & ev2 & Hv & Hret & ->).
  apply bind_OK_inv in Hret as (wp & ep & [] & er & Hprint & Hret & ->).
  apply print_inv in Hprint as (-> & ->). apply ret_inv in Hret as (-> & -> & ->).
  assert (F1' : Forall (fun o : Volume * string * (list Tag * string) =>
                          recorded (snapshot_has ec2 w_snap (snd (snd o)))
                            (snd (fst o)) (VolumeType (fst (fst o)))) outs1).
  { eapply List.Forall_impl; [|exact F1]. now intros o [_ H]. }
  destruct (volume_rounds (fun o => snd (snd o)) (fun o => snd (fst o))
              (fun o => VolumeType (fst (fst o))) self az outs1 _ _ _ _ Hv F1')
    as (K2 & outs2 & M2 & E2 & -> & F2).
  unfold attach_volume in Ha.
  apply bind_OK_inv in Ha as (wa & ea1 & us' & ea2 & Ha & Hret & ->).
  apply bind_OK_inv in Hret as (wp & ep & [] & er & Hprint & Hret & ->).
  apply print_inv in Hprint as (-> & ->). apply ret_inv in Hret as (-> & -> & _).
  assert (F2' : Forall (fun o : Volume * string * (list Tag * string) *
                                (list Tag * string) =>
                          recorded (volume_has ec2 wv (snd (snd o)))
                            (snd (fst (fst o))) (VolumeType (fst (fst (fst o)))))
                  outs2).
  { eapply List.Forall_impl; [|exact F2]. now intros o [_ H]. }
  destruct (attach_rounds (fun o => snd (snd o)) (fun o => snd (fst (fst o)))
              (fun o => VolumeType (fst (fst (fst o)))) self outs2 _ _ _ _ Ha F2')
    as (K3 & E3).
  pose proof (start_instance_keeps _ _ _ _ _ Hst) as K4.
  unfold delete_snapshots in Hdel.
  apply bind_OK_inv in Hdel as (wdel & edel & us'' & er & Hdel & Hret & _).
  apply ret_inv in Hret as (-> & _ & _).
  pose proof (delete_rounds_keep _ _ _ _ _ Hdel) as K5.
  (* assemble *)
  exists (map (fun o : Volume * string * (list Tag * string) * (list Tag * string) =>
                 mkReplacement (fst (fst (fst o))) (snd (fst (fst o)))
                   (snd (snd (fst o))) (fst (snd (fst o)))
                   (snd (snd o)) (fst (snd o))) outs2), az.
  rewrite !map_map. simpl.
  rewrite created_volumes_app, attached_app, E1, E2, E3. simpl.
  rewrite !app_nil_r. subst outs1 outs0. rewrite !map_map.
  repeat split; auto.
  apply Forall_map. rewrite List.Forall_forall. intros o Ho. simpl.
  rewrite List.Forall_forall in F0, F1, F2.
  destruct (F2 o Ho) as [R2 R2'].
  destruct (F1 (fst o) (in_map fst _ _ Ho)) as [R1 _].
  destruct (F0 (fst (fst o)) (in_map fst _ _ (in_map fst _ _ Ho))) as [R0 _].
  repeat split; try apply R0; try apply R1; try apply R2;
    apply K5, K4, K3; apply R2'.
Qed.

End TagTravel.

(** ** The small provider keeps tags *)

Section MockLaws.
Import Mock.

Lemma attribute_Some stored tags :
  attribute stored = Some tags <-> stored = tags /\ tags <> [].
Proof.
  destruct stored as [|t stored]; simpl; split.
  - discriminate.
  - now intros [<- H].
  - now intros [= <-].
  - now intros [<- _].
Qed.

Lemma holds_nonempty tag tags : holds tag tags -> tags <> [].
Proof. intros [Hin _] ->. destruct Hin. Qed.

Lemma mock_volume_tags w v tags :
  volume_tags w v = inr (Some tags) <->
  exists r, volumes w !! v = Some r /\ v_tags r = tags /\ tags <> [].
Proof.
  unfold volume_tags. destruct (volumes w !! v) as [r|]; split.
  - intros [= E]. apply attribute_Some in E. eauto.
  - intros (r' & [= <-] & E). do 2 f_equal. now apply attribute_Some.
  - discriminate.
  - now intros (r' & [=] & _).
Qed.

Lemma mock_snapshot_tags w s tags :
  snapshot_tags w s = inr (Some tags) <->
  snapshots w !! s = Some tags /\ tags <> [].
Proof.
  unfold snapshot_tags. destruct (snapshots w !! s) as [t|]; split.
  - intros [= E]. apply attribute_Some in E as [-> H]. now split.
  - intros [[= ->] H]. do 2 f_equal. now apply attribute_Some.
  - discriminate.
  - now intros [[=] _].
Qed.

(** Two states with the same tags on every volume and snapshot. *)
Lemma mock_keeps_volume_tags w w' :
  (forall v r, volumes w !! v = Some r ->
               exists r', volumes w' !! v = Some r' /\ v_tags r' = v_tags r) ->
  keeps_volume_tags ec2 w w'.
Proof.
  intros Hv v tag (tags & E & H). exists tags. split; [|exact H].
  simpl in *. apply mock_volume_tags in E as (r & E & <- & Hne).
  apply mock_volume_tags. destruct (Hv _ _ E) as (r' & E' & Ht). eauto.
Qed.

Lemma mock_keeps_tags w w' :
  (forall v r, volumes w !! v = Some r ->
               exists r', volumes w' !! v = Some r' /\ v_tags r' = v_tags r) ->
  (forall s tags, snapshots w !! s = Some tags -> snapshots w' !! s = Some tags) ->
  keeps_tags ec2 w w'.
Proof.
  intros Hv Hs. split; [now apply mock_keeps_volume_tags|].
  - intros s tag (tags & E & H). exists tags. split; [|exact H].
    simpl in *. apply mock_snapshot_tags. apply mock_snapshot_tags in E as [E Hne].
    auto.
Qed.

Lemma has_key_spec tags k :
  has_key tags k = true <-> exists t, In t tags /\ Key t = k.
Proof.
  unfold has_key. rewrite existsb_exists. split; intros (t & Hin & H); exists t;
    (split; [exact Hin|]); now apply String.eqb_eq.
Qed.

Lemma holds_upsert tag new old : holds tag new -> holds tag (upsert new old).
Proof.
  intros [Hin Huniq]. unfold upsert. split.
  - apply in_or_app. now right.
  - intros t [Ht|Ht]%in_app_or E; [|now apply Huniq].
    apply List.filter_In in Ht as [_ Ht]. apply negb_true_iff in Ht.
    assert (has_key new (Key t) = true) by (apply has_key_spec; exists tag; auto).
    congruence.
Qed.

Lemma mock_tag_faithful : TagFaithful ec2.
Proof.
  constructor; simpl.
  - (* stop_instances *)
    intros w id w' r. unfold stop_instances.
    destruct (instances w !! id); intros [= <-]; now split.
  - (* wait_instance_stopped *)
    intros w id d n w' r. unfold wait_instance_stopped.
    destruct (instances w !! id) as [i|]; [|discriminate].
    destruct (Nat.ltb _ _); intros [= <-]; now split.
  - (* create_tags *)
    intros w v new w' r. unfold create_tags.
    destruct (volumes w !! v) as [vr|] eqn:E; [|discriminate].
    intros [= <-]. split.
    + intros tag Htag. exists (upsert new (v_tags vr)). split.
      * apply mock_volume_tags. simpl. rewrite lookup_insert_eq.
        eexists. repeat split. simpl.
        apply (holds_nonempty tag). now apply holds_upsert.
      * now apply holds_upsert.
    + intros v' tag Hne (tags & E' & H). exists tags. split; [|exact H].
      simpl in *. apply mock_volume_tags in E' as (r' & E' & <- & Hn).
      apply mock_volume_tags. simpl. rewrite lookup_insert_ne by congruence. eauto.
  - (* detach_volume *)
    intros w i v w' r. unfold detach_volume.
    destruct (instances w !! i) as [ir|]; [|discriminate].
    destruct (volumes w !! v) as [vr|] eqn:E; [|discriminate].
    destruct (existsb _ _); [|discriminate]. intros [= <-].
    apply mock_keeps_tags; simpl; [|auto].
    intros v' r' E'. destruct (decide (v = v')) as [<-|Hne].
    + rewrite lookup_insert_eq. rewrite E in E'. injection E' as <-. eauto.
    + rewrite lookup_insert_ne by exact Hne. eauto.
  - (* wait_volume_available *)
    intros w v d n w' r. unfold wait_volume_available.
    destruct (volumes w !! v) as [vr|]; [|discriminate].
    destruct (v_attached vr), n; intros [= <-]. apply keeps_tags_refl.
  - (* create_snapshot *)
    intros w v req w' sid. unfold create_snapshot.
    destruct (volumes w !! v) as [vr|]; [|discriminate].
    destruct (snapshots w !! _) as [old|] eqn:E; [discriminate|].
    intros [= <- <-]. split.
    + intros tag Htag. exists req. split; [|exact Htag].
      apply mock_snapshot_tags. simpl. rewrite lookup_insert_eq.
      split; [reflexivity|]. now apply (holds_nonempty tag).
    + apply mock_keeps_tags; simpl; [eauto|].
      intros s tags Hs. rewrite lookup_insert_ne; [exact Hs|]. congruence.
  - (* wait_snapshot_completed *)
    intros w s d n w' r. unfold wait_snapshot_completed.
    destruct (snapshots w !! s) as [tags|]; [|discriminate].
    destruct n; intros [= <-]. apply keeps_tags_refl.
  - (* create_volume *)
    intros w az enc k snap ty req w' vid. unfold create_volume.
    destruct (snapshots w !! snap) as [st|]; [|discriminate].
    destruct (volumes w !! _) as [old|] eqn:E; [discriminate|].
    destruct (String.eqb ty EmptyString); [discriminate|].
    intros [= <- <-]. split.
    + intros tag Htag. exists req. split; [|exact Htag].
      apply mock_volume_tags. simpl. rewrite lookup_insert_eq.
      eexists. repeat split. now apply (holds_nonempty tag).
    + apply mock_keeps_tags; simpl; [|auto].
      intros v r Hv. rewrite lookup_insert_ne; [eauto|]. congruence.
  - (* attach_volume *)
    intros w dev i v w' r. unfold attach_volume.
    destruct (instances w !! i) as [ir|]; [|discriminate].
    destruct (volumes w !! v) as [vr|] eqn:E; [|discriminate].
    destruct (String.eqb dev EmptyString); [discriminate|].
    destruct (existsb _ _); [discriminate|].
    destruct (v_attached vr); [|discriminate]. intros [= <-].
    apply mock_keeps_tags; simpl; [|auto].
    intros v' r' E'. destruct (decide (v = v')) as [<-|Hne].
    + rewrite lookup_insert_eq. rewrite E in E'. injection E' as <-. eauto.
    + rewrite lookup_insert_ne by exact Hne. eauto.
  - (* start_instances *)
    intros w id w' r. unfold start_instances.
    destruct (instances w !! id); intros [= <-]; now intros v tag.
  - (* wait_instance_status_ok *)
    intros w id d n w' r. unfold wait_instance_status_ok.
    destruct (instances w !! id) as [i|]; [|discriminate].
    destruct n; intros [= <-]. now intros v tag.
  - (* delete_snapshot *)
    intros w s w' r. unfold delete_snapshot.
    destruct (snapshots w !! s) as [tags|]; [|discriminate].
    intros [= <-]. apply mock_keeps_volume_tags; simpl; eauto.
Qed.

End MockLaws.

(** ** The scenario, run *)

(** Instance [i-1] with [vol-a] (unencrypted, [/dev/sda1]) and [vol-b]
    (encrypted): only [vol-a] is tagged and detached, one snapshot and
    one encrypted volume are made, the volume is attached at
    [/dev/sda1], the instance is started and the snapshot deleted. *)
Example scenario_requests :
  mutating_calls (events_of (main Mock.ec2 "i-1" "alias/aws/ebs" Mock.scenario)) =
    [StopInstances "i-1";
     CreateTags "vol-a" [mkTag "device-name" "/dev/sda1"; mkTag "volume-type" "gp2"];
     DetachVolume "i-1" "vol-a";
     CreateSnapshot "vol-a"
       [mkTag "Name" "root"; mkTag "device-name" "/dev/sda1";
        mkTag "volume-type" "gp2"];
     CreateVolume "us-east-1a" true "alias/aws/ebs" "snap-0" "gp2"
       [mkTag "Name" "root"; mkTag "device-name" "/dev/sda1";
        mkTag "volume-type" "gp2"];
     AttachVolume "/dev/sda1" "i-1" "vol-1";
     StartInstances "i-1";
     DeleteSnapshot "snap-0"].
Proof. vm_compute. reflexivity. Qed.

Example scenario_init :
  result_of (__init__ Mock.ec2 "i-1" "alias/aws/ebs" Mock.scenario) = OK Mock.self.
Proof. vm_compute. reflexivity. Qed.

Example scenario_end :
  let w' := world_of (main Mock.ec2 "i-1" "alias/aws/ebs" Mock.scenario) in
  Mock.describe_volumes w' "vol-1" =
    inr [mkVolume "vol-1" "gp2" true [mkAttachment "/dev/sda1"]] /\
  Mock.describe_volumes w' "vol-b" =
    inr [mkVolume "vol-b" "gp3" true [mkAttachment "/dev/sdf"]] /\
  Mock.snapshot_tags w' "snap-0" = inl (Mock.error "InvalidSnapshot.NotFound").
Proof. vm_compute. repeat split. Qed.

(** ** The theorems at the scenario *)

Lemma one_request_per_volume_witness :
  let o := start_encryption Mock.ec2 Cases.pair_self Cases.pair in
  let volumes := [Mock.vol_a; Cases.vol_c] in
  (_pre_checks_passed Cases.pair_self = true /\
   o = Out (world_of o) (events_of o) (OK tt) /\
   result_of (get_ebs_list Mock.ec2 Cases.pair_self Cases.pair) = OK volumes) /\
  count is_create_snapshot (events_of o) = length volumes /\
  count is_create_volume (events_of o) = length volumes /\
  count is_create_encrypted_volume (events_of o) = length volumes /\
  count is_attach_volume (events_of o) = length volumes /\
  exists w1 w2 e snapshots,
    create_snapshots Mock.ec2 Cases.pair_self (map VolumeId volumes) w1 =
      Out w2 e (OK snapshots) /\
    length snapshots = length volumes /\
    map (fun x => (fst (fst x), snd x)) (created_snapshots e) =
      combine (map VolumeId volumes) snapshots /\
    created_snapshots (events_of o) = created_snapshots e.
Proof.
  intros o volumes.
  assert (H1 : _pre_checks_passed Cases.pair_self = true) by reflexivity.
  assert (H2 : o = Out (world_of o) (events_of o) (OK tt))
    by (vm_compute; reflexivity).
  assert (H3 : result_of (get_ebs_list Mock.ec2 Cases.pair_self Cases.pair) =
               OK volumes) by (vm_compute; reflexivity).
  split; [exact (conj H1 (conj H2 H3))|].
  exact (one_request_per_volume Mock.ec2 Cases.pair_self Cases.pair _ _ _ H1 H2 H3).
Defined.

Lemma every_volume_is_replaced_witness :
  let o := start_encryption Mock.ec2 Mock.self Mock.scenario in
  (TagFaithful Mock.ec2 /\
   _pre_checks_passed Mock.self = true /\
   o = Out (world_of o) (events_of o) (OK tt) /\
   result_of (get_ebs_list Mock.ec2 Mock.self Mock.scenario) = OK [Mock.vol_a] /\
   List.NoDup (map VolumeId [Mock.vol_a])) /\
  replaced_one_for_one Mock.ec2 Mock.self (world_of o) (events_of o) [Mock.vol_a].
Proof.
  assert (H1 : _pre_checks_passed Mock.self = true) by reflexivity.
  assert (H2 : start_encryption Mock.ec2 Mock.self Mock.scenario =
               Out (world_of (start_encryption Mock.ec2 Mock.self Mock.scenario))
                 (events_of (start_encryption Mock.ec2 Mock.self Mock.scenario))
                 (OK tt)) by (vm_compute; reflexivity).
  assert (H3 : result_of (get_ebs_list Mock.ec2 Mock.self Mock.scenario) =
               OK [Mock.vol_a]) by (vm_compute; reflexivity).
  assert (H4 : List.NoDup (map VolumeId [Mock.vol_a])).
  { simpl. constructor; [intros []|constructor]. }
  split; [exact (conj mock_tag_faithful (conj H1 (conj H2 (conj H3 H4))))|].
  exact (every_volume_is_replaced Mock.ec2 mock_tag_faithful Mock.self
           Mock.scenario _ _ _ H1 H2 H3 H4).
Defined.

Lemma snapshot_tags_exclude_reserved_witness :
  In (Req (CreateSnapshot "vol-a" [mkTag "Name" "root"]) (Created "snap-0"))
     (events_of (create_snapshots Mock.ec2 Mock.self ["vol-a"] Mock.scenario)) /\
  exists w1 tags,
    Mock.volume_tags w1 "vol-a" = inr (Some tags) /\
    [mkTag "Name" "root"] = final_tags tags /\
    (forall tag, In tag tags -> String.prefix "aws" (Key tag) = true ->
                 ~ In tag [mkTag "Name" "root"]) /\
    (forall tag, In tag tags -> String.prefix "aws" (Key tag) = false ->
                 In tag [mkTag "Name" "root"]) /\
    (forall tag, In tag [mkTag "Name" "root"] -> In tag tags).
Proof.
  assert (H : In (Req (CreateSnapshot "vol-a" [mkTag "Name" "root"])
                    (Created "snap-0"))
                (events_of (create_snapshots Mock.ec2 Mock.self ["vol-a"]
                              Mock.scenario))).
  { vm_compute. repeat (first [left; reflexivity | right]). }
  split; [exact H|].
  exact (snapshot_tags_exclude_reserved Mock.ec2 Mock.self ["vol-a"]
           Mock.scenario "vol-a" [mkTag "Name" "root"] (Created "snap-0") H).
Defined.

Lemma all_encrypted_skips_witness :
  result_of (get_ebs_list Mock.ec2 Mock.self Mock.all_encrypted) = OK [] /\
  result_of (pre_checks Mock.ec2 Mock.self Mock.all_encrypted) = OK (Some false) /\
  result_of (main Mock.ec2 "i-1" "alias/aws/ebs" Mock.all_encrypted) = OK tt /\
  mutating_calls
    (events_of (main Mock.ec2 "i-1" "alias/aws/ebs" Mock.all_encrypted)) = [] /\
  world_of (main Mock.ec2 "i-1" "alias/aws/ebs" Mock.all_encrypted) = Mock.all_encrypted.
Proof.
  assert (H : result_of (get_ebs_list Mock.ec2 Mock.self Mock.all_encrypted) = OK [])
    by (vm_compute; reflexivity).
  split; [exact H|].
  exact (all_encrypted_skips Mock.ec2 Mock.self Mock.all_encrypted "alias/aws/ebs" H).
Defined.

Lemma legacy_type_skips_witness :
  let w := Mock.inventory "m1.small" 3 in
  let inst := mkInstance [mkMapping "vol-a"; mkMapping "vol-b"] "m1.small" "us-east-1a" in
  (Mock.describe_instances w "i-1" = inr [mkReservation [inst]] /\
   unsupported_type (InstanceType inst) = true) /\
  (exists checked,
      result_of (pre_checks Mock.ec2 Mock.self w) = OK checked /\
      truthy checked = false) /\
  result_of (main Mock.ec2 "i-1" "alias/aws/ebs" w) = OK tt /\
  mutating_calls (events_of (main Mock.ec2 "i-1" "alias/aws/ebs" w)) = [].
Proof.
  intros w inst.
  assert (H1 : Client.describe_instances Mock.ec2 w (instance_id Mock.self) =
               inr (mkReservation [inst] :: [])) by (vm_compute; reflexivity).
  assert (H2 : Instances (mkReservation [inst]) = inst :: []) by reflexivity.
  assert (H3 : unsupported_type (InstanceType inst) = true) by reflexivity.
  split; [split; [exact H1|exact H3]|].
  exact (legacy_type_skips Mock.ec2 Mock.self w "alias/aws/ebs" _ _ _ _ H1 H2 H3).
Defined.

Lemma stop_timeout_aborts_witness :
  let w := Mock.inventory "t3.micro" 60 in
  let c := WaitInstanceStopped "i-1" 5 60 in
  let e := WaiterError "Max attempts exceeded" in
  (is_wait_stopped c = true /\
   In (Req c (Failed e)) (events_of (main Mock.ec2 "i-1" "alias/aws/ebs" w))) /\
  result_of (main Mock.ec2 "i-1" "alias/aws/ebs" w) = Raise e /\
  (exists reason, e = WaiterError reason) /\
  c = WaitInstanceStopped "i-1" 5 60 /\
  mutating_calls (events_of (main Mock.ec2 "i-1" "alias/aws/ebs" w)) =
    [StopInstances "i-1"] /\
  count is_detach_volume (events_of (main Mock.ec2 "i-1" "alias/aws/ebs" w)) = 0.
Proof.
  intros w c e.
  assert (H1 : is_wait_stopped c = true) by reflexivity.
  assert (H2 : In (Req c (Failed e))
                 (events_of (main Mock.ec2 "i-1" "alias/aws/ebs" w))).
  { vm_compute. repeat (first [left; reflexivity | right]). }
  split; [split; [exact H1|exact H2]|].
  exact (stop_timeout_aborts Mock.ec2 "i-1" "alias/aws/ebs" w c e H1 H2).
Defined.

Lemma unexpected_client_error_is_swallowed_witness :
  let self := mkEncryptEC2 "i-2" "alias/aws/ebs" 5 60 false None in
  let err := Mock.error "InvalidInstanceID.NotFound" in
  (In (Req (DescribeInstances "i-2") (Failed (ClientError err)))
      (events_of (pre_checks Mock.ec2 self Mock.scenario)) /\
   Code err <> "InvalidInstanceID.Malformed") /\
  result_of (pre_checks Mock.ec2 self Mock.scenario) = OK None /\
  In (Printed (LogError err)) (events_of (pre_checks Mock.ec2 self Mock.scenario)) /\
  (exists self',
      result_of (__init__ Mock.ec2 "i-2" "alias/aws/ebs" Mock.scenario) = OK self' /\
      _pre_checks_passed self' = false) /\
  result_of (main Mock.ec2 "i-2" "alias/aws/ebs" Mock.scenario) = OK tt /\
  mutating_calls (events_of (main Mock.ec2 "i-2" "alias/aws/ebs" Mock.scenario)) = [].
Proof.
  intros self err.
  assert (H1 : In (Req (DescribeInstances "i-2") (Failed (ClientError err)))
                 (events_of (pre_checks Mock.ec2 self Mock.scenario))).
  { vm_compute. repeat (first [left; reflexivity | right]). }
  assert (H2 : Code err <> "InvalidInstanceID.Malformed") by (simpl; discriminate).
  split; [split; [exact H1|exact H2]|].
  exact (unexpected_client_error_is_swallowed Mock.ec2 self Mock.scenario
           "alias/aws/ebs" _ err H1 H2).
Defined.

Lemma created_snapshots_are_deleted_witness :
  let o := start_encryption Mock.ec2 Mock.self Mock.scenario in
  o = Out (world_of o) (events_of o) (OK tt) /\
  deleted_snapshots (events_of o) = map snd (created_snapshots (events_of o)) /\
  forall v tags sid,
    In (v, tags, sid) (created_snapshots (events_of o)) ->
    In (Req (DeleteSnapshot sid) Done) (events_of o).
Proof.
  assert (H : start_encryption Mock.ec2 Mock.self Mock.scenario =
              Out (world_of (start_encryption Mock.ec2 Mock.self Mock.scenario))
                (events_of (start_encryption Mock.ec2 Mock.self Mock.scenario))
                (OK tt)) by (vm_compute; reflexivity).
  split; [exact H|].
  exact (created_snapshots_are_deleted Mock.ec2 Mock.self Mock.scenario _ _ H).
Defined.

Lemma missing_tag_sends_empty_string_witness :
  let stags := [mkTag "Name" "data"] in
  let w := Mock.untagged in
  let self := Mock.self in
  (for_each (volume_one Mock.ec2 self "us-east-1a") [] w = Out w [] (OK []) /\
   Mock.snapshot_tags w "snap-x" = inr (Some stags) /\
   (forall tag, In tag stags -> Key tag <> "volume-type") /\
   for_each (attach_one Mock.ec2 self) [] w = Out w [] (OK []) /\
   Mock.volume_tags w "vol-x" = inr (Some stags) /\
   (forall tag, In tag stags -> Key tag <> "device-name")) /\
  (exists reply rest,
      events_of (create_volume Mock.ec2 self ([] ++ "snap-x" :: []) "us-east-1a" w) =
        [] ++
        Req (SnapshotTags "snap-x") Done ::
        Req (CreateVolume "us-east-1a" true (key self) "snap-x" EmptyString stags)
          reply :: rest) /\
  result_of (volume_one Mock.ec2 self "us-east-1a" "snap-x" w) =
    match Mock.create_volume w "us-east-1a" true (key self) "snap-x"
            EmptyString stags with
    | (w2, inr vid) =>
        match Mock.wait_volume_available w2 vid (_delay self) (_max_attempts self) with
        | (_, inr _) => OK vid
        | (_, inl reason) => Raise (WaiterError reason)
        end
    | (_, inl err) => Raise (ClientError err)
    end /\
  (exists reply rest,
      events_of (attach_volume Mock.ec2 self ([] ++ "vol-x" :: []) w) =
        [] ++
        Req (VolumeTags "vol-x") Done ::
        Req (AttachVolume EmptyString (instance_id self) "vol-x") reply :: rest) /\
  result_of (attach_one Mock.ec2 self "vol-x" w) =
    match Mock.attach_volume w EmptyString (instance_id self) "vol-x" with
    | (_, inr _) => OK tt
    | (_, inl err) => Raise (ClientError err)
    end.
Proof.
  intros stags w self.
  assert (H0 : for_each (volume_one Mock.ec2 self "us-east-1a") [] w =
               Out w [] (OK [])) by reflexivity.
  assert (H1 : Client.snapshot_tags Mock.ec2 w "snap-x" = inr (Some stags))
    by (vm_compute; reflexivity).
  assert (H2 : forall tag, In tag stags -> Key tag <> "volume-type").
  { intros tag [<-|[]]. simpl. discriminate. }
  assert (H0' : for_each (attach_one Mock.ec2 self) [] w = Out w [] (OK []))
    by reflexivity.
  assert (H3 : Client.volume_tags Mock.ec2 w "vol-x" = inr (Some stags))
    by (vm_compute; reflexivity).
  assert (H4 : forall tag, In tag stags -> Key tag <> "device-name").
  { intros tag [<-|[]]. simpl. discriminate. }
  split; [exact (conj H0 (conj H1 (conj H2 (conj H0' (conj H3 H4)))))|].
  exact (missing_tag_sends_empty_string Mock.ec2 self "us-east-1a"
           [] [] "snap-x" w w [] [] stags [] [] "vol-x" w w [] [] stags
           H0 H1 H2 H0' H3 H4).
Defined.

(** * Further properties of the methods *)

(** ** More on the monad *)

Section MoreMonad.
Context {W : Type}.

Lemma result_try_except {A} (m : M W A) h w :
  result_of (try_except m h w) =
    match result_of (m w) with
    | OK a => OK a
    | Raise e => result_of (h e (world_of (m w)))
    end.
Proof.
  unfold try_except. destruct (m w) as [w1 e1 [a|e]]; simpl; [reflexivity|].
  now destruct (h e w1).
Qed.

Lemma events_try_except {A} (m : M W A) h w :
  events_of (try_except m h w) =
    events_of (m w) ++
    match result_of (m w) with
    | OK _ => []
    | Raise e => events_of (h e (world_of (m w)))
    end.
Proof.
  unfold try_except. destruct (m w) as [w1 e1 [a|e]]; simpl.
  - now rewrite app_nil_r.
  - now destruct (h e w1).
Qed.

(** An exception in one round ends the loop: the rounds after it are
    not run. *)
Lemma for_each_stops {A B} (f : A -> M W B) (x : A) (after : list A) before :
  forall w w1 e1 ys w2 e2 e,
    for_each f before w = Out w1 e1 (OK ys) ->
    f x w1 = Out w2 e2 (Raise e) ->
    for_each f (before ++ x :: after) w = Out w2 (e1 ++ e2) (Raise e).
Proof.
  induction before as [|b before IH]; intros w w1 e1 ys w2 e2 e H Hx.
  - apply for_each_nil_inv in H as (-> & -> & _). simpl.
    now rewrite (bind_Raise _ _ _ _ _ _ Hx).
  - apply for_each_cons_inv in H as (w3 & e3 & y & e4 & ys' & Hb & H & -> & _).
    simpl. rewrite (bind_OK _ _ _ _ _ _ Hb).
    rewrite (bind_Raise _ _ _ _ _ _ (IH _ _ _ _ _ _ _ H Hx)). simpl.
    now rewrite app_assoc.
Qed.

(** An event of [bind m f] comes from [m], or from [f], which then ran
    after [m] returned. *)
Lemma bind_event_cases {A B} (m : M W A) (f : A -> M W B) w ev :
  In ev (events_of (bind m f w)) ->
  In ev (events_of (m w)) \/
  exists w1 e1 a, m w = Out w1 e1 (OK a) /\ In ev (events_of (f a w1)).
Proof.
  rewrite events_bind. intros [H|H]%in_app_or; [now left|]. right.
  destruct (m w) as [w1 e1 [a|e]]; simpl in *; [|destruct H].
  now exists w1, e1, a.
Qed.

End MoreMonad.

(** ** The pre-checks, case by case *)

Section PreChecksCases.
Context {W : Type} (ec2 : Client.t W).

(** What [pre_checks] does with a [ClientError] from its [try]. *)
Lemma pre_checks_caught self w c err :
  In (Req c (Failed (ClientError err))) (events_of (pre_checks ec2 self w)) ->
  if String.eqb (Code err) "InvalidInstanceID.Malformed"
  then result_of (pre_checks ec2 self w) = OK (Some false) /\
       In (Printed (LogInstanceNotFound (instance_id self)))
          (events_of (pre_checks ec2 self w))
  else result_of (pre_checks ec2 self w) = OK None /\
       In (Printed (LogError err)) (events_of (pre_checks ec2 self w)).
Proof.
  remember (pre_checks ec2 self w) as o eqn:Ho.
  rewrite pre_checks_unfold in Ho.
  unfold bind at 1, print at 1, try_except in Ho.
  pose proof (pre_checks_body_fails_through ec2 self w) as Hbody.
  match type of Hbody with
  | context [events_of (?b w)] => destruct (b w) as [w1 e1 [checked|e]]
  end; simpl in Hbody.
  - subst o. simpl. intros [H|H]; [discriminate|]. now apply Hbody in H.
  - assert (Hraised : In (Req c (Failed (ClientError err))) e1 ->
                      e = ClientError err).
    { intros H. apply Hbody in H. now injection H. }
    destruct e as [err'| | | |];
      try (subst o; simpl; intros [H|H]; [discriminate|];
           rewrite app_nil_r in H; now apply Hraised in H).
    assert (Hin : In (Req c (Failed (ClientError err))) (events_of o) ->
                  err' = err).
    { subst o. destruct (String.eqb (Code err') _); simpl;
        (intros [H|H]; [discriminate|]);
        (apply in_app_or in H as [H|[H|[]]]; [|discriminate]);
        apply Hraised in H; now injection H. }
    intros H. pose proof (Hin H) as ->. subst o.
    destruct (String.eqb (Code err) "InvalidInstanceID.Malformed"); simpl;
      (split; [reflexivity|]); right; apply in_or_app; right; now left.
Qed.

(** X1. When the id is rejected as malformed, [pre_checks] prints that the
    instance was not found and returns [False]; the script ends quietly. *)
Theorem malformed_instance_id_is_reported (self : EncryptEC2) (w : W)
    (k : string) (c : Call) (err : ErrorInfo) :
  In (Req c (Failed (ClientError err))) (events_of (pre_checks ec2 self w)) ->
  Code err = "InvalidInstanceID.Malformed" ->
  result_of (pre_checks ec2 self w) = OK (Some false) /\
  In (Printed (LogInstanceNotFound (instance_id self)))
     (events_of (pre_checks ec2 self w)) /\
  result_of (main ec2 (instance_id self) k w) = OK tt /\
  mutating_calls (events_of (main ec2 (instance_id self) k w)) = [].
Proof.
  intros Hin Hcode. pose proof (pre_checks_caught self w c err Hin) as H.
  rewrite Hcode, String.eqb_refl in H. destruct H as [Hr Hp].
  destruct (main_skips ec2 self w (instance_id self) k (Some false))
    as (Hr' & He & _); auto.
  repeat split; auto. rewrite He. apply pre_checks_no_mutation.
Qed.

Lemma pre_checks_true_inv (self : EncryptEC2) (w : W) :
  result_of (pre_checks ec2 self w) = OK (Some true) ->
  (exists v vs, result_of (get_ebs_list ec2 self w) = OK (v :: vs)) /\
  (exists r rs inst insts,
      Client.describe_instances ec2 w (instance_id self) = inr (r :: rs) /\
      Instances r = inst :: insts /\
      unsupported_type (InstanceType inst) = false).
Proof.
  rewrite pre_checks_unfold, result_bind. simpl.
  rewrite result_try_except, result_bind.
  pose proof (get_ebs_list_preserves ec2 self w) as Hw.
  destruct (get_ebs_list ec2 self w) as [w1 e1 [[|v vs]|e]]; simpl in *; subst.
  - discriminate.
  - rewrite !result_bind. unfold describe_instances, read.
    destruct (Client.describe_instances ec2 w (instance_id self)) as [err|resp];
      simpl.
    + destruct (String.eqb (Code err) _); discriminate.
    + unfold first_instance. rewrite !result_bind.
      destruct resp as [|r rs]; simpl; [discriminate|].
      destruct (Instances r) as [|inst insts] eqn:Hi; simpl; [discriminate|].
      destruct (unsupported_type (InstanceType inst)) eqn:Hu; simpl;
        [discriminate|].
      intros _. split; [eauto|]. exists r, rs, inst, insts. auto.
  - destruct e as [err| | | |]; simpl; try discriminate.
    destruct (String.eqb (Code err) _); discriminate.
Qed.

(** X2. [pre_checks] returns [True] exactly when the listing is not empty
    and the type of the first instance described has none of the four
    prefixes. *)
Theorem pre_checks_pass_iff (self : EncryptEC2) (w : W) :
  result_of (pre_checks ec2 self w) = OK (Some true) <->
  (exists v vs, result_of (get_ebs_list ec2 self w) = OK (v :: vs)) /\
  (exists r rs inst insts,
      Client.describe_instances ec2 w (instance_id self) = inr (r :: rs) /\
      Instances r = inst :: insts /\
      unsupported_type (InstanceType inst) = false).
Proof.
  split; [apply pre_checks_true_inv|].
  intros [(v & vs & Hl) (r & rs & inst & insts & Hd & Hi & Hu)].
  rewrite pre_checks_unfold, result_bind. simpl.
  rewrite result_try_except, result_bind.
  pose proof (get_ebs_list_preserves ec2 self w) as Hw.
  destruct (get_ebs_list ec2 self w) as [w1 e1 [vols|e]]; simpl in *;
    [|discriminate].
  injection Hl as ->. subst w1.
  rewrite !result_bind. unfold describe_instances, read. rewrite Hd. simpl.
  unfold first_instance. rewrite !result_bind. simpl. rewrite Hi. simpl.
  now rewrite Hu.
Qed.

(** X3. [describe_instances] answering with no reservation, or with a
    reservation without instances: the [IndexError] of [[0]] is not a
    [ClientError], so it leaves [pre_checks], the constructor and the
    script, after the one describe call. *)
Theorem empty_answer_raises_index_error (self : EncryptEC2) (w : W)
    (k : string) (resp : list Reservation) :
  Client.describe_instances ec2 w (instance_id self) = inr resp ->
  match resp with
  | [] => True
  | r :: _ => Instances r = []
  end ->
  get_ebs_list ec2 self w =
    Out w [Req (DescribeInstances (instance_id self)) Done] (Raise IndexError) /\
  result_of (pre_checks ec2 self w) = Raise IndexError /\
  result_of (main ec2 (instance_id self) k w) = Raise IndexError /\
  calls (events_of (main ec2 (instance_id self) k w)) =
    [DescribeInstances (instance_id self)].
Proof.
  intros Hd Hresp.
  assert (Hl : get_ebs_list ec2 self w =
               Out w [Req (DescribeInstances (instance_id self)) Done]
                 (Raise IndexError)).
  { unfold get_ebs_list, bind, describe_instances, read, first_instance, bind.
    rewrite Hd. destruct resp as [|r rs]; simpl; [reflexivity|].
    now rewrite Hresp. }
  assert (Hp : pre_checks ec2 self w =
               Out w [Printed LogPerformingPreChecks;
                      Req (DescribeInstances (instance_id self)) Done]
                 (Raise IndexError)).
  { rewrite pre_checks_unfold. unfold bind at 1, print at 1, try_except.
    rewrite (bind_Raise _ _ _ _ _ _ Hl). reflexivity. }
  split; [exact Hl|]. split; [now rewrite Hp|].
  rewrite (pre_checks_ext ec2 self
             (mkEncryptEC2 (instance_id self) k 5 60 false None)) in Hp
    by reflexivity.
  unfold main, __init__.
  rewrite (bind_Raise _ _ _ _ _ _ (bind_Raise _ _ _ _ _ _ Hp)).
  split; reflexivity.
Qed.

(** X4. Building the object changes nothing at the provider: it sends
    describe calls only, whatever comes of them. When it returns, the
    fields are the arguments and the constants 5 and 60, and the
    instance description is kept exactly when the pre-checks passed. *)
Theorem constructor_only_reads (iid k : string) (w : W) :
  world_of (__init__ ec2 iid k w) = w /\
  mutating_calls (events_of (__init__ ec2 iid k w)) = [] /\
  forall self,
    result_of (__init__ ec2 iid k w) = OK self ->
    instance_id self = iid /\ key self = k /\
    _delay self = 5 /\ _max_attempts self = 60 /\
    (_pre_checks_passed self = true ->
     result_of (pre_checks ec2 self w) = OK (Some true) /\
     exists resp,
       Client.describe_instances ec2 w iid = inr resp /\
       _ec2_details self = Some resp) /\
    (_pre_checks_passed self = false -> _ec2_details self = None).
Proof.
  split; [apply init_preserves|]. split.
  { apply (allowed_no_mutation is_describe); [apply is_describe_not_mutating|].
    now apply init_only. }
  intros self. unfold __init__. rewrite result_bind.
  pose proof (pre_checks_preserves ec2 (mkEncryptEC2 iid k 5 60 false None) w) as Hw.
  destruct (pre_checks ec2 _ w) as [w1 e1 [checked|e]] eqn:Hp; simpl in *;
    [|discriminate].
  subst w1. destruct checked as [[|]|]; simpl.
  - rewrite !result_bind. simpl. unfold describe_instances, read.
    destruct (Client.describe_instances ec2 w iid) as [err|resp] eqn:Hd; simpl;
      [discriminate|].
    intros [= <-]. simpl. do 4 (split; [reflexivity|]).
    split; [|discriminate]. intros _. split; [|eauto].
    rewrite (pre_checks_ext ec2 _ (mkEncryptEC2 iid k 5 60 false None))
      by reflexivity.
    now rewrite Hp.
  - intros [= <-]. simpl. do 4 (split; [reflexivity|]).
    split; [discriminate|reflexivity].
  - intros [= <-]. simpl. do 4 (split; [reflexivity|]).
    split; [discriminate|reflexivity].
Qed.

(** X5. An object whose pre-checks passed is ready for [start_encryption]:
    on the state it was built on, the provider describes an instance
    for the id, that description is what the object keeps, the listing
    has at least one volume, the type of the described instance is
    supported, and [get_az] returns the zone of the described instance
    without sending a request or raising. *)
Theorem passed_constructor_is_ready (iid k : string) (w : W) (self : EncryptEC2) :
  result_of (__init__ ec2 iid k w) = OK self ->
  _pre_checks_passed self = true ->
  exists v vs r rs inst insts,
    Client.describe_instances ec2 w iid = inr (r :: rs) /\
    Instances r = inst :: insts /\
    _ec2_details self = Some (r :: rs) /\
    result_of (get_ebs_list ec2 self w) = OK (v :: vs) /\
    get_az self w = Out w [] (OK (AvailabilityZone inst)) /\
    unsupported_type (InstanceType inst) = false.
Proof.
  intros Hinit Hpassed. unfold __init__ in Hinit. rewrite result_bind in Hinit.
  pose proof (pre_checks_preserves ec2 (mkEncryptEC2 iid k 5 60 false None) w) as Hw.
  pose proof (pre_checks_true_inv (mkEncryptEC2 iid k 5 60 false None) w) as Hinv.
  destruct (pre_checks ec2 _ w) as [w1 e1 [checked|e]]; simpl in *;
    [|discriminate].
  subst w1. destruct checked as [[|]|]; simpl in Hinit;
    try (injection Hinit as <-; discriminate).
  destruct (Hinv eq_refl) as [(v & vs & Hl) (r & rs & inst & insts & Hd & Hi & Hu)].
  rewrite !result_bind in Hinit. simpl in Hinit.
  unfold describe_instances, read in Hinit. rewrite Hd in Hinit. simpl in Hinit.
  injection Hinit as <-.
  exists v, vs, r, rs, inst, insts. repeat split; auto.
  unfold get_az, first_instance, bind. simpl. now rewrite Hi.
Qed.

End PreChecksCases.

(** ** The listing *)

(** X6. The inner loop of [get_ebs_list] appends [resp['Volumes'][0]], not
    the volume it looks at: a response with one volume gives that volume
    when it is unencrypted; a longer response gives one copy of its
    first volume for each unencrypted volume in it. *)
Theorem unencrypted_repeats_first (first : Volume) (rest : list Volume) :
  unencrypted (first :: rest) =
    repeat first
      (length (List.filter (fun v => negb (Encrypted v)) (first :: rest))) /\
  unencrypted [first] = if Encrypted first then [] else [first].
Proof.
  assert (H : forall l,
             flat_map (fun volume => if Encrypted volume then [] else [first]) l =
             repeat first (length (List.filter (fun v => negb (Encrypted v)) l))).
  { induction l as [|v l IH]; [reflexivity|]. simpl. rewrite IH.
    now destruct (Encrypted v). }
  split.
  - exact (H (first :: rest)).
  - unfold unencrypted. simpl. now destruct (Encrypted first).
Qed.

Section Listing.
Context {W : Type} (ec2 : Client.t W).

Lemma scan_singletons (w : W) (mappings : list BlockDeviceMapping)
    (vols : list Volume) :
  Forall2 (fun ebs v => Client.describe_volumes ec2 w (Ebs_VolumeId ebs) = inr [v])
    mappings vols ->
  for_each
    (fun ebs =>
       bind (describe_volumes ec2 (Ebs_VolumeId ebs))
         (fun resp => ret (unencrypted resp)))
    mappings w =
  Out w (map (fun ebs => Req (DescribeVolumes (Ebs_VolumeId ebs)) Done) mappings)
    (OK (map (fun v => if Encrypted v then [] else [v]) vols)).
Proof.
  induction 1 as [|ebs v mappings vols Hv _ IH]; [reflexivity|].
  simpl. unfold bind at 1 2, describe_volumes at 1, read at 1. rewrite Hv.
  unfold ret at 1. simpl. unfold bind at 1. rewrite IH.
  unfold unencrypted. simpl. now rewrite !app_nil_r.
Qed.

(** X7. When the provider answers each [describe_volumes] with the one
    volume asked for, [get_ebs_list] sends one describe call for the
    instance and one per block device, in order, and returns the
    unencrypted volumes in the order of the block devices. *)
Theorem get_ebs_list_lists_unencrypted (self : EncryptEC2) (w : W)
    (r : Reservation) (rs : list Reservation) (inst : Instance)
    (insts : list Instance) (vols : list Volume) :
  Client.describe_instances ec2 w (instance_id self) = inr (r :: rs) ->
  Instances r = inst :: insts ->
  Forall2 (fun ebs v => Client.describe_volumes ec2 w (Ebs_VolumeId ebs) = inr [v])
    (BlockDeviceMappings inst) vols ->
  get_ebs_list ec2 self w =
    Out w
      (Req (DescribeInstances (instance_id self)) Done ::
       map (fun ebs => Req (DescribeVolumes (Ebs_VolumeId ebs)) Done)
         (BlockDeviceMappings inst))
      (OK (List.filter (fun v => negb (Encrypted v)) vols)).
Proof.
  intros Hd Hi Hv.
  unfold get_ebs_list, bind at 1, describe_instances, read. rewrite Hd.
  unfold bind at 1, first_instance, bind at 1. simpl. rewrite Hi. simpl.
  unfold bind at 1. rewrite (scan_singletons w _ _ Hv). unfold ret. simpl.
  rewrite app_nil_r. do 2 f_equal.
  clear Hv. induction vols as [|v vols IH]; [reflexivity|].
  simpl. rewrite IH. now destruct (Encrypted v).
Qed.

End Listing.

(** ** Detaching *)

Section Detaching.
Context {W : Type} (ec2 : Client.t W).

(** Where an element of [a ++ b] lies. *)
Lemma app_split_at {A} (x : A) (a b pre post : list A) :
  a ++ b = pre ++ x :: post ->
  (exists post', a = pre ++ x :: post' /\ post = post' ++ b) \/
  (exists pre', pre = a ++ pre' /\ b = pre' ++ x :: post).
Proof.
  revert pre. induction a as [|y a IH]; intros pre H; simpl in *.
  - right. now exists pre.
  - destruct pre as [|z pre]; simpl in H.
    + injection H as -> <-. left. now exists a.
    + injection H as -> H. destruct (IH pre H) as [(post' & -> & ->)|(pre' & -> & ->)].
      * left. now exists post'.
      * right. now exists pre'.
Qed.

Lemma tagged_before_detach_nil iid : tagged_before_detach iid [].
Proof. intros [|e pre] post i v r H; discriminate H. Qed.

Lemma tagged_before_detach_app iid a b :
  tagged_before_detach iid a -> tagged_before_detach iid b ->
  tagged_before_detach iid (a ++ b).
Proof.
  intros Ha Hb pre post i v r H.
  apply app_split_at in H as [(post' & H & _)|(pre' & -> & H)].
  - exact (Ha _ _ _ _ _ H).
  - destruct (Hb _ _ _ _ _ H) as (-> & before & dn & vt & ->).
    split; [reflexivity|]. exists (a ++ before), dn, vt. now rewrite app_assoc.
Qed.

Lemma tagged_before_detach_allowed iid K evs :
  (forall c, K c = true -> is_detach_volume c = false) ->
  Forall (allowed K) evs -> tagged_before_detach iid evs.
Proof.
  intros HK Hall pre post i v r ->. exfalso.
  rewrite List.Forall_forall in Hall.
  specialize (Hall (Req (DetachVolume i v) r)
                (in_elt (Req (DetachVolume i v) r) pre post)).
  simpl in Hall. apply HK in Hall. discriminate.
Qed.

Lemma detach_one_tagged self item w :
  tagged_before_detach (instance_id self) (events_of (detach_one ec2 self item w)).
Proof.
  unfold detach_one, bind, index0, ret, raise, request, wait, print.
  destruct (Attachments item) as [|a rest]; simpl;
    [apply tagged_before_detach_nil|].
  repeat case_answer; simpl; intros pre post i v r H;
    repeat (destruct pre as [|? pre]; simpl in H; try discriminate H);
    injection H as <- <- <- <- <-;
    (split; [reflexivity|]);
    exists [], (Device a), (VolumeType item); reflexivity.
Qed.

Lemma for_each_tagged {A B} iid (f : A -> M W B) xs :
  (forall x w, tagged_before_detach iid (events_of (f x w))) ->
  forall w, tagged_before_detach iid (events_of (for_each f xs w)).
Proof.
  intros Hf. induction xs as [|x xs IH]; intros w; simpl.
  - apply tagged_before_detach_nil.
  - rewrite events_bind. apply tagged_before_detach_app; [apply Hf|].
    destruct (result_of (f x w)); [|apply tagged_before_detach_nil].
    rewrite events_bind. apply tagged_before_detach_app; [apply IH|].
    destruct (result_of (for_each f xs _)); apply tagged_before_detach_nil.
Qed.

(** X8. Every detach request that [detach_volume] sends names
    [self.instance_id] and comes right after the accepted request that
    writes the [device-name] and [volume-type] tags on the same volume:
    only the line printed for the volume is between the two. *)
Theorem detach_only_after_tagging (self : EncryptEC2) (w : W)
    (pre post : list Event) (i v : string) (r : Reply) :
  events_of (detach_volume ec2 self w) =
    pre ++ Req (DetachVolume i v) r :: post ->
  i = instance_id self /\
  exists before device_name volume_type,
    pre = before ++
          [Req (CreateTags v [mkTag "device-name" device_name;
                              mkTag "volume-type" volume_type]) Done;
           Printed (LogDetaching v device_name)].
Proof.
  revert pre post i v r.
  change (tagged_before_detach (instance_id self)
            (events_of (detach_volume ec2 self w))).
  unfold detach_volume. rewrite events_bind.
  apply tagged_before_detach_app.
  - apply (tagged_before_detach_allowed _ is_describe); [now intros []|].
    apply (get_ebs_list_only ec2 is_describe self (fun c Hc => Hc) w).
  - destruct (result_of (get_ebs_list ec2 self w)) as [volumes|e];
      [|apply tagged_before_detach_nil].
    rewrite events_bind. apply tagged_before_detach_app.
    + apply for_each_tagged. intros item w1. apply detach_one_tagged.
    + destruct (result_of (for_each _ _ _)); apply tagged_before_detach_nil.
Qed.

Lemma detach_rounds_requests self items :
  forall w w' evs us,
    for_each (detach_one ec2 self) items w = Out w' evs (OK us) ->
    Forall (fun item => Attachments item <> []) items /\
    mutating_calls evs =
      flat_map
        (fun item =>
           [CreateTags (VolumeId item)
              [mkTag "device-name" (first_device item);
               mkTag "volume-type" (VolumeType item)];
            DetachVolume (instance_id self) (VolumeId item)])
        items.
Proof.
  induction items as [|item items IH]; intros w w' evs us H.
  - apply for_each_nil_inv in H as (_ & -> & _). split; [constructor|reflexivity].
  - apply for_each_cons_inv in H as (w1 & e1 & y & e2 & ys' & Hx & H & -> & _).
    apply detach_one_OK in Hx as (a & rest & wa & wb & Hatt & _ & _ & _ & ->).
    destruct (IH _ _ _ _ H) as [Hall Hcalls].
    split; [constructor; [now rewrite Hatt|exact Hall]|].
    assert (Hfd : first_device item = Device a)
      by (unfold first_device; now rewrite Hatt).
    rewrite mutating_calls_app, Hcalls. simpl. now rewrite Hfd.
Qed.

(** X9. When [detach_volume] returns, what it changed is, for each volume of
    its listing in order, the two tags (the first attachment's device
    and the volume's type) and then the detachment from
    [self.instance_id]; every listed volume had an attachment. *)
Theorem detach_volume_requests (self : EncryptEC2) (w w' : W) (evs : list Event) :
  detach_volume ec2 self w = Out w' evs (OK tt) ->
  exists volumes,
    result_of (get_ebs_list ec2 self w) = OK volumes /\
    Forall (fun item => Attachments item <> []) volumes /\
    mutating_calls evs =
      flat_map
        (fun item =>
           [CreateTags (VolumeId item)
              [mkTag "device-name" (first_device item);
               mkTag "volume-type" (VolumeType item)];
            DetachVolume (instance_id self) (VolumeId item)])
        volumes.
Proof.
  unfold detach_volume. intros H.
  apply bind_OK_inv in H as (w1 & e1 & volumes & e2 & Hl & H & ->).
  apply bind_OK_inv in H as (w2 & e3 & us & e4 & Hd & Hret & ->).
  apply ret_inv in Hret as (_ & -> & _).
  assert (w1 = w) as ->
    by exact (preserves_outcome _ _ _ _ _ (get_ebs_list_preserves ec2 self) Hl).
  destruct (detach_rounds_requests self volumes _ _ _ _ Hd) as [Hall Hcalls].
  exists volumes. rewrite Hl. repeat split; auto.
  rewrite !mutating_calls_app, Hcalls, app_nil_r.
  rewrite (allowed_no_mutation is_describe e1 is_describe_not_mutating); [reflexivity|].
  exact (only_outcome _ _ _ _ _ _
           (get_ebs_list_only ec2 is_describe self (fun c Hc => Hc)) Hl).
Qed.

(** X10. A listed volume that has no attachment stops [detach_volume] with
    an [IndexError] before anything is asked about it: the volumes before
    it stay tagged and detached, the ones after it are not touched. *)
Theorem detach_without_attachment_raises (self : EncryptEC2) (w w1 : W)
    (before after : list Volume) (item : Volume) (el e1 : list Event)
    (us : list unit) :
  get_ebs_list ec2 self w = Out w el (OK (before ++ item :: after)) ->
  for_each (detach_one ec2 self) before w = Out w1 e1 (OK us) ->
  Attachments item = [] ->
  detach_volume ec2 self w = Out w1 (el ++ e1) (Raise IndexError).
Proof.
  intros Hl Hb Hatt.
  assert (Hx : detach_one ec2 self item w1 = Out w1 [] (Raise IndexError)).
  { unfold detach_one. now rewrite Hatt. }
  unfold detach_volume. rewrite (bind_OK _ _ _ _ _ _ Hl).
  rewrite (bind_Raise _ _ _ _ _ _ (for_each_stops _ _ _ _ _ _ _ _ _ _ _ Hb Hx)).
  simpl. now rewrite app_nil_r.
Qed.

End Detaching.

(** ** Reading tags *)

(** X11. The loops that read one tag keep the value of the last tag with the
    key. *)
Theorem tag_value_last_wins (k : string) (before after : list Tag) (t : Tag) :
  Key t = k ->
  (forall t', In t' after -> Key t' <> k) ->
  tag_value k (before ++ t :: after) = Value t.
Proof.
  intros Hk Hafter. unfold tag_value. rewrite fold_left_app. simpl.
  rewrite <- Hk, String.eqb_refl. rewrite Hk.
  generalize (Value t). induction after as [|a after IH]; intros acc; simpl.
  - reflexivity.
  - destruct (String.eqb_spec (Key a) k) as [E|_].
    + exfalso. apply (Hafter a); [now left|exact E].
    + apply IH. intros t' Ht'. apply Hafter. now right.
Qed.

(** X12. The filter of [create_snapshots] does not change what the later
    loops read for a key that does not start with [aws]; the two keys
    the workflow uses are such keys. *)
Theorem final_tags_keeps_tag_value (k : string) (tags : list Tag) :
  String.prefix "aws" k = false ->
  tag_value k (final_tags tags) = tag_value k tags.
Proof.
  intros Hk. unfold tag_value.
  assert (H : forall acc,
             fold_left
               (fun acc tag => if String.eqb (Key tag) k then Value tag else acc)
               (final_tags tags) acc =
             fold_left
               (fun acc tag => if String.eqb (Key tag) k then Value tag else acc)
               tags acc).
  { unfold final_tags. induction tags as [|t tags IH]; intros acc; [reflexivity|].
    simpl. destruct (String.prefix "aws" (Key t)) eqn:Hp; simpl.
    - rewrite IH. destruct (String.eqb_spec (Key t) k) as [E|_]; [|reflexivity].
      congruence.
    - apply IH. }
  apply H.
Qed.

(** ** The loops, round by round *)

Section Rounds.
Context {W : Type} (ec2 : Client.t W).

Lemma created_snapshots_length_le (evs : list Event) :
  length (created_snapshots evs) <= count is_create_snapshot evs.
Proof.
  induction evs as [|ev evs IH]; [reflexivity|].
  change (ev :: evs) with ([ev] ++ evs).
  rewrite created_snapshots_app, count_app, length_app.
  assert (length (created_snapshots [ev]) <= count is_create_snapshot [ev]).
  { destruct ev as [[] []|]; unfold count; simpl; lia. }
  lia.
Qed.

Lemma snapshot_one_count self v w :
  count is_create_snapshot (events_of (snapshot_one ec2 self v w)) <= 1 /\
  deleted_snapshots (events_of (snapshot_one ec2 self v w)) = [].
Proof.
  unfold snapshot_one, volume_resource_tags, iterate, bind, read, request, wait,
    print, ret, raise.
  repeat case_answer; unfold count; simpl; split; auto; lia.
Qed.

(** X13. When the round for one volume raises, [create_snapshots] raises the
    same exception and sends nothing for the volumes after it. The
    snapshots made so far (with at most one more, made in the failing
    round) stay at the provider: their ids are not returned and no
    delete request is sent for them. *)
Theorem create_snapshots_stops_at_failure (self : EncryptEC2)
    (before after : list string) (v : string) (w w1 w2 : W)
    (e1 e2 : list Event) (ids : list string) (e : exn) :
  create_snapshots ec2 self before w = Out w1 e1 (OK ids) ->
  snapshot_one ec2 self v w1 = Out w2 e2 (Raise e) ->
  create_snapshots ec2 self (before ++ v :: after) w =
    Out w2 (e1 ++ e2) (Raise e) /\
  (exists extra,
      map snd (created_snapshots (e1 ++ e2)) = ids ++ extra /\
      length extra <= 1) /\
  deleted_snapshots (e1 ++ e2) = [].
Proof.
  intros Hb Hx. split; [|split].
  - unfold create_snapshots in *. eapply for_each_stops; eauto.
  - destruct (create_snapshots_order ec2 self before _ _ _ _ Hb) as [_ Hids].
    exists (map snd (created_snapshots e2)).
    rewrite created_snapshots_app, map_app, Hids. split; [reflexivity|].
    rewrite length_map.
    pose proof (created_snapshots_length_le e2) as Hle.
    pose proof (snapshot_one_count self v w1) as [Hc _].
    rewrite Hx in Hc. simpl in Hc. lia.
  - rewrite deleted_snapshots_app.
    pose proof (only_outcome _ _ _ _ _ _ (create_snapshots_only ec2 self before) Hb)
      as A1.
    rewrite (no_snapshot_deleted snapshot_kinds e1 ltac:(now intros []) A1).
    pose proof (snapshot_one_count self v w1) as [_ Hd].
    now rewrite Hx in Hd.
Qed.

(** X14. When the provider refuses to delete a snapshot, [delete_snapshots]
    raises that [ClientError]: the snapshots before it were asked to be
    deleted, the ones after it get no delete request. *)
Theorem delete_snapshots_stops_at_failure (before after : list string)
    (s : string) (w w1 w2 : W) (e1 : list Event) (us : list unit)
    (err : ErrorInfo) :
  for_each (delete_one ec2) before w = Out w1 e1 (OK us) ->
  Client.delete_snapshot ec2 w1 s = (w2, inl err) ->
  delete_snapshots ec2 (before ++ s :: after) w =
    Out w2 (e1 ++ [Req (DeleteSnapshot s) (Failed (ClientError err))])
      (Raise (ClientError err)) /\
  deleted_snapshots
    (e1 ++ [Req (DeleteSnapshot s) (Failed (ClientError err))]) =
    before ++ [s].
Proof.
  intros Hb Hdel.
  assert (Hx : delete_one ec2 s w1 =
               Out w2 [Req (DeleteSnapshot s) (Failed (ClientError err))]
                 (Raise (ClientError err))).
  { unfold delete_one, bind, request. now rewrite Hdel. }
  split.
  - unfold delete_snapshots.
    now rewrite (bind_Raise _ _ _ _ _ _
                   (for_each_stops _ _ _ _ _ _ _ _ _ _ _ Hb Hx)).
  - rewrite deleted_snapshots_app.
    now destruct (delete_rounds ec2 before _ _ _ _ Hb) as [-> _].
Qed.

Lemma volume_one_request self az s w az' enc k s' ty tags r :
  In (Req (CreateVolume az' enc k s' ty tags) r)
     (events_of (volume_one ec2 self az s w)) ->
  az' = az /\ enc = true /\ k = key self /\ s' = s /\
  Client.snapshot_tags ec2 w s = inr (Some tags) /\
  ty = tag_value "volume-type" tags.
Proof.
  unfold volume_one, snapshot_resource_tags, iterate, bind, read, request, wait,
    ret, raise.
  repeat case_answer; subst; simpl;
    intros H; repeat (destruct H as [H|H]; try discriminate H);
    try contradiction; injection H as <- <- <- <- <- <- _; auto 10.
Qed.

(** X15. Every [create_volume] request that [create_volume] sends, whatever
    becomes of the call, asks for an encrypted volume with [self.key] in
    the zone given, from one of the snapshots given, with the tags read
    from that snapshot as they are and the type read from them. *)
Theorem create_volume_requests_encrypted (self : EncryptEC2)
    (snapshot_ids : list string) (availability_zone : string) (w : W)
    (az k s ty : string) (enc : bool) (tags : list Tag) (r : Reply) :
  In (Req (CreateVolume az enc k s ty tags) r)
     (events_of (create_volume ec2 self snapshot_ids availability_zone w)) ->
  az = availability_zone /\ enc = true /\ k = key self /\
  In s snapshot_ids /\
  exists w1,
    Client.snapshot_tags ec2 w1 s = inr (Some tags) /\
    ty = tag_value "volume-type" tags.
Proof.
  unfold create_volume. rewrite events_bind.
  intros [H|H]%in_app_or.
  - apply for_each_event in H as (x & w1 & Hx & H).
    apply volume_one_request in H as (-> & -> & -> & -> & Ht & ->).
    repeat split; eauto.
  - destruct (result_of (for_each _ _ _)) as [vols|e]; [|destruct H].
    simpl in H. destruct H as [H|[]]. discriminate.
Qed.

Lemma attach_one_request self v w d i v' r :
  In (Req (AttachVolume d i v') r) (events_of (attach_one ec2 self v w)) ->
  i = instance_id self /\ v' = v /\
  exists tags,
    Client.volume_tags ec2 w v = inr (Some tags) /\ d = tag_value "device-name" tags.
Proof.
  unfold attach_one, volume_resource_tags, iterate, bind, read, request, ret, raise.
  repeat case_answer; subst; simpl;
    intros H; repeat (destruct H as [H|H]; try discriminate H);
    try contradiction; injection H as <- <- <- _; eauto.
Qed.

(** X16. Every attach request that [attach_volume] sends is for
    [self.instance_id], for one of the volumes given, at the device read
    from that volume's [device-name] tag. *)
Theorem attach_requests_use_recorded_device (self : EncryptEC2)
    (volume_ids : list string) (w : W) (d i v : string) (r : Reply) :
  In (Req (AttachVolume d i v) r)
     (events_of (attach_volume ec2 self volume_ids w)) ->
  i = instance_id self /\ In v volume_ids /\
  exists w1 tags,
    Client.volume_tags ec2 w1 v = inr (Some tags) /\ d = tag_value "device-name" tags.
Proof.
  unfold attach_volume. rewrite events_bind.
  intros [H|H]%in_app_or.
  - apply for_each_event in H as (x & w1 & Hx & H).
    apply attach_one_request in H as (-> & -> & tags & Ht & ->).
    repeat split; eauto.
  - destruct (result_of (for_each _ _ _)) as [us|e]; [|destruct H].
    simpl in H. destruct H as [H|[]]. discriminate.
Qed.

End Rounds.

(** ** A resource without tags *)

Section NoTags.
Context {W : Type} (ec2 : Client.t W).

Lemma volume_one_no_tags self az s w :
  Client.snapshot_tags ec2 w s = inr None ->
  volume_one ec2 self az s w = Out w [Req (SnapshotTags s) Done] (Raise TypeError).
Proof.
  intros H. unfold volume_one, snapshot_resource_tags, bind, read. now rewrite H.
Qed.

Lemma attach_one_no_tags self v w :
  Client.volume_tags ec2 w v = inr None ->
  attach_one ec2 self v w = Out w [Req (VolumeTags v) Done] (Raise TypeError).
Proof.
  intros H. unfold attach_one, volume_resource_tags, bind, read. now rewrite H.
Qed.

(** C10. When the loop of [create_volume] gets to a snapshot whose
    [tags] attribute is [None], as it is for a snapshot without tags,
    the [for] over it raises [TypeError]: no [create_volume] request is
    sent for that snapshot or for the ones after it. The loop of
    [attach_volume] does the same at a volume whose [tags] attribute is
    [None]: no attach request is sent for it or for the ones after it. *)
Theorem resource_without_tags_raises_type_error (self : EncryptEC2)
    (availability_zone : string)
    (before after : list string) (snapshot : string) (w w1 : W)
    (e1 : list Event) (created : list string)
    (vbefore vafter : list string) (volume : string) (wv wv1 : W)
    (ev1 : list Event) (us : list unit) :
  for_each (volume_one ec2 self availability_zone) before w = Out w1 e1 (OK created) ->
  Client.snapshot_tags ec2 w1 snapshot = inr None ->
  for_each (attach_one ec2 self) vbefore wv = Out wv1 ev1 (OK us) ->
  Client.volume_tags ec2 wv1 volume = inr None ->
  create_volume ec2 self (before ++ snapshot :: after) availability_zone w =
    Out w1 (e1 ++ [Req (SnapshotTags snapshot) Done]) (Raise TypeError) /\
  attach_volume ec2 self (vbefore ++ volume :: vafter) wv =
    Out wv1 (ev1 ++ [Req (VolumeTags volume) Done]) (Raise TypeError).
Proof.
  intros Hb Hs Hvb Hv. split.
  - unfold create_volume.
    now rewrite (bind_Raise _ _ _ _ _ _
                   (for_each_stops _ _ _ _ _ _ _ _ _ _ _ Hb
                      (volume_one_no_tags self availability_zone snapshot w1 Hs))).
  - unfold attach_volume.
    now rewrite (bind_Raise _ _ _ _ _ _
                   (for_each_stops _ _ _ _ _ _ _ _ _ _ _ Hvb
                      (attach_one_no_tags self volume wv1 Hv))).
Qed.

End NoTags.

(** ** The whole run, stage by stage *)

Ltac configured :=
  simpl; rewrite ?String.eqb_refl, ?Nat.eqb_refl; reflexivity.

Ltac only_configured :=
  repeat
    first
      [ apply only_ret | apply only_raise | apply only_print | apply only_index0
      | apply only_iterate
      | apply only_request; configured | apply only_wait; configured
      | apply only_read; configured
      | apply only_for_each; intros ?
      | apply only_bind; [|intros ?] ].

Section Stages.
Context {W : Type} (ec2 : Client.t W).

Lemma start_encryption_waits self :
  only (configured_wait (instance_id self) (_delay self) (_max_attempts self))
    (start_encryption ec2 self).
Proof.
  unfold start_encryption. apply only_if; [|apply only_ret].
  apply only_bind.
  { apply get_ebs_list_only. now intros []. }
  intros volumes. apply only_bind; [apply get_az_only|]. intros az.
  unfold stop_instance, detach_volume, create_snapshots, create_volume,
    attach_volume, start_instance, delete_snapshots, detach_one, snapshot_one,
    volume_one, attach_one, delete_one, volume_resource_tags,
    snapshot_resource_tags.
  apply only_bind; [only_configured|]. intros _.
  apply only_bind.
  { apply only_bind; [apply get_ebs_list_only; now intros []|]. intros vs.
    only_configured. }
  intros _. only_configured.
Qed.

(** X17. Every wait of the script is made with [Delay=5] and
    [MaxAttempts=60], and the waits on the instance name the id the
    script was given. *)
Theorem waits_use_configuration (iid k : string) (w : W) (c : Call) (r : Reply) :
  In (Req c r) (events_of (main ec2 iid k w)) ->
  configured_wait iid 5 60 c = true.
Proof.
  rewrite main_unfold. intros [H|(w1 & e1 & self & Hinit & H)]%bind_event_cases.
  - pose proof (init_only ec2 is_describe iid k (fun c Hc => Hc) w) as Hi.
    rewrite List.Forall_forall in Hi. apply Hi in H. simpl in H.
    now destruct c.
  - destruct (init_fields ec2 iid k w self) as (Hid & _ & Hd & Hn).
    { now rewrite Hinit. }
    pose proof (start_encryption_waits self w1) as Hs.
    rewrite List.Forall_forall in Hs. apply Hs in H. simpl in H.
    now rewrite Hid, Hd, Hn in H.
Qed.

Lemma mutating_calls_allowed K (evs : list Event) :
  Forall (allowed K) evs ->
  Forall (fun c => K c = true /\ mutating c = true) (mutating_calls evs).
Proof.
  induction 1 as [|ev evs He _ IH]; [constructor|].
  change (ev :: evs) with ([ev] ++ evs). rewrite mutating_calls_app.
  apply Forall_app. split; [|exact IH].
  destruct ev as [c r|l]; [|constructor].
  unfold mutating_calls. simpl. destruct (mutating c) eqn:Hm; repeat constructor.
  - exact He.
  - exact Hm.
Qed.

Lemma delete_rounds_calls l :
  forall w w' evs us,
    for_each (delete_one ec2) l w = Out w' evs (OK us) ->
    mutating_calls evs = map DeleteSnapshot l.
Proof.
  induction l as [|s l IH]; intros w w' evs us H.
  - now apply for_each_nil_inv in H as (_ & -> & _).
  - apply for_each_cons_inv in H as (w1 & e1 & y & e2 & ys' & Hx & H & -> & _).
    apply delete_one_OK in Hx as (_ & ->).
    rewrite mutating_calls_app, (IH _ _ _ _ H). reflexivity.
Qed.

(** X18. The changes of a run that goes through come in the order of the
    stages: the stop; then tags and detachments only; then snapshot
    requests only; then volume requests only; then attach requests
    only; then the start; then one delete request for each snapshot
    created, in the order of creation. *)
Theorem changes_come_stage_by_stage (self : EncryptEC2) (w w' : W)
    (evs : list Event) :
  _pre_checks_passed self = true ->
  start_encryption ec2 self w = Out w' evs (OK tt) ->
  exists detaching snapshotting creating attaching,
    mutating_calls evs =
      StopInstances (instance_id self) ::
      detaching ++ snapshotting ++ creating ++ attaching ++
      StartInstances (instance_id self) ::
      map DeleteSnapshot (map snd (created_snapshots evs)) /\
    Forall (fun c => is_create_tags c || is_detach_volume c = true) detaching /\
    Forall (fun c => is_create_snapshot c = true) snapshotting /\
    Forall (fun c => is_create_volume c = true) creating /\
    Forall (fun c => is_attach_volume c = true) attaching.
Proof.
  intros Hp Hrun.
  destruct (start_encryption_stages ec2 self w w' evs tt Hp Hrun)
    as [vols az snaps nvols w_stop w_det w_snap w_vol w_att w_start
          e_list e_stop e_det e_snap e_vol e_att e_start e_del
          Hl Haz Hs Hd Hsn Hv Ha Hst Hdel ->].
  destruct (stage_traces ec2 _ _ _ _ _ _ _ _ _ _ _ _ _ _ _ _ _ _ _ _ _ _
              Hl Hs Hd Hsn Hv Ha Hst Hdel) as (T1 & _ & _ & _).
  cbv zeta in T1. rewrite T1. clear T1.
  pose proof (only_outcome _ _ _ _ _ _
                (get_ebs_list_only ec2 is_describe self (fun c H => H)) Hl) as A1.
  pose proof (only_outcome _ _ _ _ _ _ (detach_volume_only ec2 self) Hd) as A3.
  pose proof (only_outcome _ _ _ _ _ _ (create_snapshots_only ec2 self _) Hsn) as A4.
  pose proof (only_outcome _ _ _ _ _ _ (create_volume_only ec2 self _ _) Hv) as A5.
  pose proof (only_outcome _ _ _ _ _ _ (attach_volume_only ec2 self _) Ha) as A6.
  apply mutating_calls_allowed in A3, A4, A5, A6.
  exists (mutating_calls e_det), (mutating_calls e_snap),
    (mutating_calls e_vol), (mutating_calls e_att).
  split; [|repeat split].
  - rewrite !mutating_calls_app.
    rewrite (allowed_no_mutation is_describe e_list is_describe_not_mutating A1).
    apply stop_instance_OK in Hs as (w1 & _ & _ & ->).
    apply start_instance_OK in Hst as (w2 & _ & _ & ->).
    apply create_snapshots_order in Hsn as [_ ->].
    unfold delete_snapshots in Hdel.
    apply bind_OK_inv in Hdel as (wd & ed & us & er & Hdel & Hret & ->).
    apply ret_inv in Hret as (_ & -> & _).
    rewrite mutating_calls_app, (delete_rounds_calls _ _ _ _ _ Hdel).
    simpl. now rewrite app_nil_r.
  - eapply List.Forall_impl; [|exact A3]. simpl. now intros [] [Hk Hm].
  - eapply List.Forall_impl; [|exact A4]. simpl. now intros [] [Hk Hm].
  - eapply List.Forall_impl; [|exact A5]. simpl. now intros [] [Hk Hm].
  - eapply List.Forall_impl; [|exact A6]. simpl. now intros [] [Hk Hm].
Qed.


Lemma stop_instance_event self w c r :
  In (Req c r) (events_of (stop_instance ec2 self w)) ->
  c = StopInstances (instance_id self) \/
  c = WaitInstanceStopped (instance_id self) (_delay self) (_max_attempts self).
Proof.
  unfold stop_instance, bind, print, request, wait.
  repeat case_answer; simpl;
    intros H; repeat (destruct H as [H|H]; try discriminate H);
    try contradiction; injection H as <- _; auto.
Qed.

(** X19. Whatever becomes of the run, [start_encryption] sends a request that
    changes something, other than the stop request itself, only after
    the stop request was accepted and the wait for the stopped state
    returned. *)
Theorem nothing_changes_before_stopped (self : EncryptEC2) (w : W)
    (c : Call) (r : Reply) :
  In (Req c r) (events_of (start_encryption ec2 self w)) ->
  mutating c = true ->
  c <> StopInstances (instance_id self) ->
  In (Req (StopInstances (instance_id self)) Done)
     (events_of (start_encryption ec2 self w)) /\
  In (Req (WaitInstanceStopped (instance_id self) (_delay self)
             (_max_attempts self)) Done)
     (events_of (start_encryption ec2 self w)).
Proof.
  unfold start_encryption. destruct (_pre_checks_passed self); [|intros []].
  intros H Hm Hne.
  apply bind_event_cases in H as [H|(w1 & e1 & vols & Hl & H)].
  { exfalso. refine (allowed_not_in is_describe _ c r _ _ H).
    - apply (get_ebs_list_only ec2 is_describe self (fun c Hc => Hc) w).
    - destruct c; try discriminate; reflexivity. }
  apply bind_event_cases in H as [H|(w2 & e2 & az & Haz & H)].
  { exfalso. refine (allowed_not_in (fun _ => false) _ c r _ eq_refl H).
    apply (get_az_only (W:=W)). }
  apply bind_event_cases in H as [H|(w3 & e3 & u & Hs & H)].
  { exfalso. apply stop_instance_event in H as [->| ->]; [now apply Hne|].
    discriminate. }
  rewrite (bind_OK _ _ _ _ _ _ Hl). simpl.
  rewrite (bind_OK _ _ _ _ _ _ Haz). simpl.
  rewrite (bind_OK _ _ _ _ _ _ Hs). simpl.
  apply stop_instance_OK in Hs as (wa & _ & _ & ->).
  split; apply in_or_app; right; apply in_or_app; right; simpl; auto.
Qed.

Lemma created_snapshots_in (evs : list Event) v tags sid :
  In (v, tags, sid) (created_snapshots evs) ->
  In (Req (CreateSnapshot v tags) (Created sid)) evs.
Proof.
  unfold created_snapshots. rewrite in_flat_map.
  intros ([[] []|] & Hin & H); simpl in H; try contradiction.
  destruct H as [[= <- <- <-]|[]]. exact Hin.
Qed.

Lemma delete_snapshots_event l w s r :
  In (Req (DeleteSnapshot s) r) (events_of (delete_snapshots ec2 l w)) -> In s l.
Proof.
  unfold delete_snapshots. rewrite events_bind. intros [H|H]%in_app_or.
  - apply for_each_event in H as (x & w1 & Hx & H).
    unfold delete_one, bind, request, print in H. revert H.
    repeat case_answer; simpl;
      intros H; repeat (destruct H as [H|H]; try discriminate H);
      try contradiction; now injection H as <-.
  - destruct (result_of (for_each _ _ _)); destruct H.
Qed.

(** X20. Whatever becomes of the run, [start_encryption] asks to delete a
    snapshot only after the instance was started and passed its status
    checks, and only a snapshot that this run created. *)
Theorem deletes_only_after_status_ok (self : EncryptEC2) (w : W)
    (s : string) (r : Reply) :
  In (Req (DeleteSnapshot s) r) (events_of (start_encryption ec2 self w)) ->
  In (Req (WaitInstanceStatusOk (instance_id self) (_delay self)
             (_max_attempts self)) Done)
     (events_of (start_encryption ec2 self w)) /\
  exists v tags,
    In (Req (CreateSnapshot v tags) (Created s))
       (events_of (start_encryption ec2 self w)).
Proof.
  unfold start_encryption. destruct (_pre_checks_passed self); [|intros []].
  intros H.
  apply bind_event_cases in H as [H|(w1 & e1 & vols & Hl & H)].
  { exfalso. refine (allowed_not_in is_describe _ (DeleteSnapshot s) r _ eq_refl H).
    apply (get_ebs_list_only ec2 is_describe self (fun c Hc => Hc) w). }
  apply bind_event_cases in H as [H|(w2 & e2 & az & Haz & H)].
  { exfalso. refine (allowed_not_in (fun _ => false) _ (DeleteSnapshot s) r _ eq_refl H).
    apply (get_az_only (W:=W)). }
  apply bind_event_cases in H as [H|(w3 & e3 & u3 & Hs & H)].
  { exfalso. refine (allowed_not_in stop_kinds _ (DeleteSnapshot s) r _ eq_refl H).
    apply stop_instance_only. }
  apply bind_event_cases in H as [H|(w4 & e4 & u4 & Hd & H)].
  { exfalso. refine (allowed_not_in detach_kinds _ (DeleteSnapshot s) r _ eq_refl H).
    apply detach_volume_only. }
  apply bind_event_cases in H as [H|(w5 & e5 & snaps & Hsn & H)].
  { exfalso. refine (allowed_not_in snapshot_kinds _ (DeleteSnapshot s) r _ eq_refl H).
    apply create_snapshots_only. }
  apply bind_event_cases in H as [H|(w6 & e6 & nvols & Hv & H)].
  { exfalso. refine (allowed_not_in volume_kinds _ (DeleteSnapshot s) r _ eq_refl H).
    apply create_volume_only. }
  apply bind_event_cases in H as [H|(w7 & e7 & b & Ha & H)].
  { exfalso. refine (allowed_not_in attach_kinds _ (DeleteSnapshot s) r _ eq_refl H).
    apply attach_volume_only. }
  apply bind_event_cases in H as [H|(w8 & e8 & u8 & Hst & H)].
  { exfalso. refine (allowed_not_in start_kinds _ (DeleteSnapshot s) r _ eq_refl H).
    apply start_instance_only. }
  rewrite (bind_OK _ _ _ _ _ _ Hl). simpl.
  rewrite (bind_OK _ _ _ _ _ _ Haz). simpl.
  rewrite (bind_OK _ _ _ _ _ _ Hs). simpl.
  rewrite (bind_OK _ _ _ _ _ _ Hd). simpl.
  rewrite (bind_OK _ _ _ _ _ _ Hsn). simpl.
  rewrite (bind_OK _ _ _ _ _ _ Hv). simpl.
  rewrite (bind_OK _ _ _ _ _ _ Ha). simpl.
  rewrite (bind_OK _ _ _ _ _ _ Hst). simpl.
  apply delete_snapshots_event in H.
  destruct (create_snapshots_order ec2 self _ _ _ _ _ Hsn) as [_ Hids].
  rewrite <- Hids in H. apply in_map_iff in H as ([[v tags] s'] & Hs' & Hin).
  simpl in Hs'. subst s'. apply created_snapshots_in in Hin.
  apply start_instance_OK in Hst as (wa & _ & _ & ->).
  split.
  - do 7 (apply in_or_app; right). apply in_or_app. left. simpl. auto.
  - exists v, tags. do 4 (apply in_or_app; right). apply in_or_app. now left.
Qed.

End Stages.

(** ** The further properties at concrete inventories *)

Lemma malformed_instance_id_is_reported_witness :
  let c := DescribeInstances "1-i" in
  let err := Mock.error "InvalidInstanceID.Malformed" in
  (In (Req c (Failed (ClientError err)))
      (events_of (pre_checks Mock.ec2 Cases.malformed Mock.scenario)) /\
   Code err = "InvalidInstanceID.Malformed") /\
  result_of (pre_checks Mock.ec2 Cases.malformed Mock.scenario) = OK (Some false) /\
  In (Printed (LogInstanceNotFound "1-i"))
     (events_of (pre_checks Mock.ec2 Cases.malformed Mock.scenario)) /\
  result_of (main Mock.ec2 "1-i" "alias/aws/ebs" Mock.scenario) = OK tt /\
  mutating_calls (events_of (main Mock.ec2 "1-i" "alias/aws/ebs" Mock.scenario)) = [].
Proof.
  intros c err.
  assert (H1 : In (Req c (Failed (ClientError err)))
                 (events_of (pre_checks Mock.ec2 Cases.malformed Mock.scenario))).
  { vm_compute. repeat (first [left; reflexivity | right]). }
  assert (H2 : Code err = "InvalidInstanceID.Malformed") by reflexivity.
  split; [exact (conj H1 H2)|].
  exact (malformed_instance_id_is_reported Mock.ec2 Cases.malformed Mock.scenario
           "alias/aws/ebs" c err H1 H2).
Defined.

Lemma empty_answer_raises_index_error_witness :
  (Client.describe_instances Vacant.ec2 tt "i-1" = inr [] /\ True) /\
  get_ebs_list Vacant.ec2 Mock.self tt =
    Out tt [Req (DescribeInstances "i-1") Done] (Raise IndexError) /\
  result_of (pre_checks Vacant.ec2 Mock.self tt) = Raise IndexError /\
  result_of (main Vacant.ec2 "i-1" "alias/aws/ebs" tt) = Raise IndexError /\
  calls (events_of (main Vacant.ec2 "i-1" "alias/aws/ebs" tt)) =
    [DescribeInstances "i-1"].
Proof.
  assert (H1 : Client.describe_instances Vacant.ec2 tt (instance_id Mock.self) =
               inr []) by reflexivity.
  split; [exact (conj H1 I)|].
  exact (empty_answer_raises_index_error Vacant.ec2 Mock.self tt
           "alias/aws/ebs" [] H1 I).
Defined.

Lemma passed_constructor_is_ready_witness :
  (result_of (__init__ Mock.ec2 "i-1" "alias/aws/ebs" Mock.scenario) =
     OK Mock.self /\
   _pre_checks_passed Mock.self = true) /\
  exists v vs r rs inst insts,
    Client.describe_instances Mock.ec2 Mock.scenario "i-1" = inr (r :: rs) /\
    Instances r = inst :: insts /\
    _ec2_details Mock.self = Some (r :: rs) /\
    result_of (get_ebs_list Mock.ec2 Mock.self Mock.scenario) = OK (v :: vs) /\
    get_az Mock.self Mock.scenario =
      Out Mock.scenario [] (OK (AvailabilityZone inst)) /\
    unsupported_type (InstanceType inst) = false.
Proof.
  assert (H1 : result_of (__init__ Mock.ec2 "i-1" "alias/aws/ebs" Mock.scenario) =
               OK Mock.self) by (vm_compute; reflexivity).
  assert (H2 : _pre_checks_passed Mock.self = true) by reflexivity.
  split; [exact (conj H1 H2)|].
  exact (passed_constructor_is_ready Mock.ec2 "i-1" "alias/aws/ebs" Mock.scenario
           Mock.self H1 H2).
Defined.

Lemma get_ebs_list_lists_unencrypted_witness :
  (Client.describe_instances Mock.ec2 Mock.scenario (instance_id Mock.self) =
     inr [Cases.reservation] /\
   Forall2
     (fun ebs v =>
        Client.describe_volumes Mock.ec2 Mock.scenario (Ebs_VolumeId ebs) = inr [v])
     [mkMapping "vol-a"; mkMapping "vol-b"] [Mock.vol_a; Cases.vol_b]) /\
  get_ebs_list Mock.ec2 Mock.self Mock.scenario =
    Out Mock.scenario
      [Req (DescribeInstances "i-1") Done;
       Req (DescribeVolumes "vol-a") Done;
       Req (DescribeVolumes "vol-b") Done]
      (OK [Mock.vol_a]).
Proof.
  assert (H1 : Client.describe_instances Mock.ec2 Mock.scenario
                 (instance_id Mock.self) = inr [Cases.reservation])
    by (vm_compute; reflexivity).
  assert (H2 : Forall2
                 (fun ebs v =>
                    Client.describe_volumes Mock.ec2 Mock.scenario
                      (Ebs_VolumeId ebs) = inr [v])
                 [mkMapping "vol-a"; mkMapping "vol-b"]
                 [Mock.vol_a; Cases.vol_b]).
  { repeat constructor. }
  split; [exact (conj H1 H2)|].
  exact (get_ebs_list_lists_unencrypted Mock.ec2 Mock.self Mock.scenario
           Cases.reservation [] _ [] [Mock.vol_a; Cases.vol_b] H1 eq_refl H2).
Defined.

Lemma detach_only_after_tagging_witness :
  let pre :=
    [Req (DescribeInstances "i-1") Done;
     Req (DescribeVolumes "vol-a") Done;
     Req (DescribeVolumes "vol-b") Done;
     Req (DescribeVolumes "vol-c") Done;
     Req (CreateTags "vol-a" [mkTag "device-name" "/dev/sda1";
                              mkTag "volume-type" "gp2"]) Done;
     Printed (LogDetaching "vol-a" "/dev/sda1");
     Req (DetachVolume "i-1" "vol-a") Done;
     Req (WaitVolumeAvailable "vol-a" 5 60) Done;
     Req (CreateTags "vol-c" [mkTag "device-name" "/dev/sdg";
                              mkTag "volume-type" "io1"]) Done;
     Printed (LogDetaching "vol-c" "/dev/sdg")] in
  let post := [Req (WaitVolumeAvailable "vol-c" 5 60) Done] in
  events_of (detach_volume Mock.ec2 Cases.pair_self Cases.pair) =
    pre ++ Req (DetachVolume "i-1" "vol-c") Done :: post /\
  "i-1" = instance_id Cases.pair_self /\
  exists before device_name volume_type,
    pre = before ++
          [Req (CreateTags "vol-c" [mkTag "device-name" device_name;
                                    mkTag "volume-type" volume_type]) Done;
           Printed (LogDetaching "vol-c" device_name)].
Proof.
  intros pre post.
  assert (H : events_of (detach_volume Mock.ec2 Cases.pair_self Cases.pair) =
              pre ++ Req (DetachVolume "i-1" "vol-c") Done :: post)
    by (vm_compute; reflexivity).
  split; [exact H|].
  exact (detach_only_after_tagging Mock.ec2 Cases.pair_self Cases.pair
           pre post "i-1" "vol-c" Done H).
Defined.

Lemma detach_volume_requests_witness :
  let o := detach_volume Mock.ec2 Mock.self Mock.scenario in
  o = Out (world_of o) (events_of o) (OK tt) /\
  exists volumes,
    result_of (get_ebs_list Mock.ec2 Mock.self Mock.scenario) = OK volumes /\
    Forall (fun item => Attachments item <> []) volumes /\
    mutating_calls (events_of o) =
      flat_map
        (fun item =>
           [CreateTags (VolumeId item)
              [mkTag "device-name" (first_device item);
               mkTag "volume-type" (VolumeType item)];
            DetachVolume (instance_id Mock.self) (VolumeId item)])
        volumes.
Proof.
  assert (H : detach_volume Mock.ec2 Mock.self Mock.scenario =
              Out (world_of (detach_volume Mock.ec2 Mock.self Mock.scenario))
                (events_of (detach_volume Mock.ec2 Mock.self Mock.scenario))
                (OK tt)) by (vm_compute; reflexivity).
  split; [exact H|].
  exact (detach_volume_requests Mock.ec2 Mock.self Mock.scenario _ _ H).
Defined.

Lemma detach_without_attachment_raises_witness :
  let el := events_of (get_ebs_list Mock.ec2 Mock.self Cases.loose) in
  (get_ebs_list Mock.ec2 Mock.self Cases.loose =
     Out Cases.loose el (OK ([] ++ Cases.vol_d :: [])) /\
   for_each (detach_one Mock.ec2 Mock.self) [] Cases.loose =
     Out Cases.loose [] (OK []) /\
   Attachments Cases.vol_d = []) /\
  detach_volume Mock.ec2 Mock.self Cases.loose =
    Out Cases.loose (el ++ []) (Raise IndexError).
Proof.
  intros el.
  assert (H1 : get_ebs_list Mock.ec2 Mock.self Cases.loose =
               Out Cases.loose el (OK ([] ++ Cases.vol_d :: [])))
    by (vm_compute; reflexivity).
  assert (H2 : for_each (detach_one Mock.ec2 Mock.self) [] Cases.loose =
               Out Cases.loose [] (OK [])) by reflexivity.
  assert (H3 : Attachments Cases.vol_d = []) by reflexivity.
  split; [exact (conj H1 (conj H2 H3))|].
  exact (detach_without_attachment_raises Mock.ec2 Mock.self Cases.loose
           Cases.loose [] [] Cases.vol_d el [] [] H1 H2 H3).
Defined.

Lemma tag_value_last_wins_witness :
  let t := mkTag "volume-type" "io1" in
  let after := [mkTag "Name" "data"] in
  (Key t = "volume-type" /\
   (forall t', In t' after -> Key t' <> "volume-type")) /\
  tag_value "volume-type" ([mkTag "volume-type" "gp2"] ++ t :: after) = Value t.
Proof.
  intros t after.
  assert (H1 : Key t = "volume-type") by reflexivity.
  assert (H2 : forall t', In t' after -> Key t' <> "volume-type").
  { intros t' [<-|[]]. simpl. discriminate. }
  split; [exact (conj H1 H2)|].
  exact (tag_value_last_wins "volume-type" [mkTag "volume-type" "gp2"] after t
           H1 H2).
Defined.

Lemma final_tags_keeps_tag_value_witness :
  let tags := [mkTag "aws:backup" "daily"; mkTag "device-name" "/dev/sda1"] in
  String.prefix "aws" "device-name" = false /\
  tag_value "device-name" (final_tags tags) = tag_value "device-name" tags.
Proof.
  intros tags.
  assert (H : String.prefix "aws" "device-name" = false) by reflexivity.
  split; [exact H|].
  exact (final_tags_keeps_tag_value "device-name" tags H).
Defined.

Lemma create_snapshots_stops_at_failure_witness :
  let o1 := create_snapshots Mock.ec2 Mock.self ["vol-a"] Mock.scenario in
  let o2 := snapshot_one Mock.ec2 Mock.self "vol-z" (world_of o1) in
  let e := ClientError (Mock.error "InvalidVolume.NotFound") in
  (o1 = Out (world_of o1) (events_of o1) (OK ["snap-0"]) /\
   o2 = Out (world_of o2) (events_of o2) (Raise e)) /\
  create_snapshots Mock.ec2 Mock.self (["vol-a"] ++ "vol-z" :: ["vol-b"])
    Mock.scenario =
    Out (world_of o2) (events_of o1 ++ events_of o2) (Raise e) /\
  (exists extra,
      map snd (created_snapshots (events_of o1 ++ events_of o2)) =
        ["snap-0"] ++ extra /\
      length extra <= 1) /\
  deleted_snapshots (events_of o1 ++ events_of o2) = [].
Proof.
  intros o1 o2 e.
  assert (H1 : o1 = Out (world_of o1) (events_of o1) (OK ["snap-0"]))
    by (vm_compute; reflexivity).
  assert (H2 : o2 = Out (world_of o2) (events_of o2) (Raise e))
    by (vm_compute; reflexivity).
  split; [exact (conj H1 H2)|].
  exact (create_snapshots_stops_at_failure Mock.ec2 Mock.self ["vol-a"] ["vol-b"]
           "vol-z" Mock.scenario _ _ _ _ _ e H1 H2).
Defined.

Lemma delete_snapshots_stops_at_failure_witness :
  let o1 := for_each (delete_one Mock.ec2) ["snap-x"] Mock.untagged in
  let err := Mock.error "InvalidSnapshot.NotFound" in
  (o1 = Out (world_of o1) (events_of o1) (OK [tt]) /\
   Client.delete_snapshot Mock.ec2 (world_of o1) "snap-y" =
     (world_of o1, inl err)) /\
  delete_snapshots Mock.ec2 (["snap-x"] ++ "snap-y" :: ["snap-z"]) Mock.untagged =
    Out (world_of o1)
      (events_of o1 ++ [Req (DeleteSnapshot "snap-y") (Failed (ClientError err))])
      (Raise (ClientError err)) /\
  deleted_snapshots
    (events_of o1 ++ [Req (DeleteSnapshot "snap-y") (Failed (ClientError err))]) =
    ["snap-x"] ++ ["snap-y"].
Proof.
  intros o1 err.
  assert (H1 : o1 = Out (world_of o1) (events_of o1) (OK [tt]))
    by (vm_compute; reflexivity).
  assert (H2 : Client.delete_snapshot Mock.ec2 (world_of o1) "snap-y" =
               (world_of o1, inl err)) by (vm_compute; reflexivity).
  split; [exact (conj H1 H2)|].
  exact (delete_snapshots_stops_at_failure Mock.ec2 ["snap-x"] ["snap-z"]
           "snap-y" Mock.untagged _ _ _ _ err H1 H2).
Defined.

Lemma create_volume_requests_encrypted_witness :
  let tags := [mkTag "Name" "data"] in
  let r := Failed (ClientError (Mock.error "InvalidParameterValue")) in
  In (Req (CreateVolume "us-east-1a" true "alias/aws/ebs" "snap-x" EmptyString
             tags) r)
     (events_of (create_volume Mock.ec2 Mock.self ["snap-x"] "us-east-1a"
                   Mock.untagged)) /\
  "us-east-1a" = "us-east-1a" /\ true = true /\
  "alias/aws/ebs" = key Mock.self /\
  In "snap-x" ["snap-x"] /\
  exists w1,
    Client.snapshot_tags Mock.ec2 w1 "snap-x" = inr (Some tags) /\
    EmptyString = tag_value "volume-type" tags.
Proof.
  intros tags r.
  assert (H : In (Req (CreateVolume "us-east-1a" true "alias/aws/ebs" "snap-x"
                         EmptyString tags) r)
                (events_of (create_volume Mock.ec2 Mock.self ["snap-x"]
                              "us-east-1a" Mock.untagged))).
  { vm_compute. repeat (first [left; reflexivity | right]). }
  split; [exact H|].
  exact (create_volume_requests_encrypted Mock.ec2 Mock.self ["snap-x"]
           "us-east-1a" Mock.untagged _ _ _ _ _ _ _ H).
Defined.

Lemma attach_requests_use_recorded_device_witness :
  let r := Failed (ClientError (Mock.error "InvalidParameterValue")) in
  In (Req (AttachVolume EmptyString "i-1" "vol-x") r)
     (events_of (attach_volume Mock.ec2 Mock.self ["vol-x"] Mock.untagged)) /\
  "i-1" = instance_id Mock.self /\ In "vol-x" ["vol-x"] /\
  exists w1 tags,
    Client.volume_tags Mock.ec2 w1 "vol-x" = inr (Some tags) /\
    EmptyString = tag_value "device-name" tags.
Proof.
  intros r.
  assert (H : In (Req (AttachVolume EmptyString "i-1" "vol-x") r)
                (events_of (attach_volume Mock.ec2 Mock.self ["vol-x"]
                              Mock.untagged))).
  { vm_compute. repeat (first [left; reflexivity | right]). }
  split; [exact H|].
  exact (attach_requests_use_recorded_device Mock.ec2 Mock.self ["vol-x"]
           Mock.untagged _ _ _ _ H).
Defined.

Lemma waits_use_configuration_witness :
  let c := WaitVolumeAvailable "vol-a" 5 60 in
  In (Req c Done) (events_of (main Mock.ec2 "i-1" "alias/aws/ebs" Mock.scenario)) /\
  configured_wait "i-1" 5 60 c = true.
Proof.
  intros c.
  assert (H : In (Req c Done)
                (events_of (main Mock.ec2 "i-1" "alias/aws/ebs" Mock.scenario))).
  { vm_compute. repeat (first [left; reflexivity | right]). }
  split; [exact H|].
  exact (waits_use_configuration Mock.ec2 "i-1" "alias/aws/ebs" Mock.scenario
           c Done H).
Defined.

Lemma changes_come_stage_by_stage_witness :
  let o := start_encryption Mock.ec2 Mock.self Mock.scenario in
  (_pre_checks_passed Mock.self = true /\
   o = Out (world_of o) (events_of o) (OK tt)) /\
  exists detaching snapshotting creating attaching,
    mutating_calls (events_of o) =
      StopInstances (instance_id Mock.self) ::
      detaching ++ snapshotting ++ creating ++ attaching ++
      StartInstances (instance_id Mock.self) ::
      map DeleteSnapshot (map snd (created_snapshots (events_of o))) /\
    Forall (fun c => is_create_tags c || is_detach_volume c = true) detaching /\
    Forall (fun c => is_create_snapshot c = true) snapshotting /\
    Forall (fun c => is_create_volume c = true) creating /\
    Forall (fun c => is_attach_volume c = true) attaching.
Proof.
  intros o.
  assert (H1 : _pre_checks_passed Mock.self = true) by reflexivity.
  assert (H2 : o = Out (world_of o) (events_of o) (OK tt))
    by (vm_compute; reflexivity).
  split; [exact (conj H1 H2)|].
  exact (changes_come_stage_by_stage Mock.ec2 Mock.self Mock.scenario _ _ H1 H2).
Defined.

Lemma nothing_changes_before_stopped_witness :
  let c := DetachVolume "i-1" "vol-a" in
  let o := start_encryption Mock.ec2 Mock.self Mock.scenario in
  (In (Req c Done) (events_of o) /\
   mutating c = true /\
   c <> StopInstances (instance_id Mock.self)) /\
  In (Req (StopInstances "i-1") Done) (events_of o) /\
  In (Req (WaitInstanceStopped "i-1" 5 60) Done) (events_of o).
Proof.
  intros c o.
  assert (H1 : In (Req c Done) (events_of o)).
  { vm_compute. repeat (first [left; reflexivity | right]). }
  assert (H2 : mutating c = true) by reflexivity.
  assert (H3 : c <> StopInstances (instance_id Mock.self)) by discriminate.
  split; [exact (conj H1 (conj H2 H3))|].
  exact (nothing_changes_before_stopped Mock.ec2 Mock.self Mock.scenario
           c Done H1 H2 H3).
Defined.

Lemma deletes_only_after_status_ok_witness :
  let o := start_encryption Mock.ec2 Mock.self Mock.scenario in
  In (Req (DeleteSnapshot "snap-0") Done) (events_of o) /\
  In (Req (WaitInstanceStatusOk "i-1" 5 60) Done) (events_of o) /\
  exists v tags, In (Req (CreateSnapshot v tags) (Created "snap-0")) (events_of o).
Proof.
  intros o.
  assert (H : In (Req (DeleteSnapshot "snap-0") Done) (events_of o)).
  { vm_compute. repeat (first [left; reflexivity | right]). }
  split; [exact H|].
  exact (deletes_only_after_status_ok Mock.ec2 Mock.self Mock.scenario
           "snap-0" Done H).
Defined.

Lemma resource_without_tags_raises_type_error_witness :
  let o1 := for_each (volume_one Mock.ec2 Mock.self "us-east-1a") ["snap-t"]
              Cases.bare in
  let o2 := for_each (attach_one Mock.ec2 Mock.self) ["vol-t"] Cases.bare in
  (o1 = Out (world_of o1) (events_of o1) (OK ["vol-0"]) /\
   Client.snapshot_tags Mock.ec2 (world_of o1) "snap-n" = inr None /\
   o2 = Out (world_of o2) (events_of o2) (OK [tt]) /\
   Client.volume_tags Mock.ec2 (world_of o2) "vol-n" = inr None) /\
  create_volume Mock.ec2 Mock.self (["snap-t"] ++ "snap-n" :: ["snap-t"])
    "us-east-1a" Cases.bare =
    Out (world_of o1) (events_of o1 ++ [Req (SnapshotTags "snap-n") Done])
      (Raise TypeError) /\
  attach_volume Mock.ec2 Mock.self (["vol-t"] ++ "vol-n" :: ["vol-t"]) Cases.bare =
    Out (world_of o2) (events_of o2 ++ [Req (VolumeTags "vol-n") Done])
      (Raise TypeError).
Proof.
  intros o1 o2.
  assert (H1 : o1 = Out (world_of o1) (events_of o1) (OK ["vol-0"]))
    by (vm_compute; reflexivity).
  assert (H2 : Client.snapshot_tags Mock.ec2 (world_of o1) "snap-n" = inr None)
    by (vm_compute; reflexivity).
  assert (H3 : o2 = Out (world_of o2) (events_of o2) (OK [tt]))
    by (vm_compute; reflexivity).
  assert (H4 : Client.volume_tags Mock.ec2 (world_of o2) "vol-n" = inr None)
    by (vm_compute; reflexivity).
  split; [exact (conj H1 (conj H2 (conj H3 H4)))|].
  exact (resource_without_tags_raises_type_error Mock.ec2 Mock.self "us-east-1a"
           ["snap-t"] ["snap-t"] "snap-n" Cases.bare _ _ _
           ["vol-t"] ["vol-t"] "vol-n" Cases.bare _ _ _ H1 H2 H3 H4).
Defined.
